(** * Workmate task service: repository, execution contexts and lifecycle

    A shallow embedding of the Go packages [taskmodel], [taskrepository],
    [taskservice], [taskcontroller] and of the container of [app],
    followed by the properties that are proved about them.

    Conventions of the embedding.
    - Go pointers [*taskmodel.Task] are locations into a heap of [Task]
      cells ([list Task], a location is an index, allocation appends);
      [nil] is [None].  Go is memory safe, so the code never dereferences
      a dangling location; reads use the total lookup [!!!].
    - [*TaskContext] objects live in a second heap of the same shape.
    - [sync.Map] is a finite map ([gmap]) from identifiers to locations.
    - [time.Time] and [time.Duration] are integers counting nanoseconds
      ([time.Now] reads the monotonic clock, [time.Since] subtracts).
    - [uuid.UUID] is the 128-bit value as a natural number.
    - A Go [error] is a value of the inductive type [error], one
      constructor per [fmt.Errorf]/[errors.New] site; [nil] is [None]. *)

From stdpp Require Import gmap strings list fin_maps.
From Stdlib Require Import ZArith.

Abbreviation UUID := N (only parsing).
Abbreviation loc := nat (only parsing).
Abbreviation ptr := (option nat) (only parsing).

(** ** Package [time] (the part the program uses) *)
Module time.

Definition Nanosecond : Z := 1.
Definition Second : Z := 1000000000 * Nanosecond.
Definition Minute : Z := 60 * Second.

(** [time.Since(t)], at clock reading [now]. *)
Definition Since (now t : Z) : Z := (now - t)%Z.

End time.

(** ** Errors *)

Inductive error : Type :=
  | ErrTaskNil                      (* "task cannot be nil" *)
  | ErrAlreadyExists (id : UUID)    (* "task with ID %s already exists" *)
  | ErrNotFound (id : UUID)         (* "task with ID %s not found" *)
  | ErrShutdownTimeout              (* errors.New("shutdown timeout") *)
  | ErrWrap (msg : string) (err : error). (* fmt.Errorf(msg + ": %w", err) *)

(** The condition an error reports, looking through [%w] wrapping. *)
Fixpoint is_NotFound (e : error) : bool :=
  match e with
  | ErrNotFound _ => true
  | ErrWrap _ e' => is_NotFound e'
  | _ => false
  end.

Fixpoint is_AlreadyExists (e : error) : bool :=
  match e with
  | ErrAlreadyExists _ => true
  | ErrWrap _ e' => is_AlreadyExists e'
  | _ => false
  end.

Fixpoint is_Timeout (e : error) : bool :=
  match e with
  | ErrShutdownTimeout => true
  | ErrWrap _ e' => is_Timeout e'
  | _ => false
  end.

(** ** Package [taskmodel] *)
Module taskmodel.

Abbreviation TaskStatus := string (only parsing).

Definition StatusDone : TaskStatus := "DONE".
Definition StatusProcessing : TaskStatus := "PROCESSING".
Definition StatusFailed : TaskStatus := "FAILED".

Record Task : Type := mkTask {
  ID : UUID;
  Name : string;
  Status : TaskStatus;
  CreatedAt : Z;
  ProcessingTime : Z
}.

(** The zero value of the struct, what [new(Task)] holds. *)
Definition zero : Task := mkTask 0%N "" "" 0%Z 0%Z.

#[export] Instance Task_inhabited : Inhabited Task := populate zero.

Definition set_ID (v : UUID) (t : Task) : Task :=
  mkTask v (Name t) (Status t) (CreatedAt t) (ProcessingTime t).
Definition set_Name (v : string) (t : Task) : Task :=
  mkTask (ID t) v (Status t) (CreatedAt t) (ProcessingTime t).
Definition set_Status (v : TaskStatus) (t : Task) : Task :=
  mkTask (ID t) (Name t) v (CreatedAt t) (ProcessingTime t).
Definition set_CreatedAt (v : Z) (t : Task) : Task :=
  mkTask (ID t) (Name t) (Status t) v (ProcessingTime t).
Definition set_ProcessingTime (v : Z) (t : Task) : Task :=
  mkTask (ID t) (Name t) (Status t) (CreatedAt t) v.

(** [type Option func(t *Task)]: an option updates the task it is given. *)
Definition Option : Type := Task → Task.

Definition WithName (name : string) : Option := set_Name name.

(** [NewTask(opts...)]: a fresh cell with the identifier [id] drawn by
    [uuid.New()], the options applied in order. *)
Definition NewTask (id : UUID) (opts : list Option) (heap : list Task)
  : list Task * loc :=
  let task := foldl (λ t opt, opt t) (set_ID id zero) opts in
  (heap ++ [task], length heap).

Definition IsDone (t : Task) : bool := bool_decide (Status t = StatusDone).
Definition IsFailed (t : Task) : bool := bool_decide (Status t = StatusFailed).
Definition IsProcessing (t : Task) : bool :=
  bool_decide (Status t = StatusProcessing).

(** A status other than PROCESSING that the program assigns. *)
Definition terminal (s : TaskStatus) : Prop :=
  s = StatusDone ∨ s = StatusFailed.

(** [t.SetStatus(status)], on the cell [l]. *)
Definition SetStatus (status : TaskStatus) (l : loc) (heap : list Task)
  : list Task :=
  <[l := set_Status status (heap !!! l)]> heap.

End taskmodel.

(** ** Package [taskrepository] *)
Module taskrepository.
Import taskmodel.

(** The memory the repository works on: the heap of [Task] cells of the
    process and the repository's own [store] map. *)
Record State : Type := mkState {
  heap : list Task;
  store : gmap UUID loc
}.

Definition NewInMemoryTaskRepository : gmap UUID loc := ∅.

(** [*p = t] *)
Definition write (l : loc) (t : Task) (s : State) : State :=
  mkState (<[l := t]> (heap s)) (store s).

(** [&taskmodel.Task{...}] *)
Definition alloc (t : Task) (s : State) : State * loc :=
  (mkState (heap s ++ [t]) (store s), length (heap s)).

Definition set_store (m : gmap UUID loc) (s : State) : State :=
  mkState (heap s) m.

(** The allocating branch of [copyTask]: [original] is not nil. *)
Definition copyTask_at (l : loc) (s : State) : State * loc :=
  let o := heap s !!! l in
  alloc (mkTask (ID o) (Name o) (Status o) (CreatedAt o) (ProcessingTime o)) s.

Definition copyTask (original : ptr) (s : State) : State * ptr :=
  match original with
  | None => (s, None)
  | Some l => let '(s', l') := copyTask_at l s in (s', Some l')
  end.

(** [Create], [Update] and [GetByID] call [copyTask] on a pointer already
    known not to be nil (checked, or loaded from the store, which only
    ever receives copies); they are written with [copyTask_at]. *)
Definition Create (now : Z) (task : ptr) (s : State) : State * option error :=
  match task with
  | None => (s, Some ErrTaskNil)
  | Some l =>
      let id := ID (heap s !!! l) in
      match store s !! id with
      | Some _ => (s, Some (ErrAlreadyExists id))
      | None =>
          let s1 := write l (set_CreatedAt now (heap s !!! l)) s in
          let '(s2, taskCopy) := copyTask_at l s1 in
          (set_store (<[id := taskCopy]> (store s2)) s2, None)
      end
  end.

Definition GetByID (id : UUID) (s : State) : State * (ptr * option error) :=
  match store s !! id with
  | None => (s, (None, Some (ErrNotFound id)))
  | Some task =>
      let '(s', c) := copyTask_at task s in (s', (Some c, None))
  end.

(** [Update] and [Delete] are each two operations on the [sync.Map]: a
    [Load] that decides whether the method fails, and the [Store] (of a
    copy) or the [Delete].  Nothing ties the two together, so another
    goroutine may run between them; they are given separately, and the
    methods are their composition. *)

(** [r.store.Load(task.ID)] of [Update] and its result. *)
Definition Update_Load (l : loc) (s : State) : option error :=
  let id := ID (heap s !!! l) in
  match store s !! id with
  | None => Some (ErrNotFound id)
  | Some _ => None
  end.

(** [taskCopy := r.copyTask(task); r.store.Store(task.ID, taskCopy)] *)
Definition Update_Store (l : loc) (s : State) : State :=
  let id := ID (heap s !!! l) in
  let '(s1, taskCopy) := copyTask_at l s in
  set_store (<[id := taskCopy]> (store s1)) s1.

Definition Update (task : ptr) (s : State) : State * option error :=
  match task with
  | None => (s, Some ErrTaskNil)
  | Some l =>
      match Update_Load l s with
      | Some err => (s, Some err)
      | None => (Update_Store l s, None)
      end
  end.

(** [r.store.Load(id)] of [Delete] and its result. *)
Definition Delete_Load (id : UUID) (s : State) : option error :=
  match store s !! id with
  | None => Some (ErrNotFound id)
  | Some _ => None
  end.

(** [r.store.Delete(id)] *)
Definition Delete_Delete (id : UUID) (s : State) : State :=
  set_store (delete id (store s)) s.

Definition Delete (id : UUID) (s : State) : State * option error :=
  match Delete_Load id s with
  | Some err => (s, Some err)
  | None => (Delete_Delete id s, None)
  end.

(** The body of the [Range] callback of [GetAll], over the entries in
    the order [Range] visits them. *)
Fixpoint copy_each (entries : list (UUID * loc)) (s : State)
  : State * list loc :=
  match entries with
  | [] => (s, [])
  | (_, l) :: rest =>
      let '(s1, c) := copyTask_at l s in
      let '(s2, cs) := copy_each rest s1 in
      (s2, c :: cs)
  end.

Definition GetAll (s : State) : State * (list loc * option error) :=
  let '(s', tasks) := copy_each (map_to_list (store s)) s in
  (s', (tasks, None)).

(** [GetTaskCount]: the [Range] callback adds one per entry. *)
Definition GetTaskCount (s : State) : nat :=
  foldl (λ count (_ : UUID * loc), S count) 0 (map_to_list (store s)).

(** The body of the [Range] callback of [GetTasksByStatus], over the
    entries in the order [Range] visits them: an entry whose task has the
    given status is copied and appended. *)
Fixpoint copy_matching (status : TaskStatus) (entries : list (UUID * loc))
    (s : State) : State * list loc :=
  match entries with
  | [] => (s, [])
  | (_, l) :: rest =>
      if bool_decide (Status (heap s !!! l) = status) then
        let '(s1, c) := copyTask_at l s in
        let '(s2, cs) := copy_matching status rest s1 in
        (s2, c :: cs)
      else copy_matching status rest s
  end.

Definition GetTasksByStatus (status : TaskStatus) (s : State)
  : State * (list loc * option error) :=
  let '(s', tasks) := copy_matching status (map_to_list (store s)) s in
  (s', (tasks, None)).

(** [Clear]: the [Range] callback deletes the key it is given. *)
Definition Clear (s : State) : State :=
  foldl (λ s (kv : UUID * loc), set_store (delete kv.1 (store s)) s) s
        (map_to_list (store s)).

(** What the repository holds for [id]: the record its pointer leads to. *)
Definition stored (s : State) (id : UUID) : option Task :=
  (λ l, heap s !!! l) <$> store s !! id.

(** Every pointer kept in the store is allocated. *)
Definition store_valid (s : State) : Prop :=
  ∀ id l, store s !! id = Some l → l < length (heap s).

(** *** A caller of the repository

    What code outside the package can do with the repository and with
    the task pointers it holds: allocate a task, overwrite a task it
    holds a pointer to, and call the five methods with pointers it
    holds.  [known] is the set of pointers the caller holds. *)
Inductive call : Type :=
  | CallNew (t : Task)
  | CallAssign (l : loc) (t : Task)
  | CallCreate (now : Z) (task : ptr)
  | CallGetByID (id : UUID)
  | CallUpdate (task : ptr)
  | CallDelete (id : UUID)
  | CallGetAll.

Record Caller : Type := mkCaller {
  mem : State;
  known : gset loc
}.

Definition holds (c : Caller) (p : ptr) : bool :=
  match p with
  | None => true
  | Some l => bool_decide (l ∈ known c)
  end.

Definition run_call (k : call) (c : Caller) : Caller :=
  match k with
  | CallNew t =>
      let '(s, l) := alloc t (mem c) in mkCaller s ({[l]} ∪ known c)
  | CallAssign l t =>
      if bool_decide (l ∈ known c) then mkCaller (write l t (mem c)) (known c)
      else c
  | CallCreate now task =>
      if holds c task then mkCaller (Create now task (mem c)).1 (known c) else c
  | CallGetByID id =>
      match GetByID id (mem c) with
      | (s, (Some l, _)) => mkCaller s ({[l]} ∪ known c)
      | (s, (None, _)) => mkCaller s (known c)
      end
  | CallUpdate task =>
      if holds c task then mkCaller (Update task (mem c)).1 (known c) else c
  | CallDelete id => mkCaller (Delete id (mem c)).1 (known c)
  | CallGetAll =>
      let '(s, (tasks, _)) := GetAll (mem c) in
      mkCaller s (list_to_set tasks ∪ known c)
  end.

Definition run_calls (ks : list call) (c : Caller) : Caller :=
  foldl (λ c k, run_call k c) c ks.

Definition fresh_caller : Caller :=
  mkCaller (mkState [] NewInMemoryTaskRepository) ∅.

End taskrepository.

(** ** Package [taskservice] *)
Module taskservice.
Import taskmodel.

Definition defaultTimeToProcessTask : Z := 6 * time.Minute.

(** [TaskContext].  [Done] is the state of the channel: [true] once it
    is closed.  [Cancel] is the cancel function of the context that
    [CreateTask] derives with [context.WithTimeout]; the state of that
    context (its deadline, whether it was cancelled) is kept in the same
    cell, since the context and the [TaskContext] are created together
    and [Cancel] is the only handle on it besides the executor. *)
Record TaskContext : Type := mkTaskContext {
  ID : UUID;
  Started : Z;
  Done : bool;
  Status : TaskStatus;
  ctxDeadline : Z;
  ctxCancelled : bool
}.

#[export] Instance TaskContext_inhabited : Inhabited TaskContext :=
  populate (mkTaskContext 0%N 0%Z false "" 0%Z false).

Definition set_Status (v : TaskStatus) (tc : TaskContext) : TaskContext :=
  mkTaskContext (ID tc) (Started tc) (Done tc) v (ctxDeadline tc)
                (ctxCancelled tc).

(** [close(tc.Done)] *)
Definition close_Done (tc : TaskContext) : TaskContext :=
  mkTaskContext (ID tc) (Started tc) true (Status tc) (ctxDeadline tc)
                (ctxCancelled tc).

(** [tc.Cancel()] *)
Definition Cancel (tc : TaskContext) : TaskContext :=
  mkTaskContext (ID tc) (Started tc) (Done tc) (Status tc) (ctxDeadline tc)
                true.

(** [<-ctx.Done()] is ready: the context was cancelled or its deadline
    has passed. *)
Definition ctx_done (now : Z) (tc : TaskContext) : bool :=
  ctxCancelled tc || bool_decide (ctxDeadline tc ≤ now)%Z.

(** [select { case <-tc.Done: return true; default: return false }] *)
Definition IsFinished (tc : TaskContext) : bool :=
  if Done tc then true else false.

(** [markFinished]: the status is assigned first, then the channel is
    closed unless it is closed already. *)
Definition markFinished (status : TaskStatus) (tc : TaskContext)
  : TaskContext :=
  let tc := set_Status status tc in
  if Done tc then tc else close_Done tc.

(** The number of times [close(tc.Done)] runs in one call of
    [markFinished] on [tc]: the [default] branch of its [select]. *)
Definition closes (tc : TaskContext) : nat :=
  if Done tc then 0 else 1.

(** A sequence of [markFinished] calls on one context, with the total
    number of [close] operations performed. *)
Fixpoint markFinished_seq (statuses : list TaskStatus) (tc : TaskContext)
  : TaskContext * nat :=
  match statuses with
  | [] => (tc, 0)
  | st :: rest =>
      let '(tc', n) := markFinished_seq rest (markFinished st tc) in
      (tc', closes tc + n)
  end.

(** *** The service and the goroutines it starts *)

(** Where an [executeTask] goroutine stands. *)
Inductive exec_pc : Type :=
  | PStart                      (* before [workDuration] is drawn *)
  | PLoop                       (* blocked in the [select] *)
  | PUpdating                   (* in [repo.Update], line 324, after its [Load] *)
  | PUpdateFailed (elapsed : Z) (* [repo.Update] failed, line 325 *)
  | PFinalizing (status : TaskStatus)
                                (* in the [Update] of [finalizeTask], after its [Load] *)
  | PMark (status : TaskStatus) (* [finalizeTask] done, before [markFinished] *)
  | PDeferWg                    (* returned; deferred function not started *)
  | PDeferMark                  (* after [s.wg.Done()] *)
  | PDeferDelete.               (* before [s.contexts.Delete(task.ID)] *)

(** The locals of an [executeTask] goroutine: [task] (the by-value
    parameter, whose address is passed on, so a cell of its own),
    [taskContext], [workDuration], [start], and the time at which
    [ticker.C] delivers next. *)
Record Exec : Type := mkExec {
  e_task : loc;
  e_tc : loc;
  e_pc : exec_pc;
  e_work : Z;
  e_start : Z;
  e_tick : Z
}.

(** Where a [DeleteTask] call stands. *)
Inductive delete_pc : Type :=
  | DCheck                      (* before [s.repo.GetByID] *)
  | DCancel                     (* before [s.loadTaskContext] *)
  | DDelete                     (* before [s.repo.Delete] *)
  | DDeleting                   (* in [repo.Delete], after its [Load] *)
  | DReturned (err : option error).

(** A goroutine: one that runs [executeTask]; a [CreateTask] call that
    is past [s.repo.Create] and holds the pointer [task]; a [DeleteTask]
    call; one that has returned. *)
Inductive Thread : Type :=
  | TExec (e : Exec)
  | TCreate (task : loc)
  | TDelete (taskID : UUID) (pc : delete_pc)
  | TExited.

(** The process: the repository with the heap of tasks, the heap of
    [TaskContext] cells, the fields [contexts] and [wg] of [Service], the
    goroutines, the clock, and the identifiers [uuid.New] has returned. *)
Record World : Type := mkWorld {
  repo : taskrepository.State;
  ctxs : list TaskContext;
  contexts : gmap UUID loc;
  wg : Z;
  threads : list Thread;
  now : Z;
  issued : gset UUID
}.

Definition NewService : World :=
  mkWorld (taskrepository.mkState [] taskrepository.NewInMemoryTaskRepository)
          [] ∅ 0 [] 0 ∅.

Definition set_repo (r : taskrepository.State) (w : World) : World :=
  mkWorld r (ctxs w) (contexts w) (wg w) (threads w) (now w) (issued w).
Definition set_ctxs (c : list TaskContext) (w : World) : World :=
  mkWorld (repo w) c (contexts w) (wg w) (threads w) (now w) (issued w).
Definition set_contexts (m : gmap UUID loc) (w : World) : World :=
  mkWorld (repo w) (ctxs w) m (wg w) (threads w) (now w) (issued w).
Definition set_wg (n : Z) (w : World) : World :=
  mkWorld (repo w) (ctxs w) (contexts w) n (threads w) (now w) (issued w).
Definition set_threads (t : list Thread) (w : World) : World :=
  mkWorld (repo w) (ctxs w) (contexts w) (wg w) t (now w) (issued w).
Definition set_now (t : Z) (w : World) : World :=
  mkWorld (repo w) (ctxs w) (contexts w) (wg w) (threads w) t (issued w).
Definition set_issued (i : gset UUID) (w : World) : World :=
  mkWorld (repo w) (ctxs w) (contexts w) (wg w) (threads w) (now w) i.

Definition heap (w : World) : list Task := taskrepository.heap (repo w).
Definition store (w : World) : gmap UUID loc := taskrepository.store (repo w).

(** [*l = t] on a task cell, and on a context cell. *)
Definition write_task (l : loc) (t : Task) (w : World) : World :=
  set_repo (taskrepository.write l t (repo w)) w.
Definition write_ctx (c : loc) (tc : TaskContext) (w : World) : World :=
  set_ctxs (<[c := tc]> (ctxs w)) w.

Definition loadTaskContext (taskID : UUID) (w : World) : option loc :=
  contexts w !! taskID.

Definition updateTaskProcessingTime (task : loc) (w : World) : World :=
  let t := heap w !!! task in
  if negb (IsProcessing t) then w
  else
    match loadTaskContext (taskmodel.ID t) w with
    | Some c =>
        let taskContext := ctxs w !!! c in
        if negb (IsFinished taskContext) then
          write_task task
            (set_ProcessingTime (time.Since (now w) (Started taskContext)) t) w
        else w
    | None => w
    end.

Definition GetTask (taskID : UUID) (w : World) : World * (ptr * option error) :=
  match taskrepository.GetByID taskID (repo w) with
  | (r, (_, Some err)) => (set_repo r w, (None, Some (ErrWrap "task not found" err)))
  | (r, (Some task, None)) =>
      (updateTaskProcessingTime task (set_repo r w), (Some task, None))
  | (r, (None, None)) => (set_repo r w, (None, None)) (* [GetByID] never does *)
  end.

Definition ListTasks (w : World) : World * (list loc * option error) :=
  match taskrepository.GetAll (repo w) with
  | (r, (_, Some err)) =>
      (set_repo r w, ([], Some (ErrWrap "failed to get tasks" err)))
  | (r, (tasks, None)) =>
      (foldl (λ w task, updateTaskProcessingTime task w) (set_repo r w) tasks,
       (tasks, None))
  end.

Definition GetTaskStatus (taskID : UUID) (w : World) : TaskStatus * bool :=
  match loadTaskContext taskID w with
  | Some c => (Status (ctxs w !!! c), true)
  | None => ("", false)
  end.

(** The two assignments of [finalizeTask], lines 335-336. *)
Definition finalizeTask_assign (task : loc) (status : TaskStatus)
    (processingTime : Z) (w : World) : World :=
  let w1 := write_task task (taskmodel.set_Status status (heap w !!! task)) w in
  write_task task (set_ProcessingTime processingTime (heap w1 !!! task)) w1.

Definition finalizeTask (task : loc) (status : TaskStatus)
    (processingTime : Z) (w : World) : World :=
  let w2 := finalizeTask_assign task status processingTime w in
  (* the error of [Update] is logged and dropped *)
  set_repo (taskrepository.Update (Some task) (repo w2)).1 w2.

(** [CreateTask], with [id] the identifier [uuid.New()] returns inside
    [NewTask].  It is given in two parts: lines 201-207, up to and
    including [s.repo.Create], and lines 208-222, which register the
    context and start the goroutine; the goroutine is added to [threads],
    its [task] parameter is a copy of [*task] made at the [go] statement.
    [CreateTask] is the two parts run one after the other. *)
Definition CreateTask_create (id : UUID) (name : string) (w : World)
  : World * (ptr * option error) :=
  let '(h, task) := NewTask id [WithName name] (heap w) in
  let w := set_repo (taskrepository.mkState h (store w)) w in
  let w := write_task task (taskmodel.set_Status StatusProcessing (heap w !!! task)) w in
  let w := write_task task (set_CreatedAt (now w) (heap w !!! task)) w in
  match taskrepository.Create (now w) (Some task) (repo w) with
  | (r, Some err) =>
      (set_repo r w, (None, Some (ErrWrap "failed to create task" err)))
  | (r, None) => (set_repo r w, (Some task, None))
  end.

Definition CreateTask_start (task : loc) (w : World) : World :=
  let taskContext := length (ctxs w) in
  let w := set_ctxs (ctxs w ++ [mkTaskContext
             (taskmodel.ID (heap w !!! task)) (now w) false StatusProcessing
             (now w + defaultTimeToProcessTask) false]) w in
  let w := set_contexts (<[taskmodel.ID (heap w !!! task) := taskContext]>
                           (contexts w)) w in
  let w := set_wg (wg w + 1) w in
  let '(r, arg) := taskrepository.alloc (heap w !!! task) (repo w) in
  let w := set_repo r w in
  set_threads (threads w ++ [TExec (mkExec arg taskContext PStart 0 0 0)]) w.

Definition CreateTask (id : UUID) (name : string) (w : World)
  : World * (ptr * option error) :=
  match CreateTask_create id name w with
  | (w, (Some task, None)) => (CreateTask_start task w, (Some task, None))
  | (w, res) => (w, res)
  end.

(** *** [executeTask], one atomic step at a time

    A step runs the goroutine up to and including its next operation
    on a shared object: an operation of the repository's [sync.Map], a
    method of [TaskContext] (they hold its lock), an operation of the
    registry, the wait group.  What the goroutine cannot decide itself
    is given as an event: the number [rand.Intn(3)] returns, and which
    ready case of the [select] is taken. *)

Inductive exec_event : Type :=
  | EvRand (r : Z)   (* the result of [rand.Intn(3)] *)
  | EvCtxDone        (* [case <-ctx.Done()] *)
  | EvTick           (* [case <-ticker.C] *)
  | EvRun.           (* straight-line code *)

(** The period of [time.NewTicker(1 * time.Second)]. *)
Definition tickerPeriod : Z := 1 * time.Second.

(** [time.Duration(3+rand.Intn(3)) * time.Minute], [r] being the number
    drawn. *)
Definition workDuration (r : Z) : Z := (3 + r) * time.Minute.


Definition set_pc (pc : exec_pc) (e : Exec) : Exec :=
  mkExec (e_task e) (e_tc e) pc (e_work e) (e_start e) (e_tick e).

(** Lines 295-303: draw the duration, start the ticker, read the clock. *)
Definition exec_start (r : Z) (e : Exec) (w : World) : World * Thread :=
  (w, TExec (mkExec (e_task e) (e_tc e) PLoop (workDuration r) (now w)
                    (now w + tickerPeriod))).

(** [finalizeTask] up to the [Load] of its [Update]: the assignments, then
    where the [Load] sends the goroutine (to the [Store], or past the
    logged error to [markFinished]). *)
Definition exec_finalize (status : TaskStatus) (processingTime : Z) (e : Exec)
    (w : World) : World * Thread :=
  let w2 := finalizeTask_assign (e_task e) status processingTime w in
  (w2, TExec (set_pc (match taskrepository.Update_Load (e_task e) (repo w2) with
                      | None => PFinalizing status
                      | Some _ => PMark status
                      end) e)).

(** The [Store] of the [Update] in [finalizeTask]. *)
Definition exec_finalizing (status : TaskStatus) (e : Exec) (w : World)
  : World * Thread :=
  (set_repo (taskrepository.Update_Store (e_task e) (repo w)) w,
   TExec (set_pc (PMark status) e)).

(** Lines 307-309. *)
Definition exec_cancelled (e : Exec) (w : World) : World * Thread :=
  exec_finalize StatusFailed (time.Since (now w) (e_start e)) e w.

(** Lines 313-324, up to the [Load] of the first repository call. *)
Definition exec_tick (e : Exec) (w : World) : World * Thread :=
  let e := mkExec (e_task e) (e_tc e) (e_pc e) (e_work e) (e_start e)
                  (e_tick e + tickerPeriod) in
  let elapsed := time.Since (now w) (e_start e) in
  let w := write_task (e_task e)
             (set_ProcessingTime elapsed (heap w !!! e_task e)) w in
  if bool_decide (e_work e ≤ elapsed)%Z then
    exec_finalize StatusDone elapsed e w
  else
    (w, TExec (set_pc (match taskrepository.Update_Load (e_task e) (repo w) with
                       | None => PUpdating
                       | Some _ => PUpdateFailed elapsed
                       end) e)).

(** The [Store] of the [Update] of line 324; back to the [select]. *)
Definition exec_updating (e : Exec) (w : World) : World * Thread :=
  (set_repo (taskrepository.Update_Store (e_task e) (repo w)) w,
   TExec (set_pc PLoop e)).

(** Line 326. *)
Definition exec_update_failed (elapsed : Z) (e : Exec) (w : World)
  : World * Thread :=
  exec_finalize StatusFailed elapsed e w.

(** Lines 310, 320, 327: [taskContext.markFinished(status); return]. *)
Definition exec_mark (status : TaskStatus) (e : Exec) (w : World)
  : World * Thread :=
  (write_ctx (e_tc e) (markFinished status (ctxs w !!! e_tc e)) w,
   TExec (set_pc PDeferWg e)).

(** The deferred function, lines 287-291. *)
Definition exec_defer_wg (e : Exec) (w : World) : World * Thread :=
  (set_wg (wg w - 1) w, TExec (set_pc PDeferMark e)).

Definition exec_defer_mark (e : Exec) (w : World) : World * Thread :=
  let taskContext := ctxs w !!! e_tc e in
  (if negb (IsFinished taskContext)
   then write_ctx (e_tc e) (markFinished StatusFailed taskContext) w
   else w,
   TExec (set_pc PDeferDelete e)).

Definition exec_defer_delete (e : Exec) (w : World) : World * Thread :=
  (set_contexts (delete (taskmodel.ID (heap w !!! e_task e)) (contexts w)) w,
   TExited).

Definition executeTask_step (ev : exec_event) (e : Exec) (w : World)
  : option (World * Thread) :=
  match e_pc e, ev with
  | PStart, EvRand r =>
      if bool_decide (0 ≤ r < 3)%Z then Some (exec_start r e w) else None
  | PLoop, EvCtxDone =>
      if ctx_done (now w) (ctxs w !!! e_tc e)
      then Some (exec_cancelled e w) else None
  | PLoop, EvTick =>
      if bool_decide (e_tick e ≤ now w)%Z then Some (exec_tick e w) else None
  | PUpdating, EvRun => Some (exec_updating e w)
  | PUpdateFailed elapsed, EvRun => Some (exec_update_failed elapsed e w)
  | PFinalizing status, EvRun => Some (exec_finalizing status e w)
  | PMark status, EvRun => Some (exec_mark status e w)
  | PDeferWg, EvRun => Some (exec_defer_wg e w)
  | PDeferMark, EvRun => Some (exec_defer_mark e w)
  | PDeferDelete, EvRun => Some (exec_defer_delete e w)
  | _, _ => None
  end.

(** *** [DeleteTask], in its repository and registry operations *)

Definition DeleteTask_check (taskID : UUID) (w : World) : World * option error :=
  match taskrepository.GetByID taskID (repo w) with
  | (r, (_, Some err)) => (set_repo r w, Some (ErrWrap "task not found" err))
  | (r, (_, None)) => (set_repo r w, None)
  end.

Definition DeleteTask_cancel (taskID : UUID) (w : World) : World :=
  match loadTaskContext taskID w with
  | Some c =>
      let w := write_ctx c (Cancel (ctxs w !!! c)) w in
      set_contexts (delete taskID (contexts w)) w
  | None => w
  end.

Definition DeleteTask_delete (taskID : UUID) (w : World) : World * option error :=
  match taskrepository.Delete taskID (repo w) with
  | (r, Some err) => (set_repo r w, Some (ErrWrap "failed to delete task" err))
  | (r, None) => (set_repo r w, None)
  end.

(** [DeleteTask] run without any other goroutine in between. *)
Definition DeleteTask (taskID : UUID) (w : World) : World * option error :=
  match DeleteTask_check taskID w with
  | (w1, Some err) => (w1, Some err)
  | (w1, None) => DeleteTask_delete taskID (DeleteTask_cancel taskID w1)
  end.

Definition DeleteTask_step (taskID : UUID) (pc : delete_pc) (w : World)
  : option (World * Thread) :=
  match pc with
  | DCheck =>
      match DeleteTask_check taskID w with
      | (w1, Some err) => Some (w1, TDelete taskID (DReturned (Some err)))
      | (w1, None) => Some (w1, TDelete taskID DCancel)
      end
  | DCancel => Some (DeleteTask_cancel taskID w, TDelete taskID DDelete)
  | DDelete =>
      match taskrepository.Delete_Load taskID (repo w) with
      | Some err =>
          Some (w, TDelete taskID
                     (DReturned (Some (ErrWrap "failed to delete task" err))))
      | None => Some (w, TDelete taskID DDeleting)
      end
  | DDeleting =>
      Some (set_repo (taskrepository.Delete_Delete taskID (repo w)) w,
            TDelete taskID (DReturned None))
  | DReturned _ => None
  end.

Definition thread_step (ev : exec_event) (th : Thread) (w : World)
  : option (World * Thread) :=
  match th with
  | TExec e => executeTask_step ev e w
  | TCreate task => Some (CreateTask_start task w, TExited)
  | TDelete taskID pc => DeleteTask_step taskID pc w
  | TExited => None
  end.

(** *** [Shutdown] *)

(** The [Range] over [s.contexts]: every registered context that is not
    finished is cancelled. *)
Definition cancel_unfinished (w : World) (kv : UUID * loc) : World :=
  let taskContext := ctxs w !!! kv.2 in
  if negb (IsFinished taskContext)
  then write_ctx kv.2 (Cancel taskContext) w else w.

Definition Shutdown_cancel (w : World) : World :=
  foldl cancel_unfinished w (map_to_list (contexts w)).

Definition shutdownTimeout : Z := 30 * time.Second.

(** The time at which [context.WithTimeout(ctx, shutdownTimeout)],
    derived at [t0], is done: when the parent [ctx] is (at [parentDone],
    if ever) or when the timeout expires, whichever comes first. *)
Definition shutdownCtx_done (t0 : Z) (parentDone : option Z) : Z :=
  match parentDone with
  | Some t => Z.min t (t0 + shutdownTimeout)
  | None => (t0 + shutdownTimeout)%Z
  end.

(** [s.wg.Wait()] in the state [w]: it returns when the counter of the
    wait group is zero, and blocks otherwise. *)
Definition wg_Wait (w : World) : bool := bool_decide (wg w = 0)%Z.

(** The final [select] of [Shutdown] along a run of the process.
    [shutdownCtx] is the time at which [shutdownCtx.Done()] becomes
    ready; [run] lists the states the process goes through from the [go]
    statement of line 354 on, the first being the state at that
    statement.  The goroutine started there leaves [s.wg.Wait()] and
    closes [done] in the first state in which the counter is zero, and
    the [select] takes a case in the first state in which one is ready;
    when both are ready in the same state the runtime picks one, which
    [pick] stands for.  The result is [None] when no case has become
    ready by the end of [run]: the call is still blocked. *)
Fixpoint Shutdown_select (shutdownCtx : Z) (pick : bool) (run : list World)
  : option (option error) :=
  match run with
  | [] => None
  | w :: rest =>
      match bool_decide (shutdownCtx ≤ now w)%Z, wg_Wait w with
      | true, true => Some (if pick then Some ErrShutdownTimeout else None)
      | true, false => Some (Some ErrShutdownTimeout)
      | false, true => Some None
      | false, false => Shutdown_select shutdownCtx pick rest
      end
  end.

(** [Shutdown] called in the state [w], the process going through the
    states [later] after the [Range]; [parentDone] is the time at which
    the context of the caller is done, if ever. *)
Definition Shutdown (parentDone : option Z) (pick : bool) (later : list World)
    (w : World) : option (option error) :=
  let w' := Shutdown_cancel w in
  Shutdown_select (shutdownCtx_done (now w') parentDone) pick (w' :: later).

(** *** The process as a transition system *)

(** A [CreateTask] request runs up to and including [s.repo.Create], with
    [id] the identifier [uuid.New] returns, one it has not returned
    before; when [s.repo.Create] succeeds the call goes on as a goroutine
    that holds [task]. *)
Definition CreateTask_call (id : UUID) (name : string) (w : World) : World :=
  match CreateTask_create id name (set_issued ({[id]} ∪ issued w) w) with
  | (w1, (Some task, None)) => set_threads (threads w1 ++ [TCreate task]) w1
  | (w1, _) => w1
  end.

(** One step is one of the following.
    - The clock advances.
    - A [CreateTask] request runs up to and including [s.repo.Create]
      (the identifier is new, so no other goroutine works on its record
      between the [Load] and the [Store] of [Create]).
    - A [CreateTask] call past [s.repo.Create] registers the context,
      adds to the wait group and starts the goroutine (which has done
      nothing yet when the step ends).
    - A [GetTask] or [ListTasks] request is served (they write to the
      copies they return only).
    - The callback of the [Range] of [Shutdown] runs on one entry of the
      registry.
    - A [DeleteTask] call starts.
    - A goroutine of [executeTask], or a [DeleteTask] call, takes its
      next step: it runs up to and including its next operation on the
      repository's [sync.Map] (for [DeleteTask], its one visit to the
      registry is a step as well). *)
Inductive step (w : World) : World → Prop :=
  | step_clock t :
      (now w ≤ t)%Z → step w (set_now t w)
  | step_CreateTask id name :
      id ∉ issued w → step w (CreateTask_call id name w)
  | step_GetTask taskID :
      step w (GetTask taskID w).1
  | step_ListTasks :
      step w (ListTasks w).1
  | step_Shutdown_visit id c :
      contexts w !! id = Some c → step w (cancel_unfinished w (id, c))
  | step_DeleteTask_call taskID :
      step w (set_threads (threads w ++ [TDelete taskID DCheck]) w)
  | step_thread i th ev w' th' :
      threads w !! i = Some th →
      thread_step ev th w = Some (w', th') →
      step w (set_threads (<[i := th']> (threads w')) w').

(** The states the process can be in. *)
Inductive reachable : World → Prop :=
  | reachable_init : reachable NewService
  | reachable_step w w' : reachable w → step w w' → reachable w'.

(** Zero or more steps. *)
Inductive steps (w : World) : World → Prop :=
  | steps_refl : steps w w
  | steps_step w1 w2 : steps w w1 → step w1 w2 → steps w w2.

(** The states of a run that starts in [w], in order: each is one step
    after the one before. *)
Fixpoint path (w : World) (run : list World) : Prop :=
  match run with
  | [] => True
  | w' :: rest => step w w' ∧ path w' rest
  end.

(** What the three read operations report for a task. *)
Definition GetTask_status (taskID : UUID) (w : World) : option TaskStatus :=
  match GetTask taskID w with
  | (w', (Some task, None)) => Some (taskmodel.Status (heap w' !!! task))
  | _ => None
  end.

Definition ListTasks_statuses (taskID : UUID) (w : World) : list TaskStatus :=
  let '(w', (tasks, _)) := ListTasks w in
  taskmodel.Status <$>
    filter (λ t, taskmodel.ID t = taskID) ((λ l, heap w' !!! l) <$> tasks).

Definition GetTaskStatus_status (taskID : UUID) (w : World)
  : option TaskStatus :=
  match GetTaskStatus taskID w with
  | (status, true) => Some status
  | (_, false) => None
  end.

(** *** [WaitForTask] *)

(** The errors of [WaitForTask]. *)
Inductive wait_error : Type :=
  | ErrNotFoundOrFinished (taskID : UUID)
                        (* "task %s not found or already finished" *)
  | ErrCtx.             (* [ctx.Err()] *)

(** The [select] of [WaitForTask], on the context the call has loaded,
    in the state [w].  [ctxDone] says whether the context of the caller
    is done, [pick] stands for the choice of the runtime when both cases
    are ready; the result is [None] when no case is ready: the call stays
    blocked. *)
Definition WaitForTask_select (ctxDone pick : bool) (taskContext : loc)
    (w : World) : option (option wait_error) :=
  match ctxDone, Done (ctxs w !!! taskContext) with
  | true, true => if pick then Some (Some ErrCtx) else Some None
  | true, false => Some (Some ErrCtx)
  | false, true => Some None
  | false, false => None
  end.

(** [WaitForTask] when no other goroutine runs between its
    [loadTaskContext] and its [select]. *)
Definition WaitForTask (ctxDone pick : bool) (taskID : UUID) (w : World)
  : option (option wait_error) :=
  match loadTaskContext taskID w with
  | None => Some (Some (ErrNotFoundOrFinished taskID))
  | Some taskContext => WaitForTask_select ctxDone pick taskContext w
  end.

End taskservice.

(** ** Package [taskcontroller] *)
Module http.

Definition StatusOK : nat := 200.
Definition StatusAccepted : nat := 202.
Definition StatusNoContent : nat := 204.
Definition StatusBadRequest : nat := 400.
Definition StatusNotFound : nat := 404.
Definition StatusInternalServerError : nat := 500.

End http.

Module taskcontroller.
Import taskmodel.

Record TaskResponse : Type := mkTaskResponse {
  r_ID : UUID;
  r_Name : string;
  r_Status : TaskStatus;
  r_CreatedAt : Z;
  r_ProcessingTime : Z
}.

Record ErrorResponse : Type := mkErrorResponse {
  Error : string;
  Message : string
}.

(** What a handler writes to its [gin.Context]: the status code, the
    headers it sets and the JSON body ([TaskListResponse] is the list of
    its [Tasks]). *)
Inductive Body : Type :=
  | NoBody
  | ErrorBody (e : ErrorResponse)
  | TaskBody (t : TaskResponse)
  | TaskListBody (tasks : list TaskResponse).

Record Response : Type := mkResponse {
  code : nat;
  headers : list (string * string);
  body : Body
}.

(** [ctx.JSON(code, obj)] on a context with no header set. *)
Definition JSON (code : nat) (obj : Body) : Response := mkResponse code [] obj.

Definition mapTaskToResponse (task : Task) : TaskResponse :=
  mkTaskResponse (ID task) (Name task) (Status task) (CreatedAt task)
                 (ProcessingTime task).

Section Handlers.

(** [uuid.Parse] and [UUID.String] of the package [github.com/google/uuid]. *)
Variable Parse : string → option UUID.
Variable String : UUID → string.

(** The handlers run the service calls with no other goroutine in
    between.  A [nil] task returned with a [nil] error would make a
    handler panic, which the recovery middleware of [gin.Default] turns
    into a 500 with no body; the service never returns that. *)
Definition recovered : Response :=
  mkResponse http.StatusInternalServerError [] NoBody.

(** [bound] is what [ctx.ShouldBindJSON(&req)] gives: the message of its
    error, or the [Name] of the request; [id] is the identifier
    [uuid.New] returns to the service. *)
Definition CreateTask (id : UUID) (bound : string + string)
    (w : taskservice.World) : taskservice.World * Response :=
  match bound with
  | inl err =>
      (w, JSON http.StatusBadRequest
               (ErrorBody (mkErrorResponse "validation_error" err)))
  | inr name =>
      match taskservice.CreateTask id name w with
      | (w', (_, Some _)) =>
          (w', JSON http.StatusInternalServerError
                    (ErrorBody (mkErrorResponse "internal_error"
                                                "Failed to create task")))
      | (w', (Some task, None)) =>
          let t := taskservice.heap w' !!! task in
          (w', mkResponse http.StatusAccepted
                 [("Location", "/api/v1/task/" +:+ String (ID t))]
                 (TaskBody (mapTaskToResponse t)))
      | (w', (None, None)) => (w', recovered)
      end
  end.

(** [taskIDStr] is [ctx.Param("id")]. *)
Definition GetTask (taskIDStr : string) (w : taskservice.World)
  : taskservice.World * Response :=
  if bool_decide (taskIDStr = EmptyString) then
    (w, JSON http.StatusBadRequest
             (ErrorBody (mkErrorResponse "validation_error" "Missing task id")))
  else
    match Parse taskIDStr with
    | None =>
        (w, JSON http.StatusBadRequest
                 (ErrorBody (mkErrorResponse "invalid_id"
                                             "Invalid task ID format")))
    | Some taskID =>
        match taskservice.GetTask taskID w with
        | (w', (_, Some _)) =>
            (w', JSON http.StatusNotFound
                      (ErrorBody (mkErrorResponse "task_not_found"
                                                  "Task not found")))
        | (w', (Some task, None)) =>
            (w', JSON http.StatusOK
                      (TaskBody (mapTaskToResponse (taskservice.heap w' !!! task))))
        | (w', (None, None)) => (w', recovered)
        end
    end.

Definition DeleteTask (taskIDStr : string) (w : taskservice.World)
  : taskservice.World * Response :=
  match Parse taskIDStr with
  | None =>
      (w, JSON http.StatusBadRequest
               (ErrorBody (mkErrorResponse "invalid_id"
                                           "Invalid task ID format")))
  | Some taskID =>
      match taskservice.DeleteTask taskID w with
      | (w', Some _) =>
          (w', JSON http.StatusNotFound
                    (ErrorBody (mkErrorResponse "task_not_found"
                                                "Task not found")))
      | (w', None) => (w', mkResponse http.StatusNoContent [] NoBody)
      end
  end.

Definition ListTasks (w : taskservice.World) : taskservice.World * Response :=
  match taskservice.ListTasks w with
  | (w', (_, Some _)) =>
      (w', JSON http.StatusInternalServerError
                (ErrorBody (mkErrorResponse "internal_error"
                                            "Failed to retrieve tasks")))
  | (w', (tasks, None)) =>
      (w', JSON http.StatusOK
                (TaskListBody
                   ((λ task, mapTaskToResponse (taskservice.heap w' !!! task))
                      <$> tasks)))
  end.

End Handlers.

End taskcontroller.

(** ** Package [app]: the container of components *)
Module app.

(** The fields of [DIContainer]: pointers to the components, [nil] until
    the component is asked for. *)
Record DIContainer : Type := mkDIContainer {
  taskController : ptr;
  taskService : ptr;
  taskRepository : ptr;
  server : ptr;
  ginEngine : ptr
}.

(** The components made so far, each kind in a heap of its own: a
    repository is made from nothing ([repositories] counts them), a
    service from a repository ([NewService(repo)]), a controller from a
    service ([NewController(service)]), an engine registers the routes of
    a controller, a server has an engine as its [Handler]; the heaps hold
    that argument. *)
Record Components : Type := mkComponents {
  repositories : nat;
  services : list loc;
  controllers : list loc;
  engines : list loc;
  servers : list loc
}.

Definition State : Type := DIContainer * Components.

Definition NewDIContainer : State :=
  (mkDIContainer None None None None None, mkComponents 0 [] [] [] []).

Definition TaskRepository (s : State) : State * loc :=
  let '(c, o) := s in
  match taskRepository c with
  | Some r => (s, r)
  | None =>
      let repository := repositories o in
      ((mkDIContainer (taskController c) (taskService c) (Some repository)
                      (server c) (ginEngine c),
        mkComponents (S (repositories o)) (services o) (controllers o)
                     (engines o) (servers o)),
       repository)
  end.

Definition TaskService (s : State) : State * loc :=
  match taskService s.1 with
  | Some sv => (s, sv)
  | None =>
      let '((c, o), repository) := TaskRepository s in
      let service := length (services o) in
      ((mkDIContainer (taskController c) (Some service) (taskRepository c)
                      (server c) (ginEngine c),
        mkComponents (repositories o) (services o ++ [repository])
                     (controllers o) (engines o) (servers o)),
       service)
  end.

Definition TaskController (s : State) : State * loc :=
  match taskController s.1 with
  | Some ct => (s, ct)
  | None =>
      let '((c, o), service) := TaskService s in
      let controller := length (controllers o) in
      ((mkDIContainer (Some controller) (taskService c) (taskRepository c)
                      (server c) (ginEngine c),
        mkComponents (repositories o) (services o)
                     (controllers o ++ [service]) (engines o) (servers o)),
       controller)
  end.

(** [GinEngine] makes the engine and registers on it the routes of
    [c.TaskController(ctx)] (and the health and documentation routes,
    which use no component). *)
Definition GinEngine (s : State) : State * loc :=
  match ginEngine s.1 with
  | Some en => (s, en)
  | None =>
      let '((c, o), controller) := TaskController s in
      let engine := length (engines o) in
      ((mkDIContainer (taskController c) (taskService c) (taskRepository c)
                      (server c) (Some engine),
        mkComponents (repositories o) (services o) (controllers o)
                     (engines o ++ [controller]) (servers o)),
       engine)
  end.

Definition Server (s : State) : State * loc :=
  match server s.1 with
  | Some sr => (s, sr)
  | None =>
      let '((c, o), engine) := GinEngine s in
      let srv := length (servers o) in
      ((mkDIContainer (taskController c) (taskService c) (taskRepository c)
                      (Some srv) (ginEngine c),
        mkComponents (repositories o) (services o) (controllers o)
                     (engines o) (servers o ++ [engine])),
       srv)
  end.

(** The methods of the container, and a sequence of calls to them. *)
Inductive method : Type :=
  | MTaskController | MTaskService | MTaskRepository | MServer | MGinEngine.

Definition call (m : method) (s : State) : State * loc :=
  match m with
  | MTaskController => TaskController s
  | MTaskService => TaskService s
  | MTaskRepository => TaskRepository s
  | MServer => Server s
  | MGinEngine => GinEngine s
  end.

Definition calls (ms : list method) (s : State) : State :=
  foldl (λ s m, (call m s).1) s ms.

(** The field of the container a method returns. *)
Definition field (m : method) (c : DIContainer) : ptr :=
  match m with
  | MTaskController => taskController c
  | MTaskService => taskService c
  | MTaskRepository => taskRepository c
  | MServer => server c
  | MGinEngine => ginEngine c
  end.

End app.

(** * Auxiliary definitions for the statements *)
Section AuxiliaryRepository.
Import taskmodel taskrepository.

(** The pointers the caller holds and the pointers in the store are
    allocated, and no pointer is both held and stored. *)
Definition caller_inv (c : Caller) : Prop :=
  store_valid (mem c) ∧
  (∀ l, l ∈ known c → l < length (heap (mem c))) ∧
  (∀ id l, store (mem c) !! id = Some l → l ∉ known c).

End AuxiliaryRepository.

Section AuxiliaryService.
Import taskmodel taskservice.

(** The task [CreateTask] builds before it calls the repository. *)
Definition new_task (id : UUID) (name : string) (now : Z) : Task :=
  mkTask id name StatusProcessing now 0.

(** The record [GetTask] hands out for the stored record [t]: the elapsed
    time is recomputed when [t] is PROCESSING and the registry has an
    unfinished context under [t]'s identifier. *)
Definition overlay (w : World) (t : Task) : Task :=
  if IsProcessing t then
    match contexts w !! taskmodel.ID t with
    | Some c =>
        if IsFinished (ctxs w !!! c) then t
        else set_ProcessingTime (now w - Started (ctxs w !!! c)) t
    | None => t
    end
  else t.

(** *** The invariant of the process *)

(** The record the repository holds for [id]. *)
Definition rec (w : World) (id : UUID) : option Task :=
  taskrepository.stored (repo w) id.

(** The identifier of the task an [executeTask] goroutine works on. *)
Definition exec_id (w : World) (e : Exec) : UUID :=
  taskmodel.ID (heap w !!! e_task e).

(** The goroutine has passed the last [Store] it performs. *)
Definition stored_last (pc : exec_pc) : Prop :=
  match pc with
  | PMark _ | PDeferWg | PDeferMark | PDeferDelete => True
  | _ => False
  end.

(** The goroutine is inside an [Update]: past its [Load], before its
    [Store]. *)
Definition in_Update (pc : exec_pc) : Prop :=
  pc = PUpdating ∨ ∃ st, pc = PFinalizing st.

(** What holds at each point of [executeTask], of the status of the
    goroutine's task, of its context being finished, and of the stored
    record [r] of its task (if any): until the assignments of
    [finalizeTask] the task and the record are PROCESSING and the context
    is open; between the assignments and the [Store] the task has its
    terminal status, the record is still PROCESSING; between the [Store]
    (or the failed [Load]) and [markFinished] the record is terminal and
    the context still open; afterwards the context is finished. *)
Definition exec_phase (pc : exec_pc) (status : TaskStatus) (finished : bool)
    (r : option Task) : Prop :=
  match pc with
  | PStart | PLoop | PUpdating | PUpdateFailed _ =>
      status = StatusProcessing ∧ finished = false ∧
      (∀ t, r = Some t → taskmodel.Status t = StatusProcessing)
  | PFinalizing st =>
      terminal st ∧ status = st ∧ finished = false ∧
      (∀ t, r = Some t → taskmodel.Status t = StatusProcessing)
  | PMark st =>
      terminal st ∧ finished = false ∧
      (∀ t, r = Some t → terminal (taskmodel.Status t))
  | PDeferWg | PDeferMark | PDeferDelete => finished = true
  end.

(** What holds of a goroutine of [executeTask]: its cells are allocated,
    its task cell is not one of the store's, its context carries the
    task's identifier, and it is in the phase of its position. *)
Definition exec_inv (w : World) (e : Exec) : Prop :=
  e_task e < length (heap w) ∧
  e_tc e < length (ctxs w) ∧
  ID (ctxs w !!! e_tc e) = exec_id w e ∧
  (∀ id l, store w !! id = Some l → l ≠ e_task e) ∧
  exec_phase (e_pc e) (taskmodel.Status (heap w !!! e_task e))
             (Done (ctxs w !!! e_tc e)) (rec w (exec_id w e)).

(** What holds of a context cell: its identifier was issued; while open
    its status is PROCESSING; once finished its status is terminal and so
    is the stored record of its task, if there is one. *)
Definition ctx_inv (w : World) (tc : TaskContext) : Prop :=
  ID tc ∈ issued w ∧
  (Done tc = false → Status tc = StatusProcessing) ∧
  (Done tc = true →
     terminal (Status tc) ∧
     ∀ t, rec w (ID tc) = Some t → terminal (taskmodel.Status t)).

(** What holds of a [DeleteTask] call past its existence check: the
    identifier it was given has been issued. *)
Definition delete_inv (w : World) (taskID : UUID) (pc : delete_pc) : Prop :=
  match pc with
  | DCheck | DReturned _ => True
  | DCancel | DDelete | DDeleting => taskID ∈ issued w
  end.

(** What holds of a [CreateTask] call past [s.repo.Create]: its task is
    allocated, carries an issued identifier and is PROCESSING; no context
    has been made for the identifier; the stored record of the task, if
    it is still there, is PROCESSING. *)
Definition create_inv (w : World) (task : loc) : Prop :=
  task < length (heap w) ∧
  taskmodel.ID (heap w !!! task) ∈ issued w ∧
  taskmodel.Status (heap w !!! task) = StatusProcessing ∧
  (∀ c, c < length (ctxs w) →
        ID (ctxs w !!! c) ≠ taskmodel.ID (heap w !!! task)) ∧
  (∀ t, rec w (taskmodel.ID (heap w !!! task)) = Some t →
        taskmodel.Status t = StatusProcessing).

(** Where the [Load] of [Update] sends the goroutine in [finalizeTask],
    and at line 324. *)
Definition after_finalize_Load (w : World) (id : UUID) (st : TaskStatus)
  : exec_pc :=
  match store w !! id with Some _ => PFinalizing st | None => PMark st end.

Definition after_update_Load (w : World) (id : UUID) (elapsed : Z) : exec_pc :=
  match store w !! id with Some _ => PUpdating | None => PUpdateFailed elapsed end.

(** A goroutine may move from state [th] to state [th'] in [w]: an
    [executeTask] goroutine keeps its cells and satisfies the invariant of
    its new position, or exits; a [DeleteTask] call satisfies the
    invariant of its new position. *)
Definition thread_ok (w : World) (th th' : Thread) : Prop :=
  match th, th' with
  | TExec e, TExec e' =>
      e_task e' = e_task e ∧ e_tc e' = e_tc e ∧ exec_inv w e'
  | TExec _, TExited => True
  | TDelete _ _, TDelete taskID pc => delete_inv w taskID pc
  | _, _ => False
  end.

(** Two context cells that differ at most in the state of the derived
    context (a call of [Cancel]). *)
Definition same_signal (tc tc' : TaskContext) : Prop :=
  ID tc' = ID tc ∧ Done tc' = Done tc ∧ Status tc' = Status tc.

(** A step that leaves every cell, every stored record and every context
    as it was, up to new cells, removed entries and cancelled contexts. *)
Definition quiet (w w' : World) : Prop :=
  (∀ l, l < length (heap w) →
        l < length (heap w') ∧ heap w' !!! l = heap w !!! l) ∧
  (∀ id l, store w' !! id = Some l → store w !! id = Some l) ∧
  (∀ id c, contexts w' !! id = Some c → contexts w !! id = Some c) ∧
  issued w' = issued w ∧
  length (ctxs w') = length (ctxs w) ∧
  (∀ c, ctxs w' !!! c = ctxs w !!! c ∨ ctxs w' !!! c = Cancel (ctxs w !!! c)).

(** The kinds of steps, by what they do to the cells, the records and
    the contexts: nothing ([quiet]); a goroutine of [executeTask] assigns
    to its task; it stores a copy of its task; it marks its context
    finished; the record of a new task is created; the context of a new
    task is registered and its goroutine started. *)
Inductive step_kind (w w' : World) : Prop :=
  | kind_quiet :
      quiet w w' → step_kind w w'
  | kind_assign i e t' :
      threads w !! i = Some (TExec e) →
      taskmodel.ID t' = exec_id w e →
      repo w' = repo (write_task (e_task e) t' w) →
      ctxs w' = ctxs w → contexts w' = contexts w → issued w' = issued w →
      step_kind w w'
  | kind_store i e :
      threads w !! i = Some (TExec e) →
      in_Update (e_pc e) →
      repo w' = taskrepository.Update_Store (e_task e) (repo w) →
      ctxs w' = ctxs w → contexts w' = contexts w → issued w' = issued w →
      step_kind w w'
  | kind_mark i e st :
      threads w !! i = Some (TExec e) → e_pc e = PMark st →
      ctxs w' = <[e_tc e := markFinished st (ctxs w !!! e_tc e)]> (ctxs w) →
      repo w' = repo w → contexts w' = contexts w → issued w' = issued w →
      step_kind w w'
  | kind_create id name :
      id ∉ issued w → w' = CreateTask_call id name w → step_kind w w'
  | kind_start i task :
      threads w !! i = Some (TCreate task) →
      w' = set_threads (<[i := TExited]> (threads (CreateTask_start task w)))
                       (CreateTask_start task w) →
      step_kind w w'.

(** The invariant of the process: stored pointers, registered contexts
    and the cells of the goroutines are allocated and carry the
    identifiers they are filed under; there is one context and one
    goroutine of [executeTask] per task; every goroutine satisfies what
    holds at its position. *)
Record inv (w : World) : Prop := mkInv {
  inv_store : ∀ id l, store w !! id = Some l →
      l < length (heap w) ∧ id ∈ issued w ∧ taskmodel.ID (heap w !!! l) = id;
  inv_registry : ∀ id c, contexts w !! id = Some c →
      c < length (ctxs w) ∧ ID (ctxs w !!! c) = id;
  inv_ctx : ∀ c, c < length (ctxs w) → ctx_inv w (ctxs w !!! c);
  inv_ctx_unique : ∀ c c', c < length (ctxs w) → c' < length (ctxs w) →
      ID (ctxs w !!! c) = ID (ctxs w !!! c') → c = c';
  inv_exec : ∀ i e, threads w !! i = Some (TExec e) → exec_inv w e;
  inv_unique : ∀ i j e e',
      threads w !! i = Some (TExec e) → threads w !! j = Some (TExec e') →
      exec_id w e = exec_id w e' → i = j;
  inv_delete : ∀ i taskID pc,
      threads w !! i = Some (TDelete taskID pc) → delete_inv w taskID pc;
  inv_create : ∀ i task, threads w !! i = Some (TCreate task) → create_inv w task;
  inv_create_unique : ∀ i j task task',
      threads w !! i = Some (TCreate task) → threads w !! j = Some (TCreate task') →
      taskmodel.ID (heap w !!! task) = taskmodel.ID (heap w !!! task') → i = j
}.

(** The task [id] is settled: its stored record, if any, is DONE or
    FAILED, no goroutine of [executeTask] will store a record for it any
    more, and no [CreateTask] call is about to start one. *)
Definition settled (w : World) (id : UUID) : Prop :=
  id ∈ issued w ∧
  (∀ t, rec w id = Some t → terminal (taskmodel.Status t)) ∧
  (∀ i e, threads w !! i = Some (TExec e) → exec_id w e = id →
          stored_last (e_pc e)) ∧
  (∀ i task, threads w !! i = Some (TCreate task) →
             taskmodel.ID (heap w !!! task) ≠ id).

(** The task [id] is gone: it has no stored record, and no goroutine of
    [executeTask] for it is inside an [Update]. *)
Definition gone (w : World) (id : UUID) : Prop :=
  id ∈ issued w ∧ rec w id = None ∧
  (∀ i e, threads w !! i = Some (TExec e) → exec_id w e = id →
          ¬ in_Update (e_pc e)).

(** *** Some runs of the process *)

(** Goroutine [i] takes the step [ev] selects, if it can. *)
Definition run_thread (i : nat) (ev : exec_event) (w : World) : World :=
  match threads w !! i with
  | Some th =>
      match thread_step ev th w with
      | Some (w', th') => set_threads (<[i := th']> (threads w')) w'
      | None => w
      end
  | None => w
  end.

(** A task is created (goroutine 0 is the [CreateTask] call, goroutine 1
    runs [executeTask]) and draws a duration of 3 minutes. *)
Definition world_created : World :=
  run_thread 0 EvRun (CreateTask_call 5 "Beta" NewService).
Definition world_started : World := run_thread 1 (EvRand 0) world_created.

(** 3 minutes later the goroutine, on its tick, runs [finalizeTask] with
    DONE, up to and including the [Store]; [markFinished] has not run. *)
Definition world_three_minutes : World :=
  set_now (3 * time.Minute) world_started.
Definition world_finalized : World :=
  run_thread 1 EvRun (run_thread 1 EvTick world_three_minutes).

(** It then marks its context finished. *)
Definition world_marked : World := run_thread 1 EvRun world_finalized.

(** 1 second after the start the goroutine, on its tick, is in
    [repo.Update], between the [Load] and the [Store]. *)
Definition world_updating : World :=
  run_thread 1 EvTick (set_now (1 * time.Second) world_started).

(** A [DeleteTask] call for the task (goroutine 2) then runs from
    beginning to end and returns nil. *)
Definition world_deleted : World :=
  let w := set_threads (threads world_updating ++ [TDelete 5 DCheck])
                       world_updating in
  run_thread 2 EvRun (run_thread 2 EvRun (run_thread 2 EvRun
    (run_thread 2 EvRun w))).

(** The goroutine of [executeTask] then performs its [Store]. *)
Definition world_restored : World := run_thread 1 EvRun world_deleted.

(** It then observes the cancellation and finalizes the task as FAILED. *)
Definition world_restored_failed : World :=
  run_thread 1 EvRun (run_thread 1 EvRun (run_thread 1 EvCtxDone world_restored)).

(** Its deferred function runs and the goroutine exits. *)
Definition world_restored_exited : World :=
  run_thread 1 EvRun (run_thread 1 EvRun (run_thread 1 EvRun world_restored_failed)).

(** Two [DeleteTask] calls for the task of [world_created] (goroutines 2
    and 3) that have both passed the existence check. *)
Definition world_two_deletes : World :=
  let w := set_threads (threads world_created ++ [TDelete 5 DCheck]) world_created in
  let w := set_threads (threads w ++ [TDelete 5 DCheck]) w in
  run_thread 3 EvRun (run_thread 2 EvRun w).

(** The first call has cancelled and removed the context; the second call
    has then run to its end and deleted the record. *)
Definition world_first_cancelled : World := run_thread 2 EvRun world_two_deletes.
Definition world_second_deleted : World :=
  run_thread 3 EvRun (run_thread 3 EvRun (run_thread 3 EvRun world_first_cancelled)).

(** Both calls run the [Load] of [repo.Delete] while the record is
    there; then the second call deletes the record and returns, and then
    the first call does. *)
Definition world_both_loaded : World :=
  run_thread 3 EvRun (run_thread 2 EvRun (run_thread 3 EvRun world_first_cancelled)).
Definition world_one_returned : World := run_thread 3 EvRun world_both_loaded.
Definition world_both_returned : World := run_thread 2 EvRun world_one_returned.

(** *** Schedules *)

(** What happens next in a run: the clock advances to [t], goroutine [i]
    takes the step [ev] selects, or a [CreateTask] request arrives. *)
Inductive action : Type :=
  | AClock (t : Z)
  | ARun (i : nat) (ev : exec_event)
  | ACreate (id : UUID) (name : string).

Definition act (a : action) (w : World) : World :=
  match a with
  | AClock t => set_now t w
  | ARun i ev => run_thread i ev w
  | ACreate id name => CreateTask_call id name w
  end.

(** The action is a step of the process in [w]. *)
Definition enabled (a : action) (w : World) : bool :=
  match a with
  | AClock t => bool_decide (now w ≤ t)%Z
  | ARun i ev =>
      match threads w !! i with
      | Some th =>
          match thread_step ev th w with Some _ => true | None => false end
      | None => false
      end
  | ACreate id _ => bool_decide (id ∉ issued w)
  end.

(** The states a schedule leads through, and whether each of its
    actions is a step where it is taken. *)
Fixpoint run_schedule (schedule : list action) (w : World) : list World :=
  match schedule with
  | [] => []
  | a :: rest => act a w :: run_schedule rest (act a w)
  end.

Fixpoint all_enabled (schedule : list action) (w : World) : bool :=
  match schedule with
  | [] => true
  | a :: rest => enabled a w && all_enabled rest (act a w)
  end.

(** [Shutdown] is called while the goroutine of task 5 is blocked in
    its [select]; the goroutine then observes the cancellation, stores
    the task as FAILED, marks its context and runs [s.wg.Done()]. *)
Definition schedule_drain : list action :=
  [ARun 1 EvCtxDone; ARun 1 EvRun; ARun 1 EvRun; ARun 1 EvRun].

(** Goroutine [i] of [executeTask] ticks once a second, from second
    [from] on, [n] times, and stores its progress each time. *)
Definition schedule_ticks (i : nat) (from n : nat) : list action :=
  flat_map (λ k, [AClock (Z.of_nat k * time.Second); ARun i EvTick;
                  ARun i EvRun])
           (seq from n).

(** [Shutdown] is called in the same state; right after its [Range] a
    [CreateTask] request arrives (goroutine 2) and starts the goroutine
    of task 6 (goroutine 3), which no one cancels.  The goroutine of task
    5 observes the cancellation and runs to its end; the goroutine of
    task 6 draws a duration of 3 minutes and ticks once a second, until
    30 seconds have passed. *)
Definition schedule_busy : list action :=
  [ACreate 6 "Gamma"; ARun 2 EvRun;
   ARun 1 EvCtxDone; ARun 1 EvRun; ARun 1 EvRun; ARun 1 EvRun; ARun 1 EvRun;
   ARun 1 EvRun;
   ARun 3 (EvRand 0)] ++ schedule_ticks 3 1 29 ++ [AClock (30 * time.Second)].

(** A [DeleteTask] call that starts in [w] and takes its four steps
    with no other goroutine in between. *)
Definition DeleteTask_run (taskID : UUID) (w : World) : World :=
  let i := length (threads w) in
  run_thread i EvRun (run_thread i EvRun (run_thread i EvRun (run_thread i EvRun
    (set_threads (threads w ++ [TDelete taskID DCheck]) w)))).

(** *** The wait group *)

(** The goroutine runs [executeTask] and has not yet run [s.wg.Done()]. *)
Definition before_wg_Done (th : Thread) : bool :=
  match th with
  | TExec e =>
      match e_pc e with
      | PDeferMark | PDeferDelete => false
      | _ => true
      end
  | _ => false
  end.

(** The number of such goroutines. *)
Definition outstanding (w : World) : nat :=
  length (filter (λ th, before_wg_Done th = true) (threads w)).

(** *** Statuses and times *)

(** A task record as the program makes them: its status is one of the
    three constants, its processing time is not negative, and at least
    3 minutes once it is DONE. *)
Definition well_formed (t : Task) : Prop :=
  (taskmodel.Status t = StatusProcessing ∨ taskmodel.Status t = StatusDone ∨
   taskmodel.Status t = StatusFailed) ∧
  (0 ≤ ProcessingTime t)%Z ∧
  (taskmodel.Status t = StatusDone → (3 * time.Minute ≤ ProcessingTime t)%Z).

(** The locals [start] and [workDuration] of a goroutine of
    [executeTask], once assigned: it started in the past, to work for 3
    minutes at least; and the [elapsed] of line 314 is not negative. *)
Definition exec_clock (now : Z) (e : Exec) : Prop :=
  (e_pc e ≠ PStart → (e_start e ≤ now)%Z ∧ (3 * time.Minute ≤ e_work e)%Z) ∧
  (∀ elapsed, e_pc e = PUpdateFailed elapsed → (0 ≤ elapsed)%Z).

Definition timing_inv (w : World) : Prop :=
  Forall well_formed (heap w) ∧
  Forall (λ tc, (Started tc ≤ now w)%Z) (ctxs w) ∧
  ∀ i e, threads w !! i = Some (TExec e) → exec_clock (now w) e.

(** *** The identity of a task *)

(** The fields of a task that [CreateTask] sets and nothing assigns to
    afterwards. *)
Definition identity (t : Task) : UUID * string * Z :=
  (taskmodel.ID t, Name t, CreatedAt t).

(** Task objects with the same identifier have the same name and the
    same creation time, and the identifier of every task object was
    issued. *)
Definition identity_inv (w : World) : Prop :=
  (∀ x y, x ∈ identity <$> heap w → y ∈ identity <$> heap w →
          x.1.1 = y.1.1 → x = y) ∧
  (∀ x, x ∈ identity <$> heap w → x.1.1 ∈ issued w).

(** The task objects of [w'] are those of [w], with their identities,
    and new ones: copies of objects of [w], or copies of one task with an
    identifier issued since. *)
Definition heap_extends (w w' : World) : Prop :=
  ∃ new : list Task,
    identity <$> heap w' = (identity <$> heap w) ++ (identity <$> new) ∧
    ((∀ t, t ∈ new → identity t ∈ identity <$> heap w) ∨
     (∀ t, t ∈ new →
        taskmodel.ID t ∉ issued w ∧ taskmodel.ID t ∈ issued w' ∧
        ∀ t', t' ∈ new → identity t' = identity t)).

End AuxiliaryService.

Section AuxiliaryController.
Import taskcontroller.

(** The error responses of the handlers. *)
Definition missing_id : Response :=
  JSON http.StatusBadRequest
       (ErrorBody (mkErrorResponse "validation_error" "Missing task id")).
Definition invalid_id : Response :=
  JSON http.StatusBadRequest
       (ErrorBody (mkErrorResponse "invalid_id" "Invalid task ID format")).
Definition not_found : Response :=
  JSON http.StatusNotFound
       (ErrorBody (mkErrorResponse "task_not_found" "Task not found")).

End AuxiliaryController.

Section AuxiliaryApp.
Import app.

(** The container holds at most one component of each kind, the first
    one made, and each component it holds was made from the component
    the container holds: the service from the repository, the controller
    from the service, the engine from the controller, the server from the
    engine. *)
Definition wired (s : State) : Prop :=
  let '(c, o) := s in
  match taskRepository c with
  | None => repositories o = 0 ∧ taskService c = None
  | Some r => repositories o = 1 ∧ r = 0
  end ∧
  match taskService c with
  | None => services o = [] ∧ taskController c = None
  | Some sv => sv = 0 ∧ ∃ r, taskRepository c = Some r ∧ services o = [r]
  end ∧
  match taskController c with
  | None => controllers o = [] ∧ ginEngine c = None
  | Some ct => ct = 0 ∧ ∃ sv, taskService c = Some sv ∧ controllers o = [sv]
  end ∧
  match ginEngine c with
  | None => engines o = [] ∧ server c = None
  | Some en => en = 0 ∧ ∃ ct, taskController c = Some ct ∧ engines o = [ct]
  end ∧
  match server c with
  | None => servers o = []
  | Some sr => sr = 0 ∧ ∃ en, ginEngine c = Some en ∧ servers o = [en]
  end.

End AuxiliaryApp.

(** * Properties *)

(** ** The repository *)
Section Repository.
Import taskmodel taskrepository.
Implicit Types (s : State) (l : loc) (id : UUID) (t : Task).

Lemma mkTask_eta t :
  mkTask (ID t) (Name t) (Status t) (CreatedAt t) (ProcessingTime t) = t.
Proof. by destruct t. Qed.

Lemma heap_alloc_old s t l :
  l < length (heap s) → heap (alloc t s).1 !!! l = heap s !!! l.
Proof. intros Hl. simpl. by rewrite lookup_total_app_l. Qed.

Lemma heap_alloc_new s t : heap (alloc t s).1 !!! (alloc t s).2 = t.
Proof.
  simpl. rewrite lookup_total_app_r; [|done]. by rewrite Nat.sub_diag.
Qed.

Lemma heap_write_eq s l t :
  l < length (heap s) → heap (write l t s) !!! l = t.
Proof. intros Hl. simpl. by rewrite list_lookup_total_insert_eq. Qed.

Lemma heap_write_ne s l l' t :
  l ≠ l' → heap (write l t s) !!! l' = heap s !!! l'.
Proof. intros Hl. simpl. by rewrite list_lookup_total_insert_ne. Qed.

Lemma copyTask_at_spec s l :
  copyTask_at l s = (mkState (heap s ++ [heap s !!! l]) (store s), length (heap s)).
Proof. unfold copyTask_at, alloc. by rewrite mkTask_eta. Qed.

Lemma stored_alloc s t id :
  store_valid s → stored (alloc t s).1 id = stored s id.
Proof.
  intros Hv. unfold stored. simpl.
  destruct (store s !! id) as [l|] eqn:E; [|done]. simpl.
  by rewrite lookup_total_app_l; [|eauto].
Qed.

Lemma stored_write s l t id :
  (∀ id' l', store s !! id' = Some l' → l' ≠ l) →
  stored (write l t s) id = stored s id.
Proof.
  intros Hne. unfold stored. simpl.
  destruct (store s !! id) as [l'|] eqn:E; [|done]. simpl.
  rewrite list_lookup_total_insert_ne; [done|]. intros ->. by eapply Hne.
Qed.

Lemma stored_None s id : stored s id = None ↔ store s !! id = None.
Proof. unfold stored. by rewrite fmap_None. Qed.

Lemma stored_is_Some s id : is_Some (stored s id) ↔ is_Some (store s !! id).
Proof. unfold stored. by rewrite fmap_is_Some. Qed.

Lemma stored_Some s id t :
  stored s id = Some t ↔ ∃ l, store s !! id = Some l ∧ heap s !!! l = t.
Proof. unfold stored. rewrite fmap_Some. split; intros (l & ? & ?); eauto. Qed.

(** The methods, by cases on whether the identifier is in the store. *)

Lemma Create_exists now l s :
  is_Some (store s !! ID (heap s !!! l)) →
  Create now (Some l) s = (s, Some (ErrAlreadyExists (ID (heap s !!! l)))).
Proof. intros [l' E]. unfold Create. by rewrite E. Qed.

Lemma Create_fresh now l s :
  store s !! ID (heap s !!! l) = None →
  Create now (Some l) s =
    (let h := <[l := set_CreatedAt now (heap s !!! l)]> (heap s) in
     mkState (h ++ [h !!! l]) (<[ID (heap s !!! l) := length (heap s)]> (store s)),
     None).
Proof.
  intros E. unfold Create. rewrite E, copyTask_at_spec. simpl.
  by rewrite length_insert.
Qed.

Lemma GetByID_missing id s :
  store s !! id = None → GetByID id s = (s, (None, Some (ErrNotFound id))).
Proof. intros E. unfold GetByID. by rewrite E. Qed.

Lemma GetByID_found id l s :
  store s !! id = Some l →
  GetByID id s =
    (mkState (heap s ++ [heap s !!! l]) (store s), (Some (length (heap s)), None)).
Proof. intros E. unfold GetByID. by rewrite E, copyTask_at_spec. Qed.

Lemma Update_missing l s :
  store s !! ID (heap s !!! l) = None →
  Update (Some l) s = (s, Some (ErrNotFound (ID (heap s !!! l)))).
Proof. intros E. unfold Update, Update_Load. by rewrite E. Qed.

Lemma Update_found l s :
  is_Some (store s !! ID (heap s !!! l)) →
  Update (Some l) s =
    (mkState (heap s ++ [heap s !!! l])
             (<[ID (heap s !!! l) := length (heap s)]> (store s)), None).
Proof.
  intros [l' E]. unfold Update, Update_Load, Update_Store.
  by rewrite E, copyTask_at_spec.
Qed.

Lemma Delete_missing id s :
  store s !! id = None → Delete id s = (s, Some (ErrNotFound id)).
Proof. intros E. unfold Delete, Delete_Load. by rewrite E. Qed.

Lemma Delete_found id s :
  is_Some (store s !! id) →
  Delete id s = (mkState (heap s) (delete id (store s)), None).
Proof. intros [l' E]. unfold Delete, Delete_Load. by rewrite E. Qed.

Lemma snoc_lookup_total_last (h : list Task) t : (h ++ [t]) !!! length h = t.
Proof. rewrite lookup_total_app_r; [|done]. by rewrite Nat.sub_diag. Qed.

(** C7. The error contract of the task store.  For a task [*l] that the
    caller holds: [Create] fails with the already-exists error exactly when
    the task's identifier is in the store, and otherwise succeeds, stamps
    the creation time on the caller's task and stores the stamped record;
    [GetByID] fails with the not-found error exactly when the identifier is
    absent, and otherwise returns a task equal to the stored one; [Update]
    fails with not-found exactly when the identifier is absent, and
    otherwise the store holds the given record; [Delete] fails with
    not-found exactly when the identifier is absent, and otherwise the
    record is gone. *)
Theorem repository_error_contract s now l id :
  l < length (heap s) →
  let t := heap s !!! l in
  ((∃ e, (Create now (Some l) s).2 = Some e ∧ is_AlreadyExists e = true)
     ↔ is_Some (stored s (ID t))) ∧
  (stored s (ID t) = None →
     (Create now (Some l) s).2 = None ∧
     stored (Create now (Some l) s).1 (ID t) = Some (set_CreatedAt now t) ∧
     heap (Create now (Some l) s).1 !!! l = set_CreatedAt now t) ∧
  ((∃ e, (GetByID id s).2.2 = Some e ∧ is_NotFound e = true)
     ↔ stored s id = None) ∧
  (∀ t0, stored s id = Some t0 →
     ∃ c, (GetByID id s).2 = (Some c, None) ∧ heap (GetByID id s).1 !!! c = t0) ∧
  ((∃ e, (Update (Some l) s).2 = Some e ∧ is_NotFound e = true)
     ↔ stored s (ID t) = None) ∧
  (is_Some (stored s (ID t)) →
     (Update (Some l) s).2 = None ∧ stored (Update (Some l) s).1 (ID t) = Some t) ∧
  ((∃ e, (Delete id s).2 = Some e ∧ is_NotFound e = true)
     ↔ stored s id = None) ∧
  (is_Some (stored s id) →
     (Delete id s).2 = None ∧ stored (Delete id s).1 id = None).
Proof.
  intros Hl t. repeat split.
  - intros (e & He & Hk). apply stored_is_Some.
    destruct (store s !! ID t) as [l'|] eqn:E; [done|].
    rewrite Create_fresh in He by done. done.
  - intros Hs%stored_is_Some. rewrite Create_exists by done. eauto.
  - apply stored_None in H. by rewrite Create_fresh.
  - apply stored_None in H. rewrite Create_fresh by done.
    unfold stored. simpl. rewrite lookup_insert_eq. simpl.
    rewrite <- (length_insert (heap s) l (set_CreatedAt now (heap s !!! l))).
    rewrite snoc_lookup_total_last. by rewrite list_lookup_total_insert_eq.
  - apply stored_None in H. rewrite Create_fresh by done. simpl.
    rewrite lookup_total_app_l by (by rewrite length_insert).
    by rewrite list_lookup_total_insert_eq.
  - intros (e & He & Hk). apply stored_None.
    destruct (store s !! id) as [l'|] eqn:E; [|done].
    by rewrite (GetByID_found _ l') in He.
  - intros Hs%stored_None. rewrite GetByID_missing by done. eauto.
  - intros t0 (l' & E & <-)%stored_Some. rewrite (GetByID_found _ l') by done.
    eexists. split; [done|]. simpl. apply snoc_lookup_total_last.
  - intros (e & He & Hk). apply stored_None.
    destruct (store s !! ID t) as [l'|] eqn:E; [|done].
    by rewrite Update_found in He.
  - intros Hs%stored_None. rewrite Update_missing by done. eauto.
  - apply stored_is_Some in H. by rewrite Update_found.
  - apply stored_is_Some in H. rewrite Update_found by done.
    unfold stored. simpl. rewrite lookup_insert_eq. simpl.
    by rewrite snoc_lookup_total_last.
  - intros (e & He & Hk). apply stored_None.
    destruct (store s !! id) as [l'|] eqn:E; [|done].
    by rewrite Delete_found in He.
  - intros Hs%stored_None. rewrite Delete_missing by done. eauto.
  - apply stored_is_Some in H. by rewrite Delete_found.
  - apply stored_is_Some in H. rewrite Delete_found by done.
    unfold stored. simpl. by rewrite lookup_delete_eq.
Qed.

Lemma repository_error_contract_witness :
  let s := mkState [mkTask 5 "Alpha" StatusProcessing 0 0] ∅ in
  0 < length (heap s) ∧
  (Create 100 (Some 0) s).2 = None ∧
  stored (Create 100 (Some 0) s).1 5 = Some (mkTask 5 "Alpha" StatusProcessing 100 0) ∧
  (∃ e, (Update (Some 0) s).2 = Some e ∧ is_NotFound e = true).
Proof.
  intros s. assert (0 < length (heap s)) as Hl by (simpl; lia).
  split; [exact Hl|].
  destruct (repository_error_contract s 100 0 5%N Hl)
    as (_ & Hcreate & _ & _ & Hupdate & _).
  destruct (Hcreate eq_refl) as (H1 & H2 & _).
  split; [exact H1|]. split; [exact H2|].
  apply Hupdate. reflexivity.
Defined.

(** [GetAll] appends one copy per entry, in the order of the entries. *)
Lemma copy_each_spec (entries : list (UUID * loc)) s :
  (∀ kv, kv ∈ entries → kv.2 < length (heap s)) →
  copy_each entries s =
    (mkState (heap s ++ ((λ kv : UUID * loc, heap s !!! kv.2) <$> entries)) (store s),
     seq (length (heap s)) (length entries)).
Proof.
  revert s. induction entries as [|[k l] rest IH]; intros s Hv.
  - simpl. rewrite app_nil_r. by destruct s.
  - cbn [copy_each]. rewrite copyTask_at_spec.
    rewrite IH; simpl.
    + rewrite length_app. simpl. rewrite Nat.add_1_r.
      f_equal. f_equal. rewrite <- app_assoc. simpl. do 2 f_equal.
      apply list_fmap_ext. intros i kv Hkv.
      apply lookup_total_app_l. apply Hv. right.
      by eapply list_elem_of_lookup_2.
    + intros kv Hkv. rewrite length_app. simpl.
      assert (kv.2 < length (heap s)) by (apply Hv; by right). lia.
Qed.

Lemma GetAll_spec s :
  store_valid s →
  GetAll s =
    (mkState (heap s ++ ((λ kv : UUID * loc, heap s !!! kv.2) <$> map_to_list (store s)))
             (store s),
     (seq (length (heap s)) (length (map_to_list (store s))), None)).
Proof.
  intros Hv. unfold GetAll. rewrite copy_each_spec; [done|].
  intros [k l] Hkl%elem_of_map_to_list. simpl. by eapply Hv.
Qed.

Lemma fresh_caller_inv : caller_inv fresh_caller.
Proof.
  unfold caller_inv, store_valid, fresh_caller, NewInMemoryTaskRepository. simpl.
  split; [|split]; intros *; [by rewrite lookup_empty|set_solver..].
Qed.

Lemma run_call_inv k c : caller_inv c → caller_inv (run_call k c).
Proof.
  intros (Hv & Hk & Hs). destruct k as [t|l t|now [l|]|id|[l|]|id|]; cbn [run_call holds alloc].
  - (* new *)
    (split; [|split]); unfold store_valid; simpl.
    + intros id l E. rewrite length_app. simpl. apply Hv in E. lia.
    + intros l [->%elem_of_singleton|Hl]%elem_of_union; rewrite length_app; simpl;
        [lia|]. apply Hk in Hl. lia.
    + intros id l E [->%elem_of_singleton|Hl]%elem_of_union; [|by eapply Hs].
      apply Hv in E. lia.
  - (* assignment *)
    case_bool_decide; [|done]. (split; [|split]); unfold store_valid; simpl.
    + intros id l' E. rewrite length_insert. by eapply Hv.
    + intros l' Hl'. rewrite length_insert. by apply Hk.
    + done.
  - (* Create *)
    case_bool_decide as Hl; [|done].
    destruct (store (mem c) !! ID (heap (mem c) !!! l)) as [l'|] eqn:E.
    { rewrite Create_exists by done. done. }
    rewrite Create_fresh by done. (split; [|split]); unfold store_valid; simpl.
    + intros id l' [[_ <-]|[_ E']]%lookup_insert_Some;
        rewrite length_app, length_insert; simpl; [lia|]. apply Hv in E'. lia.
    + intros l' Hl'. rewrite length_app, length_insert. simpl. apply Hk in Hl'. lia.
    + intros id l' [[_ <-]|[_ E']]%lookup_insert_Some Hin; [|by eapply Hs].
      apply Hk in Hin. lia.
  - done.
  - (* GetByID *)
    destruct (store (mem c) !! id) as [l'|] eqn:E.
    + rewrite (GetByID_found _ l') by done. (split; [|split]); unfold store_valid; simpl.
      * intros id' l0 E'. rewrite length_app. simpl. apply Hv in E'. lia.
      * intros l0 [->%elem_of_singleton|Hl]%elem_of_union; rewrite length_app; simpl;
          [lia|]. apply Hk in Hl. lia.
      * intros id' l0 E' [->%elem_of_singleton|Hl]%elem_of_union; [|by eapply Hs].
        apply Hv in E'. lia.
    + rewrite GetByID_missing by done. done.
  - (* Update *)
    case_bool_decide as Hl; [|done].
    destruct (store (mem c) !! ID (heap (mem c) !!! l)) as [l'|] eqn:E.
    2:{ rewrite Update_missing by done. done. }
    rewrite Update_found by done. (split; [|split]); unfold store_valid; simpl.
    + intros id l0 [[_ <-]|[_ E']]%lookup_insert_Some;
        rewrite length_app; simpl; [lia|]. apply Hv in E'. lia.
    + intros l0 Hl0. rewrite length_app. simpl. apply Hk in Hl0. lia.
    + intros id l0 [[_ <-]|[_ E']]%lookup_insert_Some Hin; [|by eapply Hs].
      apply Hk in Hin. lia.
  - done.
  - (* Delete *)
    destruct (store (mem c) !! id) as [l'|] eqn:E.
    2:{ rewrite Delete_missing by done. done. }
    rewrite Delete_found by done. (split; [|split]); unfold store_valid; simpl.
    + intros id' l0 [_ E']%lookup_delete_Some. by eapply Hv.
    + done.
    + intros id' l0 [_ E']%lookup_delete_Some. by eapply Hs.
  - (* GetAll *)
    rewrite GetAll_spec by done. (split; [|split]); unfold store_valid; simpl.
    + intros id l E. rewrite length_app. apply Hv in E. lia.
    + intros l [Hl%elem_of_list_to_set|Hl]%elem_of_union; rewrite length_app,
        length_fmap.
      * apply elem_of_seq in Hl. lia.
      * apply Hk in Hl. lia.
    + intros id l E [Hl%elem_of_list_to_set|Hl]%elem_of_union; [|by eapply Hs].
      apply elem_of_seq in Hl. apply Hv in E. lia.
Qed.

Lemma run_calls_inv ks c : caller_inv c → caller_inv (run_calls ks c).
Proof.
  revert c. induction ks as [|k ks IH]; intros c Hc; [done|].
  simpl. apply IH. by apply run_call_inv.
Qed.

(** A call never writes into a cell the store points to. *)
Lemma run_call_stored_cell k c id l :
  caller_inv c → store (mem c) !! id = Some l →
  heap (mem (run_call k c)) !!! l = heap (mem c) !!! l.
Proof.
  intros (Hv & Hk & Hs) E. pose proof (Hv _ _ E) as Hl.
  destruct k as [t|l' t|now [l'|]|id'|[l'|]|id'|]; cbn [run_call holds alloc].
  - simpl. by rewrite lookup_total_app_l.
  - case_bool_decide as Hl'; [|done]. simpl.
    rewrite list_lookup_total_insert_ne; [done|]. intros ->. by eapply Hs.
  - case_bool_decide as Hl'; [|done].
    destruct (store (mem c) !! ID (heap (mem c) !!! l')) as [l0|] eqn:E'.
    { by rewrite Create_exists. }
    rewrite Create_fresh by done. simpl.
    rewrite lookup_total_app_l by (by rewrite length_insert).
    rewrite list_lookup_total_insert_ne; [done|]. intros ->. by eapply Hs.
  - by simpl.
  - destruct (store (mem c) !! id') as [l0|] eqn:E'.
    + rewrite (GetByID_found _ l0) by done. simpl. by rewrite lookup_total_app_l.
    + by rewrite GetByID_missing.
  - case_bool_decide as Hl'; [|done].
    destruct (store (mem c) !! ID (heap (mem c) !!! l')) as [l0|] eqn:E'.
    2:{ by rewrite Update_missing. }
    rewrite Update_found by done. simpl. by rewrite lookup_total_app_l.
  - done.
  - destruct (store (mem c) !! id') as [l0|] eqn:E'.
    2:{ by rewrite Delete_missing. }
    by rewrite Delete_found.
  - rewrite GetAll_spec by done. simpl. by rewrite lookup_total_app_l.
Qed.

(** C9. Copy on the boundary.  After any history of calls, every pointer
    the caller holds (to a task it allocated, passed to [Create] or
    [Update], or received from [GetByID] or [GetAll]) is allocated and is
    not a pointer of the store, so assigning any value through it changes
    no stored record; the pointers a read returns are held by the caller,
    hence covered; and no call writes into a cell the store points to, so
    a stored record is replaced as a whole and never updated in place. *)
Theorem repository_copy_on_boundary (ks : list call) :
  let c := run_calls ks fresh_caller in
  (∀ l t id, l ∈ known c → stored (write l t (mem c)) id = stored (mem c) id) ∧
  (∀ id l, (GetByID id (mem c)).2.1 = Some l → l ∈ known (run_call (CallGetByID id) c)) ∧
  (∀ l, l ∈ (GetAll (mem c)).2.1 → l ∈ known (run_call CallGetAll c)) ∧
  (∀ k id l, store (mem c) !! id = Some l →
     heap (mem (run_call k c)) !!! l = heap (mem c) !!! l).
Proof.
  intros c. assert (caller_inv c) as Hc.
  { apply run_calls_inv, fresh_caller_inv. }
  split; [|split; [|split]].
  - intros l t id Hl. apply stored_write. intros id' l' E ->.
    destruct Hc as (_ & _ & Hs). by eapply Hs.
  - intros id l. simpl. destruct (GetByID id (mem c)) as [s [[l'|] e]]; simpl;
      [|done]. intros [= ->]. set_solver.
  - intros l. simpl. destruct (GetAll (mem c)) as [s [tasks e]]. simpl.
    intros Hl. apply elem_of_union. left. by apply elem_of_list_to_set.
  - intros k id l E. by eapply run_call_stored_cell.
Qed.

End Repository.

(** ** Execution contexts *)
Section ExecutionContext.
Import taskmodel taskservice.
Implicit Types (tc : TaskContext) (st : TaskStatus).

Lemma markFinished_Done st tc : Done (markFinished st tc) = true.
Proof. unfold markFinished. simpl. by destruct (Done tc) eqn:E. Qed.

Lemma markFinished_Status st tc : Status (markFinished st tc) = st.
Proof. unfold markFinished. simpl. by destruct (Done tc). Qed.

Lemma markFinished_frame st tc :
  ID (markFinished st tc) = ID tc ∧
  Started (markFinished st tc) = Started tc ∧
  ctxDeadline (markFinished st tc) = ctxDeadline tc ∧
  ctxCancelled (markFinished st tc) = ctxCancelled tc.
Proof. unfold markFinished. simpl. by destruct (Done tc). Qed.

Lemma markFinished_finished st tc :
  Done tc = true → markFinished st tc = set_Status st tc.
Proof. unfold markFinished. simpl. by intros ->. Qed.

Lemma markFinished_seq_closed sts tc :
  Done tc = true →
  (markFinished_seq sts tc).2 = 0 ∧
  Done (markFinished_seq sts tc).1 = true ∧
  Status (markFinished_seq sts tc).1 = default (Status tc) (last sts).
Proof.
  revert tc. induction sts as [|st sts IH]; intros tc Hd; [done|].
  cbn [markFinished_seq].
  destruct (IH (markFinished st tc) (markFinished_Done st tc)) as (Hn & Hdone & Hst).
  destruct (markFinished_seq sts (markFinished st tc)) as [tc' n] eqn:E.
  simpl in *. unfold closes. rewrite Hd, Hn. split; [done|]. split; [done|].
  rewrite Hst, markFinished_Status.
  destruct sts as [|s sts']; [done|].
  change (last (st :: s :: sts')) with (last (s :: sts')).
  destruct (last (s :: sts')) eqn:El; [done|]. by apply last_None in El.
Qed.

(** C1, as the code has it.  In any sequence of [markFinished] calls on a
    context whose channel is open, [close(tc.Done)] runs exactly once (in
    the first call) and the channel is closed from then on; every call
    records its own status, so after the sequence the recorded status is
    that of the last call; a call on a finished context changes nothing but
    the status.  The deferred function of [executeTask] does not call
    [markFinished] on a finished context, so it leaves the status alone. *)
Theorem markFinished_fires_once_last_status_stands st sts tc :
  Done tc = false →
  (markFinished_seq (st :: sts) tc).2 = 1 ∧
  closes tc = 1 ∧
  Done (markFinished_seq (st :: sts) tc).1 = true ∧
  Status (markFinished_seq (st :: sts) tc).1 = default st (last sts) ∧
  (∀ st' tc', Done tc' = true →
     closes tc' = 0 ∧ markFinished st' tc' = set_Status st' tc') ∧
  (∀ e w, IsFinished (ctxs w !!! e_tc e) = true → (exec_defer_mark e w).1 = w).
Proof.
  intros Hd. cbn [markFinished_seq].
  destruct (markFinished_seq_closed sts (markFinished st tc)
              (markFinished_Done st tc)) as (Hn & Hdone & Hst).
  destruct (markFinished_seq sts (markFinished st tc)) as [tc' n] eqn:E.
  simpl in *. unfold closes. rewrite Hd, Hn.
  split; [done|]. split; [done|]. split; [done|].
  split; [by rewrite Hst, markFinished_Status|]. split.
  - intros st' tc0 Hd0. rewrite Hd0. split; [done|].
    by apply markFinished_finished.
  - intros e w Hf. unfold exec_defer_mark. by rewrite Hf.
Qed.

Lemma markFinished_fires_once_witness :
  let tc := mkTaskContext 7 0 false StatusProcessing 360 false in
  Done tc = false ∧
  (markFinished_seq [StatusFailed; StatusDone] tc).2 = 1 ∧
  Status (markFinished_seq [StatusFailed; StatusDone] tc).1 = StatusDone.
Proof.
  intros tc. split; [reflexivity|].
  pose proof (markFinished_fires_once_last_status_stands
                StatusFailed [StatusDone] tc eq_refl) as (H1 & _ & _ & H2 & _).
  split; [exact H1|exact H2].
Defined.

(** C1, as the claim states it, fails: a cancellation finalizer recording
    FAILED after the completion finalizer recorded DONE replaces the
    status the first call set. *)
Lemma markFinished_first_status_not_kept :
  let tc := mkTaskContext 7 0 false StatusProcessing 360 false in
  let tc1 := markFinished StatusDone tc in
  let tc2 := markFinished StatusFailed tc1 in
  Status tc1 = StatusDone ∧ Done tc1 = true ∧
  Status tc2 = StatusFailed ∧ Status tc2 ≠ Status tc1 ∧ tc2 ≠ tc1.
Proof. repeat split; done. Qed.

End ExecutionContext.

(** ** The service: requests run on their own *)
Section Service.
Import taskmodel taskservice.
Implicit Types (w : World) (id taskID : UUID) (t : Task).

Lemma insert_snoc_last {A} (h : list A) (x y : A) :
  <[length h := x]> (h ++ [y]) = h ++ [x].
Proof. rewrite insert_app_r_alt by done. by rewrite Nat.sub_diag. Qed.

Lemma lookup_total_snoc_last `{!Inhabited A} (h : list A) (x : A) :
  (h ++ [x]) !!! length h = x.
Proof. rewrite lookup_total_app_r by done. by rewrite Nat.sub_diag. Qed.

Local Arguments taskrepository.Create : simpl never.
Local Arguments taskrepository.Update : simpl never.
Local Arguments taskrepository.GetByID : simpl never.
Local Arguments taskrepository.Delete : simpl never.
Local Arguments taskrepository.GetAll : simpl never.

Lemma CreateTask_create_fresh id name w :
  store w !! id = None →
  CreateTask_create id name w =
    (let t := new_task id name (now w) in
     set_repo (taskrepository.mkState (heap w ++ [t; t])
                 (<[id := S (length (heap w))]> (store w))) w,
     (Some (length (heap w)), None)).
Proof.
  intros E. destruct w as [[h m] cs cx n ths t0 iss].
  unfold heap, store in *. simpl in E.
  unfold CreateTask_create, NewTask, write_task, taskrepository.write, heap, store.
  simpl.
  rewrite !lookup_total_snoc_last, !insert_snoc_last. simpl.
  rewrite Create_fresh by (simpl; by rewrite !lookup_total_snoc_last).
  unfold set_repo. simpl.
  repeat (progress (rewrite ?lookup_total_snoc_last, ?insert_snoc_last; simpl)).
  rewrite ?length_app. simpl. rewrite <- ?app_assoc. simpl.
  by rewrite ?Nat.add_1_r.
Qed.

Lemma CreateTask_fresh id name w :
  store w !! id = None →
  CreateTask id name w =
    (let t := new_task id name (now w) in
     mkWorld
       (taskrepository.mkState (heap w ++ [t; t; t])
                               (<[id := S (length (heap w))]> (store w)))
       (ctxs w ++ [mkTaskContext id (now w) false StatusProcessing
                     (now w + defaultTimeToProcessTask) false])
       (<[id := length (ctxs w)]> (contexts w))
       (wg w + 1)
       (threads w ++ [TExec (mkExec (S (S (length (heap w)))) (length (ctxs w))
                                    PStart 0 0 0)])
       (now w) (issued w),
     (Some (length (heap w)), None)).
Proof.
  intros E. unfold CreateTask. rewrite CreateTask_create_fresh by done.
  cbn zeta. unfold CreateTask_start, heap. simpl. fold (heap w).
  assert (∀ t, (heap w ++ [t; t]) !!! length (heap w) = t) as Hcell.
  { intros t. rewrite lookup_total_app_r by done. by rewrite Nat.sub_diag. }
  rewrite !Hcell. unfold set_threads, set_repo, set_wg, set_contexts, set_ctxs.
  simpl. rewrite length_app. simpl. rewrite <- !app_assoc. simpl.
  by replace (length (heap w) + 2) with (S (S (length (heap w)))) by lia.
Qed.

Lemma set_repo_id w : set_repo (repo w) w = w.
Proof. by destruct w. Qed.

Lemma GetTask_missing taskID w :
  store w !! taskID = None →
  GetTask taskID w =
    (w, (None, Some (ErrWrap "task not found" (ErrNotFound taskID)))).
Proof.
  intros E. unfold GetTask, store in *.
  rewrite GetByID_missing by done. by rewrite set_repo_id.
Qed.

Lemma updateTaskProcessingTime_last (h : list Task) m t w :
  updateTaskProcessingTime (length h)
      (set_repo (taskrepository.mkState (h ++ [t]) m) w) =
    set_repo (taskrepository.mkState (h ++ [overlay w t]) m) w.
Proof.
  unfold updateTaskProcessingTime, overlay, heap, loadTaskContext, write_task,
    taskrepository.write, time.Since.
  simpl. rewrite lookup_total_snoc_last.
  destruct (IsProcessing t); simpl; [|done].
  destruct (contexts w !! taskmodel.ID t) as [c|]; [|done].
  destruct (IsFinished (ctxs w !!! c)); simpl; [done|].
  by rewrite insert_snoc_last.
Qed.

Lemma GetTask_found taskID l w :
  store w !! taskID = Some l →
  GetTask taskID w =
    (set_repo (taskrepository.mkState (heap w ++ [overlay w (heap w !!! l)])
                                      (store w)) w,
     (Some (length (heap w)), None)).
Proof.
  intros E. unfold GetTask, store, heap in *.
  rewrite (GetByID_found _ l) by done.
  by rewrite updateTaskProcessingTime_last.
Qed.

(** C6. [GetTask] fails with the (wrapped) not-found error of the
    repository when the identifier is absent.  Otherwise it returns a fresh
    copy [p] of the stored record [t]; the copy's processing time is
    [now - Started] of the registered context exactly when [t] is
    PROCESSING and the registry holds an unfinished context for [t]'s
    identifier; in every other case the copy equals [t].  The store, the
    registry, the contexts and all earlier cells are left as they were. *)
Theorem GetTask_overlays_live_elapsed_time taskID w :
  (taskrepository.stored (repo w) taskID = None →
     GetTask taskID w =
       (w, (None, Some (ErrWrap "task not found" (ErrNotFound taskID))))) ∧
  (∀ t, taskrepository.stored (repo w) taskID = Some t →
     ∃ p, (GetTask taskID w).2 = (Some p, None) ∧
       let w' := (GetTask taskID w).1 in
       (∀ c, IsProcessing t = true → contexts w !! taskmodel.ID t = Some c →
             IsFinished (ctxs w !!! c) = false →
             heap w' !!! p =
               set_ProcessingTime (now w - Started (ctxs w !!! c))%Z t) ∧
       (IsProcessing t = false ∨ contexts w !! taskmodel.ID t = None ∨
        (∃ c, contexts w !! taskmodel.ID t = Some c ∧
              IsFinished (ctxs w !!! c) = true) →
        heap w' !!! p = t) ∧
       store w' = store w ∧ ctxs w' = ctxs w ∧ contexts w' = contexts w ∧
       (∀ l, l < length (heap w) → heap w' !!! l = heap w !!! l)).
Proof.
  split.
  - intros E%stored_None. by apply GetTask_missing.
  - intros t (l & E & <-)%stored_Some.
    rewrite (GetTask_found _ l) by done. eexists. split; [done|].
    unfold heap, store. simpl. rewrite lookup_total_snoc_last.
    split; [|split; [|repeat split]].
    + intros c Hp Hc Hf. unfold overlay. by rewrite Hp, Hc, Hf.
    + unfold overlay.
      intros [Hp|[Hc|(c & Hc & Hf)]].
      * by rewrite Hp.
      * rewrite Hc. by destruct (IsProcessing _).
      * rewrite Hc, Hf. by destruct (IsProcessing _).
    + intros l' Hl'. by rewrite lookup_total_app_l.
Qed.

(** *** The workload duration and the timeout *)

Lemma workDuration_bounds r :
  (0 ≤ r < 3)%Z →
  (3 * time.Minute ≤ workDuration r ≤ 5 * time.Minute)%Z ∧
  (workDuration r < defaultTimeToProcessTask)%Z.
Proof.
  unfold workDuration, defaultTimeToProcessTask, time.Minute, time.Second,
    time.Nanosecond. lia.
Qed.


(** *** The steps of a goroutine make up the functions

    [finalizeTask] is the step that ends with the [Load] of its [Update]
    followed, when the [Load] finds the record, by the step of the
    [Store]; [DeleteTask] is its steps taken one after the other. *)

Lemma finalizeTask_in_steps st pt e w :
  finalizeTask (e_task e) st pt w =
    match exec_finalize st pt e w with
    | (w2, TExec e2) =>
        match e_pc e2 with
        | PFinalizing _ => (exec_finalizing st e2 w2).1
        | _ => w2
        end
    | (w2, _) => w2
    end.
Proof.
  unfold finalizeTask, exec_finalize, exec_finalizing, taskrepository.Update.
  destruct (taskrepository.Update_Load _ _); [|done].
  exact (set_repo_id (finalizeTask_assign (e_task e) st pt w)).
Qed.

Lemma DeleteTask_in_steps taskID w :
  DeleteTask taskID w =
    match DeleteTask_step taskID DCheck w with
    | Some (w1, TDelete _ DCancel) =>
        match DeleteTask_step taskID DCancel w1 with
        | Some (w2, _) =>
            match DeleteTask_step taskID DDelete w2 with
            | Some (w3, TDelete _ DDeleting) =>
                match DeleteTask_step taskID DDeleting w3 with
                | Some (w4, _) => (w4, None)
                | None => (w3, None)
                end
            | Some (w3, TDelete _ (DReturned err)) => (w3, err)
            | _ => (w2, None)
            end
        | None => (w1, None)
        end
    | Some (w1, TDelete _ (DReturned err)) => (w1, err)
    | _ => (w, None)
    end.
Proof.
  unfold DeleteTask, DeleteTask_step, DeleteTask_delete, taskrepository.Delete.
  destruct (DeleteTask_check taskID w) as [w1 [err|]]; [done|].
  destruct (taskrepository.Delete_Load _ _); [|done].
  simpl. f_equal. exact (set_repo_id _).
Qed.

(** *** [Shutdown] *)

Lemma Cancel_Cancel tc : Cancel (Cancel tc) = Cancel tc.
Proof. done. Qed.

Lemma foldl_cancel_unfinished (kvs : list (UUID * loc)) w :
  ∃ cs', foldl cancel_unfinished w kvs = set_ctxs cs' w ∧
    length cs' = length (ctxs w) ∧
    (∀ c, cs' !!! c = ctxs w !!! c ∨ cs' !!! c = Cancel (ctxs w !!! c)) ∧
    (∀ kv, kv ∈ kvs → kv.2 < length (ctxs w) →
           IsFinished (ctxs w !!! kv.2) = false →
           ctxCancelled (cs' !!! kv.2) = true).
Proof.
  revert w. induction kvs as [|[k c] kvs IH]; intros w.
  - exists (ctxs w). simpl. split; [by destruct w|]. split; [done|].
    split; [auto|]. by intros kv ?%elem_of_nil.
  - simpl. destruct (IH (cancel_unfinished w (k, c))) as (cs' & -> & Hlen & Hcell & Hc).
    assert (∀ c', ctxs (cancel_unfinished w (k, c)) !!! c' = ctxs w !!! c' ∨
                  ctxs (cancel_unfinished w (k, c)) !!! c' = Cancel (ctxs w !!! c'))
      as Hone.
    { intros c'. unfold cancel_unfinished. simpl.
      destruct (IsFinished (ctxs w !!! c)); simpl; [by left|].
      destruct (decide (c = c')) as [<-|Hne].
      - destruct (decide (c < length (ctxs w))).
        + right. by rewrite list_lookup_total_insert_eq.
        + left. by rewrite list_insert_ge by lia.
      - left. by rewrite list_lookup_total_insert_ne. }
    assert (length (ctxs (cancel_unfinished w (k, c))) = length (ctxs w)) as Hlen1.
    { unfold cancel_unfinished. simpl.
      destruct (IsFinished (ctxs w !!! c)); simpl; [done|]. by rewrite length_insert. }
    exists cs'. split.
    { unfold cancel_unfinished. simpl.
      by destruct (IsFinished (ctxs w !!! c)). }
    split; [congruence|]. split.
    + intros c'. destruct (Hcell c') as [->| ->], (Hone c') as [->| ->]; auto.
    + intros [k' c'] [[= -> ->]|Hin]%elem_of_cons Hv Hf; simpl in *.
      * assert (ctxCancelled (ctxs (cancel_unfinished w (k, c)) !!! c) = true) as Hcc.
        { unfold cancel_unfinished. simpl. rewrite Hf. simpl.
          by rewrite list_lookup_total_insert_eq. }
        destruct (Hcell c) as [->| ->]; [done|]. done.
      * apply (Hc (k', c')); [done|simpl; lia|]. simpl.
        destruct (Hone c') as [->| ->]; [done|]. by destruct (ctxs w !!! c').
Qed.

End Service.

(** ** The process: invariant and lifecycle *)
Section Lifecycle.
Import taskmodel taskservice.
Implicit Types (w : World) (id taskID : UUID) (e : Exec) (tc : TaskContext).

Local Arguments taskrepository.Create : simpl never.
Local Arguments taskrepository.Update : simpl never.
Local Arguments taskrepository.GetByID : simpl never.
Local Arguments taskrepository.Delete : simpl never.
Local Arguments taskrepository.GetAll : simpl never.

Lemma list_insert_lookup_total_id `{!Inhabited A} (l : list A) (i : nat) :
  <[i := l !!! i]> l = l.
Proof.
  destruct (decide (i < length l)) as [Hi|Hi].
  - apply list_insert_id. by apply list_lookup_lookup_total_lt.
  - apply list_insert_ge. lia.
Qed.

Lemma overlay_set_repo r w t : overlay (set_repo r w) t = overlay w t.
Proof. done. Qed.

Lemma updateTaskProcessingTime_spec p w :
  updateTaskProcessingTime p w = write_task p (overlay w (heap w !!! p)) w.
Proof.
  unfold updateTaskProcessingTime, overlay, loadTaskContext, time.Since.
  assert (write_task p (heap w !!! p) w = w) as Hid.
  { unfold write_task, taskrepository.write, heap.
    rewrite list_insert_lookup_total_id. by destruct w as [[] ?]. }
  destruct (IsProcessing (heap w !!! p)); simpl; [|done].
  destruct (contexts w !! taskmodel.ID (heap w !!! p)) as [c|]; [|done].
  by destruct (IsFinished (ctxs w !!! c)).
Qed.

Lemma foldl_updateTaskProcessingTime (todo pre : list Task) m w :
  foldl (λ w p, updateTaskProcessingTime p w)
        (set_repo (taskrepository.mkState (pre ++ todo) m) w)
        (seq (length pre) (length todo)) =
    set_repo (taskrepository.mkState (pre ++ (overlay w <$> todo)) m) w.
Proof.
  revert pre. induction todo as [|t todo IH]; intros pre; [done|].
  simpl. rewrite updateTaskProcessingTime_spec.
  unfold write_task, taskrepository.write, heap. simpl.
  rewrite list_lookup_total_middle by done.
  rewrite insert_app_r_alt, Nat.sub_diag by done. simpl.
  rewrite overlay_set_repo.
  replace (S (length pre)) with (length (pre ++ [overlay w t]))
    by (rewrite length_app; simpl; lia).
  rewrite (cons_middle _ pre todo), app_assoc.
  change (set_repo ?r (set_repo ?r' w)) with (set_repo r w).
  rewrite IH. by rewrite <- app_assoc.
Qed.

(** The copies [ListTasks] returns: one per stored record, overlaid. *)
Lemma ListTasks_spec w :
  (∀ id l, store w !! id = Some l → l < length (heap w)) →
  ListTasks w =
    (set_repo (taskrepository.mkState
                 (heap w ++ (overlay w <$>
                    ((λ kv : UUID * loc, heap w !!! kv.2) <$> map_to_list (store w))))
                 (store w)) w,
     (seq (length (heap w)) (length (map_to_list (store w))), None)).
Proof.
  intros Hv. unfold ListTasks. rewrite GetAll_spec by done.
  f_equal. fold (heap w) (store w).
  rewrite <- (length_fmap (λ kv : UUID * loc, heap w !!! kv.2) (map_to_list (store w))).
  by rewrite foldl_updateTaskProcessingTime.
Qed.

(** *** What the read operations report *)

Lemma overlay_ID w t : taskmodel.ID (overlay w t) = taskmodel.ID t.
Proof.
  unfold overlay. destruct (IsProcessing t); [|done].
  destruct (contexts w !! _); [|done]. by destruct (IsFinished _).
Qed.

Lemma overlay_Status w t : taskmodel.Status (overlay w t) = taskmodel.Status t.
Proof.
  unfold overlay. destruct (IsProcessing t); [|done].
  destruct (contexts w !! _); [|done]. by destruct (IsFinished _).
Qed.

Lemma GetTask_status_rec taskID w :
  GetTask_status taskID w = taskmodel.Status <$> rec w taskID.
Proof.
  unfold GetTask_status, rec, taskrepository.stored. fold (store w).
  destruct (store w !! taskID) as [l|] eqn:E.
  - rewrite (GetTask_found _ l) by done. simpl. unfold heap. simpl.
    by rewrite lookup_total_snoc_last, overlay_Status.
  - by rewrite GetTask_missing.
Qed.

Lemma GetTaskStatus_status_spec taskID w :
  GetTaskStatus_status taskID w =
    (λ c, Status (ctxs w !!! c)) <$> contexts w !! taskID.
Proof.
  unfold GetTaskStatus_status, GetTaskStatus, loadTaskContext.
  by destruct (contexts w !! taskID).
Qed.

Lemma fmap_lookup_total_seq_app `{!Inhabited A} (h ys : list A) :
  (λ l, (h ++ ys) !!! l) <$> seq (length h) (length ys) = ys.
Proof.
  apply list_eq. intros i. rewrite list_lookup_fmap.
  destruct (decide (i < length ys)) as [Hi|Hi].
  - rewrite lookup_seq_lt by done. simpl.
    rewrite lookup_total_app_r by lia.
    replace (length h + i - length h) with i by lia.
    symmetry. by apply list_lookup_lookup_total_lt.
  - rewrite lookup_seq_ge by lia. simpl. symmetry. apply lookup_ge_None. lia.
Qed.

Lemma ListTasks_statuses_rec taskID w st :
  (∀ id l, store w !! id = Some l →
     l < length (heap w) ∧ taskmodel.ID (heap w !!! l) = id) →
  st ∈ ListTasks_statuses taskID w ↔ taskmodel.Status <$> rec w taskID = Some st.
Proof.
  intros Hv. unfold ListTasks_statuses.
  rewrite ListTasks_spec by (intros ?? E; by destruct (Hv _ _ E)).
  unfold heap at 1. simpl.
  replace (length (map_to_list (store w))) with
    (length (overlay w <$>
       ((λ kv : UUID * loc, heap w !!! kv.2) <$> map_to_list (store w))))
    by (by rewrite !length_fmap).
  rewrite fmap_lookup_total_seq_app.
  rewrite list_elem_of_fmap. unfold rec, taskrepository.stored. fold (store w) (heap w).
  split.
  - intros (t & -> & [Ht Hin]%list_elem_of_filter).
    apply list_elem_of_fmap in Hin as (t0 & -> & Hin).
    apply list_elem_of_fmap in Hin as ([k l] & -> & Hin%elem_of_map_to_list).
    simpl in *. rewrite overlay_ID in Ht. rewrite overlay_Status.
    destruct (Hv _ _ Hin) as [_ Hk]. rewrite Hk in Ht. subst k.
    by rewrite Hin.
  - destruct (store w !! taskID) as [l|] eqn:E; [|done]. simpl. intros [= <-].
    exists (overlay w (heap w !!! l)). split; [by rewrite overlay_Status|].
    apply list_elem_of_filter. split.
    + rewrite overlay_ID. by apply Hv.
    + apply list_elem_of_fmap. eexists. split; [done|].
      apply list_elem_of_fmap. exists (taskID, l). split; [done|].
      by apply elem_of_map_to_list.
Qed.

(** *** The invariant holds initially and is kept by changes that only
    extend the heap, shrink the store or the registry, issue identifiers,
    or cancel contexts *)

Lemma rec_Some w id t :
  rec w id = Some t ↔ ∃ l, store w !! id = Some l ∧ heap w !!! l = t.
Proof. apply stored_Some. Qed.

Lemma rec_None w id : rec w id = None ↔ store w !! id = None.
Proof. apply stored_None. Qed.

Lemma terminal_not_processing st : terminal st → st ≠ StatusProcessing.
Proof. by intros [-> | ->]. Qed.

Lemma exec_phase_mono pc st d (r r' : option Task) :
  (∀ t, r' = Some t → r = Some t) →
  exec_phase pc st d r → exec_phase pc st d r'.
Proof.
  intros Hsub. destruct pc; simpl; try done.
  - intros (? & ? & Hp). split_and!; try done. intros t Ht%Hsub. by apply Hp.
  - intros (? & ? & Hp). split_and!; try done. intros t Ht%Hsub. by apply Hp.
  - intros (? & ? & Hp). split_and!; try done. intros t Ht%Hsub. by apply Hp.
  - intros (? & ? & Hp). split_and!; try done. intros t Ht%Hsub. by apply Hp.
  - intros (? & ? & ? & Hp). split_and!; try done. intros t Ht%Hsub. by apply Hp.
  - intros (? & ? & Hp). split_and!; try done. intros t Ht%Hsub. by apply Hp.
Qed.

Lemma create_inv_weaken w w' task :
  create_inv w task →
  task < length (heap w') → heap w' !!! task = heap w !!! task →
  issued w ⊆ issued w' →
  (∀ c, c < length (ctxs w') →
        ID (ctxs w' !!! c) ≠ taskmodel.ID (heap w !!! task)) →
  (∀ t, rec w' (taskmodel.ID (heap w !!! task)) = Some t →
        rec w (taskmodel.ID (heap w !!! task)) = Some t) →
  create_inv w' task.
Proof.
  intros (Hl & Hin & Hst & Hc & Hr) Hl' Hcell Hiss Hc' Hr'.
  unfold create_inv. rewrite Hcell. split_and!; try done.
  - by apply Hiss.
  - intros t Ht%Hr'. by apply Hr.
Qed.

Lemma inv_NewService : inv NewService.
Proof.
  split; unfold NewService, heap, store, taskrepository.NewInMemoryTaskRepository;
    simpl.
  - intros id l E. by rewrite lookup_empty in E.
  - intros id c E. by rewrite lookup_empty in E.
  - intros c Hc. lia.
  - intros c c' Hc. lia.
  - intros i e E. by rewrite lookup_nil in E.
  - intros i j e e' E. by rewrite lookup_nil in E.
  - intros i id pc E. by rewrite lookup_nil in E.
  - intros i task E. by rewrite lookup_nil in E.
  - intros i j task task' E. by rewrite lookup_nil in E.
Qed.

Lemma inv_intro ths w :
  (∀ id l, store w !! id = Some l →
     l < length (heap w) ∧ id ∈ issued w ∧ taskmodel.ID (heap w !!! l) = id) →
  (∀ id c, contexts w !! id = Some c →
     c < length (ctxs w) ∧ ID (ctxs w !!! c) = id) →
  (∀ c, c < length (ctxs w) → ctx_inv w (ctxs w !!! c)) →
  (∀ c c', c < length (ctxs w) → c' < length (ctxs w) →
     ID (ctxs w !!! c) = ID (ctxs w !!! c') → c = c') →
  (∀ i e, ths !! i = Some (TExec e) → exec_inv w e) →
  (∀ i j e e', ths !! i = Some (TExec e) → ths !! j = Some (TExec e') →
     exec_id w e = exec_id w e' → i = j) →
  (∀ i taskID pc, ths !! i = Some (TDelete taskID pc) → delete_inv w taskID pc) →
  (∀ i task, ths !! i = Some (TCreate task) → create_inv w task) →
  (∀ i j task task', ths !! i = Some (TCreate task) →
     ths !! j = Some (TCreate task') →
     taskmodel.ID (heap w !!! task) = taskmodel.ID (heap w !!! task') → i = j) →
  inv (set_threads ths w).
Proof. intros. by split. Qed.

Lemma inv_weaken w w' :
  inv w →
  (∀ l, l < length (heap w) →
        l < length (heap w') ∧ heap w' !!! l = heap w !!! l) →
  (∀ id l, store w' !! id = Some l → store w !! id = Some l) →
  (∀ id c, contexts w' !! id = Some c → contexts w !! id = Some c) →
  threads w' = threads w →
  issued w ⊆ issued w' →
  length (ctxs w') = length (ctxs w) →
  (∀ c, same_signal (ctxs w !!! c) (ctxs w' !!! c)) →
  inv w'.
Proof.
  intros [Hs Hr Hc Hcu He Hu Hd Hn Hnu] Hheap Hstore Hreg Hth Hiss Hlen Hctx.
  assert (∀ l, l < length (heap w) → heap w' !!! l = heap w !!! l) as Hcell.
  { intros l Hl. by apply Hheap. }
  assert (∀ id t, rec w' id = Some t → rec w id = Some t) as Hrec.
  { intros id t (l & E & <-)%rec_Some. apply rec_Some. exists l.
    apply Hstore in E. split; [done|].
    symmetry. apply Hcell. by destruct (Hs _ _ E). }
  assert (∀ e, exec_inv w e → exec_id w' e = exec_id w e) as Hid.
  { intros e (Ht & _). unfold exec_id. f_equal. by apply Hcell. }
  split.
  - intros id l E%Hstore. destruct (Hs _ _ E) as (Hl & Hi & Hk).
    destruct (Hheap _ Hl) as [Hl' Heq]. split; [done|]. split; [by apply Hiss|].
    by rewrite Heq.
  - intros id c E%Hreg. destruct (Hr _ _ E) as (Hl & Hk).
    destruct (Hctx c) as (-> & _). split; [lia|done].
  - intros c Hl. rewrite Hlen in Hl. destruct (Hc c Hl) as (Hi & Ho & Hf).
    destruct (Hctx c) as (E1 & E2 & E3). unfold ctx_inv. rewrite E1, E2, E3.
    split; [by apply Hiss|]. split; [done|].
    intros Hdone. destruct (Hf Hdone) as [Hterm Ht]. split; [done|].
    intros t Hrt%Hrec. by apply Ht.
  - intros c c' Hl Hl'. rewrite Hlen in Hl, Hl'.
    destruct (Hctx c) as (-> & _), (Hctx c') as (-> & _). by apply Hcu.
  - intros i e E. rewrite Hth in E. pose proof (He _ _ E) as Hex.
    pose proof (Hid e Hex) as Hide.
    destruct Hex as (Ht & Htc & Hcid & Hsep & Hpc).
    destruct (Hheap _ Ht) as [Ht' Heq]. destruct (Hctx (e_tc e)) as (E1 & E2 & E3).
    unfold exec_inv. rewrite Hide, Heq, E1, E2.
    split; [done|]. split; [lia|]. split; [done|]. split.
    { intros id l El%Hstore. by eapply Hsep. }
    eapply exec_phase_mono; [|done]. apply Hrec.
  - intros i j e e' E E'. rewrite Hth in E, E'.
    rewrite (Hid e), (Hid e') by by eapply He. by eapply Hu.
  - intros i id pc E. rewrite Hth in E. pose proof (Hd _ _ _ E) as Hdel.
    destruct pc; simpl in *; try done; by apply Hiss.
  - intros i task E. rewrite Hth in E. pose proof (Hn _ _ E) as Hcr.
    destruct (Hheap task) as [Hl' Heq]; [by destruct Hcr|].
    apply (create_inv_weaken w); try done.
    + intros c Hl. destruct (Hctx c) as (-> & _).
      destruct Hcr as (_ & _ & _ & Hno & _). apply Hno. lia.
    + intros t. apply Hrec.
  - intros i j task task' E E'. rewrite Hth in E, E'.
    rewrite !Hcell; [by eapply Hnu| |].
    + by destruct (Hn _ _ E').
    + by destruct (Hn _ _ E).
Qed.

(** *** The invariant is kept when goroutines are added or move *)

Lemma inv_new_delete_call w taskID :
  inv w → inv (set_threads (threads w ++ [TDelete taskID DCheck]) w).
Proof.
  intros [Hs Hr Hc Hcu He Hu Hd Hn Hnu]. split; try done; simpl.
  - intros i e [E|[_ E]]%lookup_app_Some; [by eapply He|].
    by destruct (i - length (threads w)) as [|[|?]].
  - intros i j e e' [E|[_ E]]%lookup_app_Some [E'|[_ E']]%lookup_app_Some.
    + by eapply Hu.
    + by destruct (j - length (threads w)) as [|[|?]].
    + by destruct (i - length (threads w)) as [|[|?]].
    + by destruct (i - length (threads w)) as [|[|?]].
  - intros i id pc [E|[_ E]]%lookup_app_Some; [by eapply Hd|].
    destruct (i - length (threads w)) as [|[|?]]; [|done..].
    by injection E as <- <-.
  - intros i task [E|[_ E]]%lookup_app_Some; [by eapply Hn|].
    by destruct (i - length (threads w)) as [|[|?]].
  - intros i j task task' [E|[_ E]]%lookup_app_Some [E'|[_ E']]%lookup_app_Some.
    + by eapply Hnu.
    + by destruct (j - length (threads w)) as [|[|?]].
    + by destruct (i - length (threads w)) as [|[|?]].
    + by destruct (i - length (threads w)) as [|[|?]].
Qed.

Lemma inv_set_thread w i th th' :
  inv w → threads w !! i = Some th → thread_ok w th th' →
  inv (set_threads (<[i := th']> (threads w)) w).
Proof.
  intros [Hs Hr Hc Hcu He Hu Hd Hn Hnu] Hi Hok. split; try done; simpl.
  - intros j e [(<- & -> & _)|[Hne E]]%list_lookup_insert_Some; [|by eapply He].
    destruct th; try done. by destruct Hok as (_ & _ & ?).
  - assert (∀ j e1, <[i:=th']> (threads w) !! j = Some (TExec e1) →
              ∃ e0, threads w !! j = Some (TExec e0) ∧ exec_id w e1 = exec_id w e0)
      as Hold.
    { intros j e1 [(<- & -> & _)|[Hne E]]%list_lookup_insert_Some; [|by eauto].
      destruct th as [e0| | |]; try done. destruct Hok as (Ht & _ & _).
      exists e0. split; [done|]. unfold exec_id. by rewrite Ht. }
    intros j1 j2 e1 e2 (e1' & E1 & H1)%Hold (e2' & E2 & H2)%Hold Heq.
    eapply Hu; [done..|]. rewrite <- H1, <- H2. exact Heq.
  - intros j id pc [(<- & -> & _)|[Hne E]]%list_lookup_insert_Some; [|by eapply Hd].
    by destruct th.
  - intros j task [(<- & -> & _)|[Hne E]]%list_lookup_insert_Some; [|by eapply Hn].
    by destruct th.
  - assert (∀ j task, <[i:=th']> (threads w) !! j = Some (TCreate task) →
              threads w !! j = Some (TCreate task)) as Hold.
    { intros j task [(<- & -> & _)|[Hne E]]%list_lookup_insert_Some; [|done].
      by destruct th. }
    intros j1 j2 task task' E1%Hold E2%Hold. by eapply Hnu.
Qed.

(** *** The invariant is kept by the writes of [executeTask] *)

Lemma inv_exec_memory w w' i e e' :
  inv w → threads w !! i = Some (TExec e) →
  Done (ctxs w !!! e_tc e) = false →
  e_task e' = e_task e → e_tc e' = e_tc e →
  length (heap w) ≤ length (heap w') →
  (∀ l, l < length (heap w) → l ≠ e_task e → heap w' !!! l = heap w !!! l) →
  taskmodel.ID (heap w' !!! e_task e) = exec_id w e →
  (∀ id l, store w' !! id = Some l →
     (id = exec_id w e ∧ length (heap w) ≤ l ∧ l < length (heap w') ∧
      taskmodel.ID (heap w' !!! l) = id) ∨
     store w !! id = Some l) →
  exec_phase (e_pc e') (taskmodel.Status (heap w' !!! e_task e)) false
             (rec w' (exec_id w e)) →
  ctxs w' = ctxs w → contexts w' = contexts w → threads w' = threads w →
  issued w' = issued w →
  inv (set_threads (<[i := TExec e']> (threads w')) w').
Proof.
  intros [Hs Hr Hc Hcu He Hu Hd Hn Hnu] Hi Hopen Ht Htc Hlen Hcell Hnew Hstore Hphase
    Hctxs Hreg Hth Hiss.
  destruct (He _ _ Hi) as (Hv & Hvc & Hcid & Hsep & _).
  assert (exec_id w e ∈ issued w) as Hin.
  { rewrite <- Hcid. by destruct (Hc _ Hvc). }
  assert (∀ id t, id ≠ exec_id w e → rec w' id = Some t → rec w id = Some t)
    as Hrec.
  { intros id t Hne (l & E & <-)%rec_Some.
    destruct (Hstore _ _ E) as [(-> & _)|Eold]; [done|].
    apply rec_Some. exists l. split; [done|].
    symmetry. destruct (Hs _ _ Eold) as (Hl & _). apply Hcell; [done|].
    by eapply Hsep. }
  assert (∀ j ej, i ≠ j → threads w !! j = Some (TExec ej) →
            e_task ej ≠ e_task e ∧ exec_id w ej ≠ exec_id w e ∧
            exec_id w' ej = exec_id w ej) as Hother.
  { intros j ej Hne Ej.
    assert (exec_id w ej ≠ exec_id w e) as Hneid.
    { intros Heq. apply Hne. eapply Hu; [exact Hi|exact Ej|done]. }
    assert (e_task ej ≠ e_task e) as Hnet.
    { intros Heq. apply Hneid. unfold exec_id. by rewrite Heq. }
    split; [done|]. split; [done|]. unfold exec_id. f_equal.
    apply Hcell; [|done]. by destruct (He _ _ Ej). }
  assert (exec_id w' e' = exec_id w e) as Hself.
  { unfold exec_id at 1. by rewrite Ht. }
  assert (∀ j task, threads w !! j = Some (TCreate task) →
            task < length (heap w) ∧ task ≠ e_task e ∧
            taskmodel.ID (heap w !!! task) ≠ exec_id w e) as Hcreator.
  { intros j task Ej. destruct (Hn _ _ Ej) as (Hl & _ & _ & Hno & _).
    assert (taskmodel.ID (heap w !!! task) ≠ exec_id w e) as Hneid.
    { rewrite <- Hcid. intros Heq. by apply (Hno (e_tc e) Hvc). }
    split; [done|]. split; [|done]. intros ->. by apply Hneid. }
  apply inv_intro.
  - intros id l E.
    destruct (Hstore _ _ E) as [(-> & Hge & Hlt & Hk)|Eold].
    + split; [done|]. split; [by rewrite Hiss|done].
    + destruct (Hs _ _ Eold) as (Hl & Hi' & Hk). split; [lia|].
      split; [by rewrite Hiss|]. rewrite Hcell; [done..|]. by eapply Hsep.
  - rewrite Hctxs, Hreg. apply Hr.
  - rewrite Hctxs. intros c Hlt. destruct (Hc c Hlt) as (Hi' & Ho & Hfin).
    split; [by rewrite Hiss|]. split; [done|]. intros Hdone.
    destruct (Hfin Hdone) as [Hterm Hrt]. split; [done|].
    intros t Ht'. apply Hrt. apply Hrec; [|done].
    intros Heq. rewrite <- Hcid in Heq. apply Hcu in Heq; [|done..].
    subst c. congruence.
  - rewrite Hctxs. apply Hcu.
  - rewrite Hth.
    intros j ej [(<- & [= <-] & _)|[Hne Ej]]%list_lookup_insert_Some.
    + unfold exec_inv. rewrite Hctxs, Hself, Ht, Htc, Hopen.
      split; [lia|]. split; [done|]. split; [done|]. split; [|done].
      intros id l E.
      destruct (Hstore _ _ E) as [(_ & Hge & _)|Eold]; [lia|].
      by eapply Hsep.
    + destruct (Hother _ _ Hne Ej) as (Hnet & Hneid & Hsame).
      destruct (He _ _ Ej) as (Hvj & Hvcj & Hcidj & Hsepj & Hphasej).
      unfold exec_inv. rewrite Hctxs, Hsame, (Hcell (e_task ej)) by done.
      split; [lia|]. split; [done|]. split; [done|]. split.
      { intros id l E.
        destruct (Hstore _ _ E) as [(_ & Hge & _)|Eold]; [lia|].
        by eapply Hsepj. }
      eapply exec_phase_mono; [|done]. intros t. by apply Hrec.
  - rewrite Hth.
    assert (∀ j e1, <[i:=TExec e']> (threads w) !! j = Some (TExec e1) →
              ∃ e0, threads w !! j = Some (TExec e0) ∧ exec_id w' e1 = exec_id w e0)
      as Hold.
    { intros j e1 [(<- & [= <-] & _)|[Hne E]]%list_lookup_insert_Some.
      - by exists e.
      - exists e1. split; [done|]. by apply (Hother _ _ Hne E). }
    intros j1 j2 e1 e2 (e1' & E1 & H1)%Hold (e2' & E2 & H2)%Hold Heq.
    eapply Hu; [done..|]. rewrite <- H1, <- H2. exact Heq.
  - rewrite Hth.
    intros j id pc [(<- & [=] & _)|[Hne E]]%list_lookup_insert_Some.
    pose proof (Hd _ _ _ E) as Hdel. unfold delete_inv. by rewrite Hiss.
  - rewrite Hth.
    intros j task [(<- & [=] & _)|[Hne E]]%list_lookup_insert_Some.
    destruct (Hcreator _ _ E) as (Hl & Hnet & Hneid).
    pose proof (Hn _ _ E) as Hcr.
    apply (create_inv_weaken w); try done.
    + lia.
    + by apply Hcell.
    + by rewrite Hiss.
    + rewrite Hctxs. by destruct Hcr as (_ & _ & _ & ? & _).
    + intros t. by apply Hrec.
  - rewrite Hth.
    assert (∀ j task, <[i:=TExec e']> (threads w) !! j = Some (TCreate task) →
              threads w !! j = Some (TCreate task) ∧
              heap w' !!! task = heap w !!! task) as Hold.
    { intros j task [(<- & [=] & _)|[Hne E]]%list_lookup_insert_Some.
      split; [done|]. destruct (Hcreator _ _ E) as (Hl & Hnet & _).
      by apply Hcell. }
    intros j1 j2 task task' [E1 ->]%Hold [E2 ->]%Hold. by eapply Hnu.
Qed.

Lemma rec_write_task w l t' id :
  (∀ id' l', store w !! id' = Some l' → l' ≠ l) →
  rec (write_task l t' w) id = rec w id.
Proof. intros Hne. by apply stored_write. Qed.

Lemma inv_exec_assign w i e e' t' :
  inv w → threads w !! i = Some (TExec e) →
  Done (ctxs w !!! e_tc e) = false →
  taskmodel.ID t' = exec_id w e →
  e_task e' = e_task e → e_tc e' = e_tc e →
  exec_phase (e_pc e') (taskmodel.Status t') false (rec w (exec_id w e)) →
  inv (set_threads (<[i := TExec e']> (threads w)) (write_task (e_task e) t' w)).
Proof.
  intros Hinv Hi Hopen Hid Ht Htc Hphase.
  destruct (inv_exec _ Hinv _ _ Hi) as (Hv & _ & _ & Hsep & _).
  set (w' := write_task (e_task e) t' w).
  change (threads w) with (threads w').
  assert (heap w' !!! e_task e = t') as Hnew.
  { unfold heap. simpl. by rewrite list_lookup_total_insert_eq. }
  apply (inv_exec_memory w w' i e e'); try done.
  - unfold heap. simpl. by rewrite length_insert.
  - intros l Hl Hne. unfold heap. simpl. by rewrite list_lookup_total_insert_ne.
  - by rewrite Hnew.
  - intros id l E. by right.
  - rewrite Hnew. unfold w'. by rewrite rec_write_task.
Qed.

Lemma Update_Store_spec l s :
  taskrepository.Update_Store l s =
    taskrepository.mkState
      (taskrepository.heap s ++ [taskrepository.heap s !!! l])
      (<[taskmodel.ID (taskrepository.heap s !!! l) :=
           length (taskrepository.heap s)]> (taskrepository.store s)).
Proof. unfold taskrepository.Update_Store. by rewrite copyTask_at_spec. Qed.

Lemma rec_Update_Store w l id :
  l < length (heap w) →
  (∀ id' l', store w !! id' = Some l' → l' < length (heap w)) →
  rec (set_repo (taskrepository.Update_Store l (repo w)) w) id =
    if decide (id = taskmodel.ID (heap w !!! l)) then Some (heap w !!! l)
    else rec w id.
Proof.
  intros Hl Hv. unfold rec, taskrepository.stored. rewrite Update_Store_spec.
  simpl. fold (heap w) (store w). destruct (decide _) as [->|Hne].
  - rewrite lookup_insert_eq. simpl. by rewrite snoc_lookup_total_last.
  - rewrite lookup_insert_ne by done.
    destruct (store w !! id) as [l'|] eqn:E; [|done]. simpl.
    by rewrite lookup_total_app_l by by eapply Hv.
Qed.

Lemma inv_exec_store w i e pc' :
  inv w → threads w !! i = Some (TExec e) →
  Done (ctxs w !!! e_tc e) = false →
  exec_phase pc' (taskmodel.Status (heap w !!! e_task e)) false
             (Some (heap w !!! e_task e)) →
  inv (set_threads (<[i := TExec (set_pc pc' e)]> (threads w))
         (set_repo (taskrepository.Update_Store (e_task e) (repo w)) w)).
Proof.
  intros Hinv Hi Hopen Hphase.
  destruct (inv_exec _ Hinv _ _ Hi) as (Hv & _ & _ & Hsep & _).
  assert (∀ id' l', store w !! id' = Some l' → l' < length (heap w)) as Hval.
  { intros id' l' E. by destruct (inv_store _ Hinv _ _ E). }
  pose proof (rec_Update_Store w (e_task e) (exec_id w e) Hv Hval) as Hrec.
  revert Hrec. rewrite Update_Store_spec. fold (heap w) (store w).
  set (w' := set_repo _ w). intros Hrec.
  change (threads w) with (threads w').
  assert (heap w' = heap w ++ [heap w !!! e_task e]) as Hh by done.
  assert (store w' = <[taskmodel.ID (heap w !!! e_task e) := length (heap w)]>
                       (store w)) as Hst by done.
  assert (heap w' !!! e_task e = heap w !!! e_task e) as Hnew.
  { rewrite Hh. by rewrite lookup_total_app_l. }
  apply (inv_exec_memory w w' i e (set_pc pc' e)); try done.
  - rewrite Hh, length_app. lia.
  - intros l Hl Hne. rewrite Hh. by rewrite lookup_total_app_l.
  - by rewrite Hnew.
  - intros id l E. rewrite Hst in E.
    apply lookup_insert_Some in E as [[<- <-]|[Hne E]]; [left|by right].
    split; [done|]. split; [done|]. rewrite Hh, length_app. simpl.
    split; [lia|]. by rewrite snoc_lookup_total_last.
  - rewrite Hnew, Hrec. unfold exec_id. by rewrite decide_True.
Qed.

Lemma finalizeTask_assign_spec l st pt w :
  l < length (heap w) →
  finalizeTask_assign l st pt w =
    write_task l (set_ProcessingTime pt (taskmodel.set_Status st (heap w !!! l))) w.
Proof.
  intros Hl. unfold finalizeTask_assign, write_task, taskrepository.write.
  unfold heap. simpl. rewrite list_lookup_total_insert_eq by done.
  by rewrite list_insert_insert_eq.
Qed.

(** *** The invariant is kept by [markFinished] in [executeTask] *)

Lemma inv_mark w i e st :
  inv w → threads w !! i = Some (TExec e) → e_pc e = PMark st →
  inv (set_threads (<[i := TExec (set_pc PDeferWg e)]> (threads w))
         (write_ctx (e_tc e) (markFinished st (ctxs w !!! e_tc e)) w)).
Proof.
  intros [Hs Hr Hc Hcu He Hu Hd Hn Hnu] Hi Hpc.
  destruct (He _ _ Hi) as (Hv & Hvc & Hcid & Hsep & Hphase).
  rewrite Hpc in Hphase. destruct Hphase as (Hterm & Hopen & Hp).
  set (tc' := markFinished st (ctxs w !!! e_tc e)).
  set (w' := write_ctx (e_tc e) tc' w).
  change (threads w) with (threads w').
  assert (ID tc' = ID (ctxs w !!! e_tc e)) as HID
    by apply markFinished_frame.
  assert (∀ c, ID (ctxs w' !!! c) = ID (ctxs w !!! c)) as Hsame.
  { intros c. simpl. destruct (decide (c = e_tc e)) as [->|Hne].
    - by rewrite list_lookup_total_insert_eq.
    - by rewrite list_lookup_total_insert_ne. }
  assert (∀ j ej, i ≠ j → threads w !! j = Some (TExec ej) →
            ctxs w' !!! e_tc ej = ctxs w !!! e_tc ej) as Hother.
  { intros j ej Hne Ej. simpl. apply list_lookup_total_insert_ne.
    intros Heq. apply Hne. eapply Hu; [done..|].
    destruct (He _ _ Ej) as (_ & _ & <- & _). by rewrite <- Hcid, Heq. }
  apply inv_intro.
  - apply Hs.
  - intros id c E. destruct (Hr _ _ E) as [Hl Hk]. simpl. rewrite length_insert.
    split; [done|]. rewrite <- Hk. apply Hsame.
  - intros c Hl. simpl in Hl. rewrite length_insert in Hl.
    destruct (decide (c = e_tc e)) as [->|Hne].
    + simpl. rewrite list_lookup_total_insert_eq by done.
      destruct (Hc _ Hvc) as (Hin & _ & _). split; [by rewrite HID|].
      subst tc'. rewrite markFinished_Done, markFinished_Status.
      split; [done|]. intros _. split; [done|]. rewrite HID, Hcid. apply Hp.
    + simpl. rewrite list_lookup_total_insert_ne by done. by apply Hc.
  - intros c c' Hl Hl'. simpl in Hl, Hl'. rewrite length_insert in Hl, Hl'.
    rewrite !Hsame. by apply Hcu.
  - intros j ej [(<- & [= <-] & _)|[Hne Ej]]%list_lookup_insert_Some.
    + unfold exec_inv. simpl. rewrite length_insert.
      rewrite list_lookup_total_insert_eq by done.
      split; [done|]. split; [done|]. split; [by rewrite HID|]. split; [done|].
      apply markFinished_Done.
    + pose proof (He _ _ Ej) as Hej. unfold exec_inv in *.
      rewrite (Hother _ _ Hne Ej). simpl. by rewrite length_insert.
  - assert (∀ j e1, <[i:=TExec (set_pc PDeferWg e)]> (threads w) !! j = Some (TExec e1) →
              ∃ e0, threads w !! j = Some (TExec e0) ∧ exec_id w e1 = exec_id w e0)
      as Hold.
    { intros j e1 [(<- & [= <-] & _)|[Hne E]]%list_lookup_insert_Some; eauto. }
    intros j1 j2 e1 e2 (e1' & E1 & H1)%Hold (e2' & E2 & H2)%Hold Heq.
    eapply Hu; [done..|]. rewrite <- H1, <- H2. exact Heq.
  - intros j id pc [(<- & [=] & _)|[Hne E]]%list_lookup_insert_Some.
    by eapply Hd.
  - intros j task [(<- & [=] & _)|[Hne E]]%list_lookup_insert_Some.
    destruct (Hn _ _ E) as (Hl & Hin & Hst & Hno & Hrp).
    split_and!; try done.
    intros c Hlc. simpl in Hlc. rewrite length_insert in Hlc.
    rewrite Hsame. by apply Hno.
  - assert (∀ j task, <[i:=TExec (set_pc PDeferWg e)]> (threads w) !! j
                        = Some (TCreate task) →
              threads w !! j = Some (TCreate task)) as Hold.
    { by intros j task [(<- & [=] & _)|[Hne E]]%list_lookup_insert_Some. }
    intros j1 j2 task task' E1%Hold E2%Hold. by eapply Hnu.
Qed.

(** *** The invariant is kept by [CreateTask] with a new identifier *)

Lemma CreateTask_call_fresh id name w :
  store w !! id = None →
  CreateTask_call id name w =
    (let t := new_task id name (now w) in
     mkWorld
       (taskrepository.mkState (heap w ++ [t; t])
                               (<[id := S (length (heap w))]> (store w)))
       (ctxs w) (contexts w) (wg w) (threads w ++ [TCreate (length (heap w))])
       (now w) ({[id]} ∪ issued w)).
Proof.
  intros E. unfold CreateTask_call. by rewrite CreateTask_create_fresh.
Qed.

Lemma CreateTask_start_spec task w :
  CreateTask_start task w =
    mkWorld
      (taskrepository.mkState (heap w ++ [heap w !!! task]) (store w))
      (ctxs w ++ [mkTaskContext (taskmodel.ID (heap w !!! task)) (now w) false
                    StatusProcessing (now w + defaultTimeToProcessTask) false])
      (<[taskmodel.ID (heap w !!! task) := length (ctxs w)]> (contexts w))
      (wg w + 1)
      (threads w ++ [TExec (mkExec (length (heap w)) (length (ctxs w))
                                   PStart 0 0 0)])
      (now w) (issued w).
Proof. done. Qed.

Lemma inv_CreateTask_call w id name :
  inv w → id ∉ issued w → inv (CreateTask_call id name w).
Proof.
  intros [Hs Hr Hc Hcu He Hu Hd Hn Hnu] Hfresh.
  assert (store w !! id = None) as Hnone.
  { destruct (store w !! id) as [l|] eqn:E; [|done].
    by destruct (Hs _ _ E) as (_ & ? & _). }
  rewrite CreateTask_call_fresh by done. cbn zeta.
  set (t := new_task id name (now w)).
  set (len := length (heap w)).
  match goal with |- inv ?x => set (w' := x) end.
  assert (heap w' = heap w ++ [t; t]) as Hh by done.
  assert (store w' = <[id := S len]> (store w)) as Hst by done.
  assert (length (heap w') = S (S len)) as Hlen.
  { rewrite Hh, length_app. simpl. unfold len. lia. }
  assert (∀ l, l < len → heap w' !!! l = heap w !!! l) as Hcell.
  { intros l Hl. rewrite Hh. by apply lookup_total_app_l. }
  assert (heap w' !!! len = t ∧ heap w' !!! S len = t) as [Hn0 Hn1].
  { rewrite Hh. rewrite !lookup_total_app_r by (fold len; lia). fold len.
    rewrite Nat.sub_diag. by replace (S len - len) with 1 by lia. }
  assert (∀ id' t', rec w' id' = Some t' →
            (id' = id ∧ t' = t) ∨ (id' ≠ id ∧ rec w id' = Some t')) as Hrec.
  { intros id' t' (l & E & <-)%rec_Some. rewrite Hst in E.
    apply lookup_insert_Some in E as [[<- <-]|[Hne E]]; [by left|right].
    split; [done|]. apply rec_Some. exists l. split; [done|].
    symmetry. apply Hcell. by destruct (Hs _ _ E). }
  assert (∀ id' t', id' ∈ issued w → rec w' id' = Some t' → rec w id' = Some t')
    as Hrec'.
  { intros id' t' Hin [(-> & _)|(_ & ?)]%Hrec; done. }
  assert (∀ e, exec_inv w e →
            exec_id w' e = exec_id w e ∧ exec_id w e ∈ issued w) as Hid.
  { intros e (Ht & Htc & Hcid & _). unfold exec_id. rewrite Hcell by done.
    split; [done|]. fold (exec_id w e). rewrite <- Hcid.
    by destruct (Hc _ Htc). }
  split.
  - intros id' l E. rewrite Hst in E. rewrite Hlen.
    apply lookup_insert_Some in E as [[<- <-]|[Hne E]].
    + split; [lia|]. split; [by apply elem_of_union_l, elem_of_singleton|].
      by rewrite Hn1.
    + destruct (Hs _ _ E) as (Hl & Hin & Hk). split; [unfold len; lia|].
      split; [by apply elem_of_union_r|]. by rewrite Hcell.
  - apply Hr.
  - intros c Hl. destruct (Hc c Hl) as (Hin & Hopen & Hfin).
    split; [by apply elem_of_union_r|]. split; [done|]. intros Hdone.
    destruct (Hfin Hdone) as [Hterm Hrt]. split; [done|].
    intros t' Ht'. apply Hrt. by apply Hrec'.
  - apply Hcu.
  - intros j e E. simpl in E. apply lookup_app_Some in E as [E|[Hge E]].
    + pose proof (He _ _ E) as Hex. destruct (Hid _ Hex) as [Hsame Hin].
      destruct Hex as (Ht & Htc & Hcid & Hsep & Hphase).
      unfold exec_inv. rewrite Hsame, Hcell by done.
      split; [rewrite Hlen; unfold len; lia|]. split; [done|].
      split; [done|]. split.
      { intros id' l El. rewrite Hst in El.
        apply lookup_insert_Some in El as [[<- <-]|[Hne El]]; [unfold len; lia|].
        by eapply Hsep. }
      eapply exec_phase_mono; [|done]. intros t'. by apply Hrec'.
    + by destruct (j - length (threads w)) as [|[|?]].
  - intros j1 j2 e1 e2 E1 E2 Heq. simpl in E1, E2.
    apply lookup_app_Some in E1 as [E1|[Hge1 E1]];
      [|by destruct (j1 - length (threads w)) as [|[|?]]].
    apply lookup_app_Some in E2 as [E2|[Hge2 E2]];
      [|by destruct (j2 - length (threads w)) as [|[|?]]].
    destruct (Hid _ (He _ _ E1)) as [H1 _], (Hid _ (He _ _ E2)) as [H2 _].
    eapply Hu; [done..|]. by rewrite <- H1, <- H2.
  - intros j id' pc E. simpl in E. apply lookup_app_Some in E as [E|[Hge E]].
    + pose proof (Hd _ _ _ E) as Hdel. destruct pc; simpl in *; try done;
        by apply elem_of_union_r.
    + by destruct (j - length (threads w)) as [|[|?]].
  - intros j task E. simpl in E. apply lookup_app_Some in E as [E|[Hge E]].
    + pose proof (Hn _ _ E) as Hcr.
      destruct Hcr as (Hl & Hin & Hstt & Hno & Hrp).
      unfold create_inv. rewrite Hcell by done. split_and!; try done.
      * rewrite Hlen. unfold len. lia.
      * by apply elem_of_union_r.
      * intros t' Ht'. apply Hrp. by apply Hrec'.
    + destruct (j - length (threads w)) as [|[|?]]; [|done..].
      injection E as <-. fold len. unfold create_inv. rewrite Hn0.
      split_and!; try done.
      * lia.
      * by apply elem_of_union_l, elem_of_singleton.
      * intros c Hl Heq. destruct (Hc c Hl) as (Hin & _). simpl in Heq.
        by rewrite Heq in Hin.
      * intros t' [(_ & ->)|(Hbad & _)]%Hrec; done.
  - intros j1 j2 task task' E1 E2 Heq. simpl in E1, E2.
    apply lookup_app_Some in E1 as [E1|[Hge1 E1]];
      apply lookup_app_Some in E2 as [E2|[Hge2 E2]].
    + destruct (Hn _ _ E1) as (Hl1 & _), (Hn _ _ E2) as (Hl2 & _).
      rewrite !Hcell in Heq by done. by eapply Hnu.
    + destruct (j2 - length (threads w)) as [|[|?]]; [|done..].
      injection E2 as <-. destruct (Hn _ _ E1) as (Hl1 & Hin & _).
      fold len in Heq. rewrite Hn0, (Hcell task) in Heq by done. simpl in Heq.
      by rewrite Heq in Hin.
    + destruct (j1 - length (threads w)) as [|[|?]]; [|done..].
      injection E1 as <-. destruct (Hn _ _ E2) as (Hl2 & Hin & _).
      fold len in Heq. rewrite Hn0, (Hcell task') in Heq by done. simpl in Heq.
      by rewrite <- Heq in Hin.
    + destruct (j1 - length (threads w)) as [|[|?]] eqn:D1; [|done..].
      destruct (j2 - length (threads w)) as [|[|?]] eqn:D2; [|done..]. lia.
Qed.

Lemma inv_CreateTask_start w i task :
  inv w → threads w !! i = Some (TCreate task) →
  inv (set_threads (<[i := TExited]> (threads (CreateTask_start task w)))
         (CreateTask_start task w)).
Proof.
  intros [Hs Hr Hc Hcu He Hu Hd Hn Hnu] Hi.
  destruct (Hn _ _ Hi) as (Hl & Hin & Hstt & Hno & Hrp).
  rewrite CreateTask_start_spec.
  set (id := taskmodel.ID (heap w !!! task)) in *.
  set (tc := mkTaskContext id _ false StatusProcessing _ false).
  set (len := length (heap w)). set (clen := length (ctxs w)).
  match goal with |- inv (set_threads _ ?x) => set (w' := x) end.
  assert (heap w' = heap w ++ [heap w !!! task]) as Hh by done.
  assert (store w' = store w) as Hst by done.
  assert (ctxs w' = ctxs w ++ [tc]) as Hcs by done.
  assert (contexts w' = <[id := clen]> (contexts w)) as Hcx by done.
  assert (issued w' = issued w) as Hiss by done.
  assert (threads w' = threads w ++ [TExec (mkExec len clen PStart 0 0 0)])
    as Hth by done.
  assert (i < length (threads w)) as Hilt by by eapply lookup_lt_Some.
  rewrite Hth, insert_app_l by done.
  assert (∀ l, l < len → heap w' !!! l = heap w !!! l) as Hcell.
  { intros l Hlt. rewrite Hh. by apply lookup_total_app_l. }
  assert (heap w' !!! len = heap w !!! task) as Hnew.
  { rewrite Hh. apply snoc_lookup_total_last. }
  assert (∀ c, c < clen → ctxs w' !!! c = ctxs w !!! c) as Hccell.
  { intros c Hlt. rewrite Hcs. by apply lookup_total_app_l. }
  assert (ctxs w' !!! clen = tc) as Hnc.
  { rewrite Hcs. apply lookup_total_snoc_last. }
  assert (∀ id', rec w' id' = rec w id') as Hrec.
  { intros id'. unfold rec, taskrepository.stored. fold (store w') (store w).
    rewrite Hst. destruct (store w !! id') as [l|] eqn:E; [|done]. simpl.
    fold (heap w') (heap w). f_equal. apply Hcell. by destruct (Hs _ _ E). }
  assert (∀ e, exec_inv w e →
            exec_id w' e = exec_id w e ∧ exec_id w e ≠ id) as Hid.
  { intros e (Ht & Htc & Hcid & _). unfold exec_id. rewrite Hcell by done.
    split; [done|]. fold (exec_id w e). rewrite <- Hcid. by apply Hno. }
  assert (∀ j th, (<[i:=TExited]> (threads w) ++
                     [TExec (mkExec len clen PStart 0 0 0)]) !! j = Some th →
            (th = TExited ∧ j = i) ∨ (j ≠ i ∧ threads w !! j = Some th) ∨
            (j = length (threads w) ∧ th = TExec (mkExec len clen PStart 0 0 0)))
    as Hlook.
  { intros j th [E|[Hge E]]%lookup_app_Some.
    - apply list_lookup_insert_Some in E as [(<- & <- & _)|[Hne E]]; auto.
    - rewrite length_insert in Hge, E. right. right.
      destruct (j - length (threads w)) as [|[|?]] eqn:D; [|done..].
      injection E as <-. split; [lia|done]. }
  apply inv_intro.
  - intros id' l E. rewrite Hst in E. destruct (Hs _ _ E) as (Hlt & Hi' & Hk).
    rewrite Hh, length_app. split; [lia|]. split; [by rewrite Hiss|].
    rewrite <- Hh. by rewrite Hcell.
  - intros id' c E. rewrite Hcx in E. rewrite Hcs, length_app. simpl.
    rewrite <- Hcs. fold clen.
    apply lookup_insert_Some in E as [[<- <-]|[Hne E]].
    + split; [lia|]. by rewrite Hnc.
    + destruct (Hr _ _ E) as [Hlt Hk]. split; [unfold clen; lia|].
      by rewrite Hccell.
  - intros c Hlt. rewrite Hcs, length_app in Hlt. simpl in Hlt. fold clen in Hlt.
    destruct (decide (c = clen)) as [->|Hne].
    + rewrite Hnc. by split_and!.
    + assert (c < clen) as Hlt' by lia. rewrite Hccell by done.
      destruct (Hc c Hlt') as (Hi' & Hopen & Hfin). split; [by rewrite Hiss|].
      split; [done|]. intros Hdone. destruct (Hfin Hdone) as [Hterm Hrt].
      split; [done|]. intros t'. rewrite Hrec. apply Hrt.
  - intros c c' Hlt Hlt' Heq. rewrite Hcs, length_app in Hlt, Hlt'.
    simpl in Hlt, Hlt'. fold clen in Hlt, Hlt'.
    destruct (decide (c = clen)) as [->|Hne], (decide (c' = clen)) as [->|Hne'];
      [done| | |].
    + rewrite Hnc, Hccell in Heq by lia. simpl in Heq. symmetry in Heq.
      apply Hno in Heq; [done|unfold clen in *; lia].
    + rewrite Hnc, Hccell in Heq by lia. simpl in Heq.
      apply Hno in Heq; [done|unfold clen in *; lia].
    + rewrite !Hccell in Heq by lia. apply Hcu; [unfold clen in *; lia..|done].
  - intros j e [[? _]|[[Hne E]|[_ [= ->]]]]%Hlook; [done| |].
    + pose proof (He _ _ E) as Hex. destruct (Hid _ Hex) as [Hsame Hneid].
      destruct Hex as (Ht & Htc & Hcid & Hsep & Hphase).
      unfold exec_inv. rewrite Hsame, Hcell, Hccell, Hrec by done.
      split; [rewrite Hh, length_app; lia|].
      split; [rewrite Hcs, length_app; lia|]. split; [done|]. split; [|done].
      intros id' l El. rewrite Hst in El. by eapply Hsep.
    + unfold exec_inv, exec_id. simpl e_task. simpl e_tc. simpl e_pc.
      rewrite Hnew, Hnc, Hrec.
      split; [rewrite Hh, length_app; simpl; fold len; lia|].
      split; [rewrite Hcs, length_app; simpl; fold clen; lia|].
      split; [done|]. split; [|by split_and!].
      intros id' l El. rewrite Hst in El. destruct (Hs _ _ El) as (Hlt & _).
      unfold len. lia.
  - intros j1 j2 e1 e2 [[? _]|[[Hne1 E1]|[-> [= ->]]]]%Hlook
      [[? _]|[[Hne2 E2]|[-> [= ->]]]]%Hlook Heq; try done.
    + destruct (Hid _ (He _ _ E1)) as [H1 _], (Hid _ (He _ _ E2)) as [H2 _].
      eapply Hu; [done..|]. by rewrite <- H1, <- H2.
    + destruct (Hid _ (He _ _ E1)) as [H1 Hneid]. rewrite H1 in Heq.
      unfold exec_id at 2 in Heq. simpl in Heq. by rewrite Hnew in Heq.
    + destruct (Hid _ (He _ _ E2)) as [H2 Hneid]. rewrite H2 in Heq.
      unfold exec_id at 1 in Heq. simpl in Heq. rewrite Hnew in Heq.
      by symmetry in Heq.
  - intros j id' pc [[? _]|[[Hne E]|[_ ?]]]%Hlook; [done| |done].
    pose proof (Hd _ _ _ E) as Hdel. unfold delete_inv. by rewrite Hiss.
  - intros j task' [[? _]|[[Hne E]|[_ ?]]]%Hlook; [done| |done].
    destruct (Hn _ _ E) as (Hl' & Hin' & Hstt' & Hno' & Hrp').
    unfold create_inv. rewrite Hcell, Hrec by done. split_and!; try done.
    + rewrite Hh, length_app. lia.
    + intros c Hlt. rewrite Hcs, length_app in Hlt. simpl in Hlt. fold clen in Hlt.
      destruct (decide (c = clen)) as [->|Hnec].
      * rewrite Hnc. simpl. intros Heq. apply Hne.
        by eapply (Hnu j i task' task).
      * rewrite Hccell by lia. apply Hno'. unfold clen in *. lia.
  - intros j1 j2 task1 task2 [[? _]|[[Hne1 E1]|[_ ?]]]%Hlook
      [[? _]|[[Hne2 E2]|[_ ?]]]%Hlook; try done.
    destruct (Hn _ _ E1) as (Hl1 & _), (Hn _ _ E2) as (Hl2 & _).
    rewrite !Hcell by done. by eapply Hnu.
Qed.

(** *** Every step keeps the invariant *)

Lemma same_signal_refl tc : same_signal tc tc.
Proof. done. Qed.

Lemma same_signal_Cancel tc : same_signal tc (Cancel tc).
Proof. done. Qed.

Lemma inv_weaken_thread w w' i th th' :
  inv w →
  (∀ l, l < length (heap w) →
        l < length (heap w') ∧ heap w' !!! l = heap w !!! l) →
  (∀ id l, store w' !! id = Some l → store w !! id = Some l) →
  (∀ id c, contexts w' !! id = Some c → contexts w !! id = Some c) →
  threads w' = threads w →
  issued w ⊆ issued w' →
  length (ctxs w') = length (ctxs w) →
  (∀ c, same_signal (ctxs w !!! c) (ctxs w' !!! c)) →
  threads w !! i = Some th →
  (inv w' → thread_ok w' th th') →
  inv (set_threads (<[i := th']> (threads w')) w').
Proof.
  intros Hinv H1 H2 H3 H4 H5 H6 H7 Hi Hok.
  assert (inv w') as Hinv' by by eapply inv_weaken.
  apply (inv_set_thread w' i th th'); [done|by rewrite H4|by apply Hok].
Qed.

Lemma exec_finalize_spec st pt e w :
  e_task e < length (heap w) →
  exec_finalize st pt e w =
    (write_task (e_task e)
       (set_ProcessingTime pt (taskmodel.set_Status st (heap w !!! e_task e))) w,
     TExec (set_pc (after_finalize_Load w (exec_id w e) st) e)).
Proof.
  intros Hl. unfold exec_finalize. rewrite finalizeTask_assign_spec by done.
  f_equal. f_equal. f_equal.
  unfold taskrepository.Update_Load, after_finalize_Load, write_task. simpl.
  fold (heap w). rewrite list_lookup_total_insert_eq by done. simpl.
  fold (store w). unfold exec_id. by destruct (store w !! _).
Qed.

Lemma exec_tick_spec e w :
  e_task e < length (heap w) →
  exec_tick e w =
    (let elapsed := (now w - e_start e)%Z in
     let e1 := mkExec (e_task e) (e_tc e) (e_pc e) (e_work e) (e_start e)
                      (e_tick e + tickerPeriod) in
     let t1 := set_ProcessingTime elapsed (heap w !!! e_task e) in
     if bool_decide (e_work e ≤ elapsed)%Z then
       (write_task (e_task e)
          (set_ProcessingTime elapsed (taskmodel.set_Status StatusDone t1)) w,
        TExec (set_pc (after_finalize_Load w (exec_id w e) StatusDone) e1))
     else
       (write_task (e_task e) t1 w,
        TExec (set_pc (after_update_Load w (exec_id w e) elapsed) e1))).
Proof.
  intros Hl. unfold exec_tick, time.Since. cbn zeta. cbn [e_task e_work e_start].
  case_bool_decide.
  - rewrite exec_finalize_spec
      by (unfold heap, write_task; simpl; by rewrite length_insert).
    cbn [e_task]. f_equal.
    + unfold write_task, taskrepository.write, heap. simpl.
      rewrite list_lookup_total_insert_eq by done.
      by rewrite !list_insert_insert_eq.
    + f_equal. f_equal. unfold after_finalize_Load, exec_id, write_task, heap, store.
      simpl. by rewrite list_lookup_total_insert_eq.
  - f_equal. f_equal. f_equal.
    unfold taskrepository.Update_Load, after_update_Load, write_task. simpl.
    fold (heap w). rewrite list_lookup_total_insert_eq by done. simpl.
    fold (store w). unfold exec_id. by destruct (store w !! _).
Qed.

Lemma inv_exec_finalize w i e e1 st pt :
  inv w → threads w !! i = Some (TExec e) →
  e_pc e = PLoop ∨ (∃ elapsed, e_pc e = PUpdateFailed elapsed) →
  terminal st → e_task e1 = e_task e → e_tc e1 = e_tc e →
  inv (set_threads
         (<[i := TExec (set_pc (after_finalize_Load w (exec_id w e) st) e1)]>
            (threads w))
         (write_task (e_task e)
            (set_ProcessingTime pt (taskmodel.set_Status st (heap w !!! e_task e)))
            w)).
Proof.
  intros Hinv Hi Hpc Hterm Ht Htc.
  destruct (inv_exec _ Hinv _ _ Hi) as (Hv & Hvc & Hcid & Hsep & Hphase).
  assert (Done (ctxs w !!! e_tc e) = false ∧
          ∀ t, rec w (exec_id w e) = Some t →
               taskmodel.Status t = StatusProcessing) as [Hopen Hp].
  { destruct Hpc as [Epc|[el Epc]]; rewrite Epc in Hphase;
      by destruct Hphase as (_ & ? & ?). }
  apply inv_exec_assign; try done. simpl. unfold after_finalize_Load.
  destruct (store w !! exec_id w e) as [l|] eqn:E; simpl.
  - by split_and!.
  - split_and!; try done. intros t Hrt.
    apply rec_None in E. congruence.
Qed.

(** The goroutines of a world reached by a step of one of them. *)
Local Ltac st_threads w :=
  match goal with
  | |- inv (set_threads (<[_ := _]> (threads ?x)) _) =>
      change (threads x) with (threads w)
  end.

Lemma inv_executeTask_step w i e ev w1 th' :
  inv w → threads w !! i = Some (TExec e) →
  executeTask_step ev e w = Some (w1, th') →
  inv (set_threads (<[i := th']> (threads w1)) w1).
Proof.
  intros Hinv Hi Hstep. pose proof (inv_exec _ Hinv _ _ Hi) as Hex.
  destruct Hex as (Hv & Hvc & Hcid & Hsep & Hphase).
  unfold executeTask_step in Hstep.
  destruct (e_pc e) eqn:Epc, ev; try done.
  - (* the duration is drawn *)
    case_bool_decide; [|done]. injection Hstep as <- <-.
    apply (inv_set_thread w i (TExec e)); [done..|].
    split; [done|]. split; [done|]. by unfold exec_inv.
  - (* cancellation observed *)
    destruct (ctx_done _ _); [|done]. unfold exec_cancelled in Hstep.
    rewrite exec_finalize_spec in Hstep by done. injection Hstep as <- <-.
    st_threads w. apply inv_exec_finalize; try done; [by left|by right].
  - (* a tick *)
    case_bool_decide; [|done]. rewrite exec_tick_spec in Hstep by done.
    cbn zeta in Hstep. case_bool_decide; injection Hstep as <- <-.
    + st_threads w.
      apply (inv_exec_finalize w i e
               (mkExec (e_task e) (e_tc e) (e_pc e) (e_work e) (e_start e)
                       (e_tick e + tickerPeriod)) StatusDone); try done;
        [by left|by left].
    + st_threads w. destruct Hphase as (Hst & Hopen & Hp).
      apply inv_exec_assign; try done. simpl. unfold after_update_Load.
      by destruct (store w !! exec_id w e).
  - (* the [Store] of the update *)
    injection Hstep as <- <-. st_threads w. destruct Hphase as (Hst & Hopen & Hp).
    apply inv_exec_store; try done. split_and!; try done. by intros t [= <-].
  - (* the update had failed *)
    unfold exec_update_failed in Hstep.
    rewrite exec_finalize_spec in Hstep by done. injection Hstep as <- <-.
    st_threads w. apply inv_exec_finalize; try done; [right; by eexists|by right].
  - (* the [Store] of [finalizeTask] *)
    injection Hstep as <- <-. st_threads w.
    destruct Hphase as (Hterm & Hst & Hopen & Hp).
    apply inv_exec_store; try done. split_and!; try done.
    intros t [= <-]. by rewrite Hst.
  - (* markFinished *)
    injection Hstep as <- <-. st_threads w. by apply inv_mark.
  - (* wg.Done *)
    injection Hstep as <- <-.
    by apply (inv_weaken_thread w _ i (TExec e)).
  - (* the guarded markFinished of the deferred function *)
    injection Hstep as <- <-.
    unfold IsFinished. rewrite Hphase. simpl.
    apply (inv_set_thread w i (TExec e)); [done..|].
    split; [done|]. split; [done|]. by unfold exec_inv.
  - (* contexts.Delete *)
    injection Hstep as <- <-.
    apply (inv_weaken_thread w _ i (TExec e)); try done.
    simpl. intros id c [_ E]%lookup_delete_Some. done.
Qed.

Lemma inv_DeleteTask_step w i taskID pc w1 th' :
  inv w → threads w !! i = Some (TDelete taskID pc) →
  DeleteTask_step taskID pc w = Some (w1, th') →
  inv (set_threads (<[i := th']> (threads w1)) w1).
Proof.
  intros Hinv Hi Hstep. pose proof (inv_delete _ Hinv _ _ _ Hi) as Hdel.
  destruct pc; simpl in Hstep.
  - (* the existence check *)
    unfold DeleteTask_check in Hstep.
    destruct (store w !! taskID) as [l|] eqn:E; unfold store in E.
    + rewrite (GetByID_found _ l) in Hstep by done. injection Hstep as <- <-.
      apply (inv_weaken_thread w _ i (TDelete taskID DCheck)); try done.
      * intros l' Hl'. unfold heap in *. simpl. rewrite length_app.
        split; [lia|]. by apply lookup_total_app_l.
      * intros _. simpl. by destruct (inv_store _ Hinv _ _ E) as (_ & ? & _).
    + rewrite GetByID_missing in Hstep by done. injection Hstep as <- <-.
      rewrite set_repo_id. by apply (inv_set_thread w i (TDelete taskID DCheck)).
  - (* cancel and remove from the registry *)
    injection Hstep as <- <-. unfold DeleteTask_cancel, loadTaskContext.
    destruct (contexts w !! taskID) as [c|] eqn:E.
    + apply (inv_weaken_thread w _ i (TDelete taskID DCancel)); try done.
      * simpl. intros id c' [_ E']%lookup_delete_Some. done.
      * simpl. by rewrite length_insert.
      * intros c'. simpl. destruct (decide (c' = c)) as [->|Hne].
        -- destruct (decide (c < length (ctxs w))).
           ++ rewrite list_lookup_total_insert_eq by done. apply same_signal_Cancel.
           ++ rewrite list_insert_ge by lia. apply same_signal_refl.
        -- rewrite list_lookup_total_insert_ne by done. apply same_signal_refl.
    + by apply (inv_set_thread w i (TDelete taskID DCancel)).
  - (* the [Load] of [repo.Delete] *)
    destruct (taskrepository.Delete_Load taskID (repo w));
      injection Hstep as <- <-;
      by apply (inv_set_thread w i (TDelete taskID DDelete)).
  - (* the record is deleted *)
    injection Hstep as <- <-.
    apply (inv_weaken_thread w _ i (TDelete taskID DDeleting)); try done.
    unfold store. simpl. intros id l' [_ E']%lookup_delete_Some. done.
  - done.
Qed.

Lemma inv_cancel_unfinished w kv : inv w → inv (cancel_unfinished w kv).
Proof.
  intros Hinv. unfold cancel_unfinished.
  destruct (negb (IsFinished (ctxs w !!! kv.2))); [|done].
  eapply inv_weaken; try done.
  - simpl. by rewrite length_insert.
  - intros c. simpl. destruct (decide (c = kv.2)) as [->|Hne].
    + destruct (decide (kv.2 < length (ctxs w))).
      * rewrite list_lookup_total_insert_eq by done. apply same_signal_Cancel.
      * rewrite list_insert_ge by lia. apply same_signal_refl.
    + rewrite list_lookup_total_insert_ne by done. apply same_signal_refl.
Qed.

Lemma inv_step w w' : inv w → step w w' → inv w'.
Proof.
  intros Hinv Hstep.
  destruct Hstep
    as [t Ht|id name Hfresh|taskID| |id c Hc|taskID|i th ev w1 th' Hi Hstep].
  - by eapply inv_weaken.
  - by apply inv_CreateTask_call.
  - destruct (store w !! taskID) as [l|] eqn:E.
    + rewrite (GetTask_found _ l) by done. eapply inv_weaken; try done.
      intros l' Hl'. unfold heap in *. simpl. rewrite length_app.
      split; [lia|]. by apply lookup_total_app_l.
    + by rewrite GetTask_missing.
  - rewrite ListTasks_spec
      by (intros id l E; by destruct (inv_store _ Hinv _ _ E)).
    eapply inv_weaken; try done.
    intros l' Hl'. unfold heap in *. simpl. rewrite length_app.
    split; [lia|]. by apply lookup_total_app_l.
  - by apply inv_cancel_unfinished.
  - by apply inv_new_delete_call.
  - destruct th as [e|task|taskID pc|]; simpl in Hstep; [| | |done].
    + by eapply inv_executeTask_step.
    + injection Hstep as <- <-. by apply inv_CreateTask_start.
    + by eapply inv_DeleteTask_step.
Qed.

Lemma reachable_inv w : reachable w → inv w.
Proof.
  induction 1 as [|w w' _ IH Hstep]; [apply inv_NewService|by eapply inv_step].
Qed.

Lemma steps_inv w w' : inv w → steps w w' → inv w'.
Proof.
  intros Hinv. induction 1 as [|w1 w2 _ IH Hstep]; [done|by eapply inv_step].
Qed.

(** *** What a step does to the records and the contexts *)

Lemma quiet_refl w : quiet w w.
Proof. repeat split; auto. Qed.

Lemma quiet_heap_app w ts :
  quiet w (set_repo (taskrepository.mkState (heap w ++ ts) (store w)) w).
Proof.
  split; [|repeat split; auto].
  intros l Hl. unfold heap in *. simpl. rewrite length_app.
  split; [lia|]. by apply lookup_total_app_l.
Qed.

Lemma kind_assign_intro w i e e' t' :
  threads w !! i = Some (TExec e) → taskmodel.ID t' = exec_id w e →
  step_kind w (set_threads (<[i := TExec e']> (threads w))
                 (write_task (e_task e) t' w)).
Proof. intros. by eapply (kind_assign _ _ i e t'). Qed.

Lemma kind_store_intro w i e e' :
  threads w !! i = Some (TExec e) →
  e_pc e = PUpdating ∨ (∃ st, e_pc e = PFinalizing st) →
  step_kind w (set_threads (<[i := TExec e']> (threads w))
                 (set_repo (taskrepository.Update_Store (e_task e) (repo w)) w)).
Proof. intros. by eapply (kind_store _ _ i e). Qed.

Local Ltac sk_threads w :=
  match goal with
  | |- step_kind _ (set_threads (<[_ := _]> (threads ?x)) _) =>
      change (threads x) with (threads w)
  end.

Lemma step_classify w w' : inv w → step w w' → step_kind w w'.
Proof.
  intros Hinv Hstep.
  destruct Hstep
    as [t Ht|id name Hfresh|taskID| |id c Hc|taskID|i th ev w1 th' Hi Hstep].
  - apply kind_quiet, (quiet_refl w).
  - by eapply kind_create.
  - apply kind_quiet. destruct (store w !! taskID) as [l|] eqn:E.
    + rewrite (GetTask_found _ l) by done. apply quiet_heap_app.
    + rewrite GetTask_missing by done. apply quiet_refl.
  - apply kind_quiet.
    rewrite ListTasks_spec
      by (intros id l E; by destruct (inv_store _ Hinv _ _ E)).
    apply quiet_heap_app.
  - apply kind_quiet. unfold cancel_unfinished.
    destruct (negb (IsFinished (ctxs w !!! (id, c).2))); [|apply quiet_refl].
    split; [done|]. split; [done|]. split; [done|]. split; [done|].
    split; [simpl; by rewrite length_insert|].
    intros c'. simpl. destruct (decide (c' = c)) as [->|Hne].
    + destruct (decide (c < length (ctxs w))).
      * right. by rewrite list_lookup_total_insert_eq.
      * left. by rewrite list_insert_ge by lia.
    + left. by rewrite list_lookup_total_insert_ne.
  - apply kind_quiet, (quiet_refl w).
  - destruct th as [e|task|taskID pc|]; simpl in Hstep; [| | |done];
      [|injection Hstep as <- <-; by eapply kind_start|].
    + pose proof (inv_exec _ Hinv _ _ Hi) as (Hv & Hvc & Hcid & Hsep & Hphase).
      unfold executeTask_step in Hstep.
      destruct (e_pc e) eqn:Epc, ev; try done.
      * case_bool_decide; [|done]. injection Hstep as <- <-.
        apply kind_quiet, (quiet_refl w).
      * destruct (ctx_done _ _); [|done]. unfold exec_cancelled in Hstep.
        rewrite exec_finalize_spec in Hstep by done. injection Hstep as <- <-.
        sk_threads w; by apply kind_assign_intro.
      * case_bool_decide; [|done]. rewrite exec_tick_spec in Hstep by done.
        cbn zeta in Hstep.
        case_bool_decide; injection Hstep as <- <-; sk_threads w; by apply kind_assign_intro.
      * injection Hstep as <- <-. sk_threads w. apply kind_store_intro; [done|by left].
      * unfold exec_update_failed in Hstep.
        rewrite exec_finalize_spec in Hstep by done. injection Hstep as <- <-.
        sk_threads w; by apply kind_assign_intro.
      * injection Hstep as <- <-. sk_threads w. apply kind_store_intro; [done|right; by eexists].
      * injection Hstep as <- <-. by eapply kind_mark.
      * injection Hstep as <- <-. apply kind_quiet. repeat split; auto.
      * injection Hstep as <- <-. apply kind_quiet.
        unfold IsFinished. rewrite Hphase. apply (quiet_refl w).
      * injection Hstep as <- <-. apply kind_quiet. repeat split; auto.
        simpl. intros id c [_ E]%lookup_delete_Some. done.
    + destruct pc; simpl in Hstep.
      * unfold DeleteTask_check in Hstep.
        destruct (store w !! taskID) as [l|] eqn:E; unfold store in E.
        -- rewrite (GetByID_found _ l) in Hstep by done. injection Hstep as <- <-.
           apply kind_quiet, (quiet_heap_app w).
        -- rewrite GetByID_missing in Hstep by done. injection Hstep as <- <-.
           rewrite set_repo_id. apply kind_quiet, (quiet_refl w).
      * injection Hstep as <- <-. apply kind_quiet.
        unfold DeleteTask_cancel, loadTaskContext.
        destruct (contexts w !! taskID) as [c|] eqn:E; [|apply (quiet_refl w)].
        split; [done|]. split; [done|]. split.
        { simpl. intros id c' [_ E']%lookup_delete_Some. done. }
        split; [done|]. split; [simpl; by rewrite length_insert|].
        intros c'. simpl. destruct (decide (c' = c)) as [->|Hne].
        -- destruct (decide (c < length (ctxs w))).
           ++ right. by rewrite list_lookup_total_insert_eq.
           ++ left. by rewrite list_insert_ge by lia.
        -- left. by rewrite list_lookup_total_insert_ne.
      * destruct (taskrepository.Delete_Load taskID (repo w));
          injection Hstep as <- <-; apply kind_quiet, (quiet_refl w).
      * injection Hstep as <- <-.
        apply kind_quiet. split; [done|]. split; [|repeat split; auto].
        unfold store. simpl. intros id l' [_ E']%lookup_delete_Some. done.
      * done.
Qed.

Lemma rec_quiet w w' id t :
  inv w → quiet w w' → rec w' id = Some t → rec w id = Some t.
Proof.
  intros Hinv (Hheap & Hstore & _) (l & E & <-)%rec_Some.
  apply rec_Some. exists l. apply Hstore in E. split; [done|].
  symmetry. apply Hheap. by destruct (inv_store _ Hinv _ _ E).
Qed.

Lemma rec_CreateTask_call w id name id' t :
  inv w → id ∉ issued w →
  rec (CreateTask_call id name w) id' = Some t →
  (id' = id ∧ taskmodel.Status t = StatusProcessing) ∨
  (id' ≠ id ∧ rec w id' = Some t).
Proof.
  intros Hinv Hfresh.
  assert (store w !! id = None) as Hnone.
  { destruct (store w !! id) as [l|] eqn:E; [|done].
    by destruct (inv_store _ Hinv _ _ E) as (_ & ? & _). }
  rewrite CreateTask_call_fresh by done. cbn zeta.
  intros (l & E & <-)%rec_Some. unfold store, heap in E |- *. simpl in *.
  apply lookup_insert_Some in E as [[<- <-]|[Hne E]].
  - left. split; [done|]. rewrite lookup_total_app_r by lia.
    by replace (S _ - _) with 1 by lia.
  - right. split; [done|]. apply rec_Some. exists l. split; [done|].
    destruct (inv_store _ Hinv _ _ E) as (Hl & _). by rewrite lookup_total_app_l.
Qed.

Lemma rec_CreateTask_start w ths task id :
  inv w → rec (set_threads ths (CreateTask_start task w)) id = rec w id.
Proof.
  intros Hinv. unfold rec, taskrepository.stored. simpl.
  fold (store w). destruct (store w !! id) as [l|] eqn:E; [|done]. simpl.
  fold (heap w). f_equal. apply lookup_total_app_l.
  by destruct (inv_store _ Hinv _ _ E).
Qed.

Lemma step_issued w w' : inv w → step w w' → issued w ⊆ issued w'.
Proof.
  intros Hinv Hstep.
  destruct (step_classify _ _ Hinv Hstep)
    as [(_ & _ & _ & -> & _)|i e t' _ _ _ _ _ ->|i e _ _ _ _ _ ->
        |i e st _ _ _ _ _ ->|id name Hfresh ->|i task _ ->]; [done..| |done].
  destruct (store w !! id) as [l|] eqn:E.
  { by destruct (inv_store _ Hinv _ _ E) as (_ & ? & _). }
  rewrite CreateTask_call_fresh by done. simpl. apply union_subseteq_r.
Qed.

(** The stored record of a task changes its status only from PROCESSING
    to DONE or FAILED; a record that appears is PROCESSING and has an
    identifier never issued before, or is stored by a goroutine of
    [executeTask] that was inside an [Update]. *)
Lemma step_rec w w' id t :
  inv w → step w w' → rec w' id = Some t →
  (∃ t0, rec w id = Some t0 ∧
     (taskmodel.Status t = taskmodel.Status t0 ∨
      (taskmodel.Status t0 = StatusProcessing ∧ terminal (taskmodel.Status t)))) ∨
  (id ∉ issued w ∧ taskmodel.Status t = StatusProcessing) ∨
  (rec w id = None ∧
   ∃ i e, threads w !! i = Some (TExec e) ∧ exec_id w e = id ∧ in_Update (e_pc e)).
Proof.
  intros Hinv Hstep Hrec.
  destruct (step_classify _ _ Hinv Hstep)
    as [Hq|i e t' Hi Hid Hrepo _ _ _|i e Hi Hpc Hrepo _ _ _|i e st _ _ _ Hrepo _ _
        |id' name Hfresh ->|i task Hi ->].
  - left. exists t. split; [by eapply rec_quiet|by left].
  - left. exists t. split; [|by left]. unfold rec in Hrec. rewrite Hrepo in Hrec.
    destruct (inv_exec _ Hinv _ _ Hi) as (_ & _ & _ & Hsep & _).
    by rewrite <- (rec_write_task w (e_task e) t').
  - destruct (inv_exec _ Hinv _ _ Hi) as (Hv & _ & _ & _ & Hphase).
    assert (rec w' id = if decide (id = exec_id w e)
                        then Some (heap w !!! e_task e) else rec w id) as Hr.
    { unfold rec at 1. rewrite Hrepo. apply (rec_Update_Store w); [done|].
      intros id' l' E. by destruct (inv_store _ Hinv _ _ E). }
    rewrite Hr in Hrec. destruct (decide _) as [->|Hne];
      [|left; exists t; split; [done|by left]].
    injection Hrec as <-.
    destruct (rec w (exec_id w e)) as [t0|] eqn:E0;
      [left|right; right; split; [done|]; by exists i, e].
    exists t0. split; [done|].
    destruct Hpc as [Epc|[st Epc]]; rewrite Epc in Hphase.
    + destruct Hphase as (-> & _ & Hp). left. symmetry. by apply Hp.
    + destruct Hphase as (Hterm & -> & _ & Hp). right. split; [by apply Hp|done].
  - left. exists t. split; [|by left]. unfold rec in *. by rewrite <- Hrepo.
  - apply rec_CreateTask_call in Hrec as [[-> HP]|[_ Hold]];
      [right; by left| |done..].
    left. exists t. split; [done|by left].
  - rewrite rec_CreateTask_start in Hrec by done.
    left. exists t. split; [done|by left].
Qed.

(** The status of the context registered for a task changes only from
    PROCESSING to DONE or FAILED; a context that appears is PROCESSING, and
    no context had been made for its task before. *)
Lemma step_ctx w w' id c :
  inv w → step w w' → contexts w' !! id = Some c →
  (contexts w !! id = Some c ∧
     (Status (ctxs w' !!! c) = Status (ctxs w !!! c) ∨
      (Status (ctxs w !!! c) = StatusProcessing ∧
       terminal (Status (ctxs w' !!! c))))) ∨
  (contexts w !! id = None ∧ Status (ctxs w' !!! c) = StatusProcessing ∧
   ∀ c0, c0 < length (ctxs w) → ID (ctxs w !!! c0) ≠ id).
Proof.
  intros Hinv Hstep Hc.
  destruct (step_classify _ _ Hinv Hstep)
    as [(_ & _ & Hreg & _ & _ & Hcell)|i e t' _ _ _ Hctxs Hreg _
        |i e _ _ _ Hctxs Hreg _|i e st Hi Hpc Hctxs _ Hreg _|id' name Hfresh ->
        |i task Hi ->].
  - left. split; [by apply Hreg|]. left.
    by destruct (Hcell c) as [-> | ->].
  - left. rewrite Hreg in Hc. split; [done|]. left. by rewrite Hctxs.
  - left. rewrite Hreg in Hc. split; [done|]. left. by rewrite Hctxs.
  - left. rewrite Hreg in Hc. split; [done|]. rewrite Hctxs.
    destruct (inv_exec _ Hinv _ _ Hi) as (_ & Hvc & _ & _ & Hphase).
    rewrite Hpc in Hphase. destruct Hphase as (Hterm & Hopen & _).
    destruct (decide (c = e_tc e)) as [->|Hne].
    + right. rewrite list_lookup_total_insert_eq by done.
      rewrite markFinished_Status. split; [|done].
      by apply (inv_ctx _ Hinv _ Hvc).
    + left. by rewrite list_lookup_total_insert_ne.
  - assert (store w !! id' = None) as Hnone.
    { destruct (store w !! id') as [l|] eqn:E; [|done].
      by destruct (inv_store _ Hinv _ _ E) as (_ & ? & _). }
    rewrite CreateTask_call_fresh in Hc |- * by done. simpl in *.
    left. split; [done|by left].
  - simpl in Hc |- *.
    apply lookup_insert_Some in Hc as [[<- <-]|[Hne Hc]].
    + right. rewrite lookup_total_snoc_last.
      destruct (inv_create _ Hinv _ _ Hi) as (_ & _ & _ & Hno & _).
      split; [|done].
      destruct (contexts w !! taskmodel.ID (heap w !!! task)) as [c0|] eqn:E0;
        [|done].
      destruct (inv_registry _ Hinv _ _ E0) as [Hl Hk].
      by destruct (Hno c0 Hl).
    + left. split; [done|]. left.
      destruct (inv_registry _ Hinv _ _ Hc) as [Hl _].
      by rewrite lookup_total_app_l.
Qed.

(** A finished context stays as it is. *)
Lemma step_ctx_finished w w' c :
  inv w → step w w' → c < length (ctxs w) → Done (ctxs w !!! c) = true →
  c < length (ctxs w') ∧ same_signal (ctxs w !!! c) (ctxs w' !!! c).
Proof.
  intros Hinv Hstep Hl Hdone.
  destruct (step_classify _ _ Hinv Hstep)
    as [(_ & _ & _ & _ & Hlen & Hcell)|i e t' _ _ _ Hctxs _ _
        |i e _ _ _ Hctxs _ _|i e st Hi Hpc Hctxs _ _ _|id' name Hfresh ->
        |i task Hi ->].
  - split; [lia|]. destruct (Hcell c) as [-> | ->];
      [apply same_signal_refl|apply same_signal_Cancel].
  - rewrite Hctxs. split; [done|apply same_signal_refl].
  - rewrite Hctxs. split; [done|apply same_signal_refl].
  - rewrite Hctxs, length_insert. split; [done|].
    destruct (inv_exec _ Hinv _ _ Hi) as (_ & _ & _ & _ & Hphase).
    rewrite Hpc in Hphase. destruct Hphase as (_ & Hopen & _).
    rewrite list_lookup_total_insert_ne; [apply same_signal_refl|].
    intros <-. congruence.
  - assert (store w !! id' = None) as Hnone.
    { destruct (store w !! id') as [l|] eqn:E; [|done].
      by destruct (inv_store _ Hinv _ _ E) as (_ & ? & _). }
    rewrite CreateTask_call_fresh by done. simpl.
    split; [done|apply same_signal_refl].
  - simpl. rewrite length_app. split; [lia|].
    rewrite lookup_total_app_l by done. apply same_signal_refl.
Qed.

(** No step changes the identifier of a context. *)
Lemma step_ctx_ID w w' c :
  inv w → step w w' → c < length (ctxs w) →
  c < length (ctxs w') ∧ ID (ctxs w' !!! c) = ID (ctxs w !!! c).
Proof.
  intros Hinv Hstep Hl.
  destruct (step_classify _ _ Hinv Hstep)
    as [(_ & _ & _ & _ & Hlen & Hcell)|i e t' _ _ _ Hctxs _ _
        |i e _ _ _ Hctxs _ _|i e st Hi Hpc Hctxs _ _ _|id' name Hfresh ->
        |i task Hi ->].
  - split; [lia|]. by destruct (Hcell c) as [-> | ->].
  - by rewrite Hctxs.
  - by rewrite Hctxs.
  - rewrite Hctxs, length_insert. split; [done|].
    destruct (decide (c = e_tc e)) as [->|Hne].
    + rewrite list_lookup_total_insert_eq by done.
      by destruct (markFinished_frame st (ctxs w !!! e_tc e)) as (-> & _).
    + by rewrite list_lookup_total_insert_ne.
  - assert (store w !! id' = None) as Hnone.
    { destruct (store w !! id') as [l|] eqn:E; [|done].
      by destruct (inv_store _ Hinv _ _ E) as (_ & ? & _). }
    by rewrite CreateTask_call_fresh by done.
  - simpl. rewrite length_app. split; [lia|].
    by rewrite lookup_total_app_l.
Qed.

(** No step changes the identifier kept in a task cell. *)
Lemma step_heap_ID w w' l :
  inv w → step w w' → l < length (heap w) →
  taskmodel.ID (heap w' !!! l) = taskmodel.ID (heap w !!! l).
Proof.
  intros Hinv Hstep Hl.
  destruct (step_classify _ _ Hinv Hstep)
    as [(Hheap & _)|i e t' Hi Hid Hrepo _ _ _|i e Hi Hpc Hrepo _ _ _
        |i e st _ _ _ Hrepo _ _|id' name Hfresh ->|i task Hi ->].
  - by destruct (Hheap l Hl) as [_ ->].
  - unfold heap at 1. rewrite Hrepo. simpl. fold (heap w).
    destruct (decide (l = e_task e)) as [->|Hne].
    + by rewrite list_lookup_total_insert_eq.
    + by rewrite list_lookup_total_insert_ne.
  - unfold heap at 1. rewrite Hrepo, Update_Store_spec. simpl.
    by rewrite lookup_total_app_l.
  - unfold heap at 1. by rewrite Hrepo.
  - assert (store w !! id' = None) as Hnone.
    { destruct (store w !! id') as [l'|] eqn:E; [|done].
      by destruct (inv_store _ Hinv _ _ E) as (_ & ? & _). }
    rewrite CreateTask_call_fresh by done. unfold heap at 1. simpl.
    by rewrite lookup_total_app_l.
  - unfold heap at 1. simpl. by rewrite lookup_total_app_l.
Qed.

(** *** Properties that, once true, stay true *)

Lemma steps_issued w w' : inv w → steps w w' → issued w ⊆ issued w'.
Proof.
  intros Hinv. induction 1 as [|w1 w2 Hsteps IH Hstep]; [done|].
  etrans; [exact IH|]. eapply step_issued; [|done]. by eapply steps_inv.
Qed.

Lemma steps_ctx_finished w w' c :
  inv w → steps w w' → c < length (ctxs w) → Done (ctxs w !!! c) = true →
  c < length (ctxs w') ∧ same_signal (ctxs w !!! c) (ctxs w' !!! c).
Proof.
  intros Hinv Hsteps Hl Hdone.
  induction Hsteps as [|w1 w2 Hsteps [IHl (E1 & E2 & E3)] Hstep];
    [split; [done|apply same_signal_refl]|].
  destruct (step_ctx_finished w1 w2 c) as [Hl2 (F1 & F2 & F3)];
    [by eapply steps_inv|done..|congruence|].
  split; [done|]. unfold same_signal. split_and!; congruence.
Qed.

(** Once the context made for a task is no longer registered, no context
    is registered for the task again. *)
Lemma steps_unregistered w w' id c :
  inv w → steps w w' → c < length (ctxs w) → ID (ctxs w !!! c) = id →
  contexts w !! id = None →
  c < length (ctxs w') ∧ ID (ctxs w' !!! c) = id ∧ contexts w' !! id = None.
Proof.
  intros Hinv Hsteps Hl Hk Hnone.
  induction Hsteps as [|w1 w2 Hsteps (IHl & IHk & IHn) Hstep]; [done|].
  assert (inv w1) as Hinv1 by by eapply steps_inv.
  destruct (step_ctx_ID w1 w2 c Hinv1 Hstep IHl) as [Hl2 Hk2].
  split; [done|]. split; [congruence|].
  destruct (contexts w2 !! id) as [c'|] eqn:E; [|done].
  apply (step_ctx w1) in E as [(Hold & _)|(_ & _ & Hno)]; [congruence| |done..].
  by destruct (Hno c IHl).
Qed.

Lemma steps_trans w1 w2 w3 : steps w1 w2 → steps w2 w3 → steps w1 w3.
Proof. intros H12. induction 1; [done|]. by eapply steps_step. Qed.

Lemma reachable_steps w w' : reachable w → steps w w' → reachable w'.
Proof. intros Hr. induction 1; [done|]. by eapply reachable_step. Qed.

(** *** What a step does to the goroutines *)

Lemma after_finalize_Load_in_Update w id st :
  in_Update (after_finalize_Load w id st) → is_Some (store w !! id).
Proof.
  unfold after_finalize_Load. destruct (store w !! id); [by eexists|].
  by intros [?|[? ?]].
Qed.

Lemma after_update_Load_in_Update w id elapsed :
  in_Update (after_update_Load w id elapsed) → is_Some (store w !! id).
Proof.
  unfold after_update_Load. destruct (store w !! id); [by eexists|].
  by intros [?|[? ?]].
Qed.

Lemma after_finalize_Load_stored_last w id st :
  ¬ stored_last (after_finalize_Load w id st) → is_Some (store w !! id).
Proof.
  unfold after_finalize_Load. destruct (store w !! id); [by eexists|].
  simpl. by intros [].
Qed.

(** A step of [executeTask] leaves the list of goroutines alone and the
    goroutine on its cells; past its last [Store] the goroutine stays past
    it; it enters an [Update] only when the [Load] finds the record. *)
Lemma executeTask_step_frame ev e w w1 th' :
  e_task e < length (heap w) →
  executeTask_step ev e w = Some (w1, th') →
  threads w1 = threads w ∧
  match th' with
  | TExec e' =>
      e_task e' = e_task e ∧ e_tc e' = e_tc e ∧
      (stored_last (e_pc e) → stored_last (e_pc e')) ∧
      (in_Update (e_pc e') → is_Some (store w !! exec_id w e))
  | TExited => True
  | TCreate _ | TDelete _ _ => False
  end.
Proof.
  intros Hv Hstep. unfold executeTask_step in Hstep.
  destruct (e_pc e) eqn:Epc, ev; try done.
  - case_bool_decide; [|done]. injection Hstep as <- <-.
    split; [done|]. split_and!; try done. by intros [?|[? ?]].
  - destruct (ctx_done _ _); [|done]. unfold exec_cancelled in Hstep.
    rewrite exec_finalize_spec in Hstep by done. injection Hstep as <- <-.
    split; [done|]. split_and!; try done. apply after_finalize_Load_in_Update.
  - case_bool_decide; [|done]. rewrite exec_tick_spec in Hstep by done.
    cbn zeta in Hstep. case_bool_decide; injection Hstep as <- <-.
    + split; [done|]. split_and!; try done. apply after_finalize_Load_in_Update.
    + split; [done|]. split_and!; try done. apply after_update_Load_in_Update.
  - injection Hstep as <- <-. split; [done|]. split_and!; try done.
    by intros [?|[? ?]].
  - unfold exec_update_failed in Hstep.
    rewrite exec_finalize_spec in Hstep by done. injection Hstep as <- <-.
    split; [done|]. split_and!; try done. apply after_finalize_Load_in_Update.
  - injection Hstep as <- <-. split; [done|]. split_and!; try done.
    by intros [?|[? ?]].
  - injection Hstep as <- <-. split; [done|]. split_and!; try done.
    by intros [?|[? ?]].
  - injection Hstep as <- <-. split; [done|]. split_and!; try done.
    by intros [?|[? ?]].
  - injection Hstep as <- <-. split.
    { by destruct (negb _). }
    split_and!; try done. by intros [?|[? ?]].
  - by injection Hstep as <- <-.
Qed.

Lemma DeleteTask_step_frame taskID pc w w1 th' :
  DeleteTask_step taskID pc w = Some (w1, th') →
  threads w1 = threads w ∧ ∃ pc', th' = TDelete taskID pc'.
Proof.
  intros Hstep. destruct pc; simpl in Hstep.
  - unfold DeleteTask_check, taskrepository.GetByID in Hstep.
    destruct (taskrepository.store (repo w) !! taskID);
      injection Hstep as <- <-; split; try done; by eexists.
  - injection Hstep as <- <-. split; [|by eexists].
    unfold DeleteTask_cancel. by destruct (loadTaskContext taskID w).
  - destruct (taskrepository.Delete_Load taskID (repo w));
      injection Hstep as <- <-; split; try done; by eexists.
  - injection Hstep as <- <-. split; [done|by eexists].
  - done.
Qed.

(** A goroutine of [executeTask] found after a step was there before
    the step and has not moved, or has taken a step of [executeTask], or
    was started by a [CreateTask] call for its task. *)
Lemma step_track w w' j e' :
  inv w → step w w' → threads w' !! j = Some (TExec e') →
  threads w !! j = Some (TExec e') ∨
  (∃ e ev w1, threads w !! j = Some (TExec e) ∧
     executeTask_step ev e w = Some (w1, TExec e')) ∨
  (∃ i task, threads w !! i = Some (TCreate task) ∧
     exec_id w' e' = taskmodel.ID (heap w !!! task) ∧ e_pc e' = PStart).
Proof.
  intros Hinv Hstep Hj.
  destruct Hstep
    as [t Ht|id name Hfresh|taskID| |id c Hc|taskID|i th ev w1 th' Hi Hstep].
  - by left.
  - assert (store w !! id = None) as Hnone.
    { destruct (store w !! id) as [l|] eqn:E; [|done].
      by destruct (inv_store _ Hinv _ _ E) as (_ & ? & _). }
    rewrite CreateTask_call_fresh in Hj by done. simpl in Hj.
    apply lookup_app_Some in Hj as [E|[Hge E]]; [by left|].
    by destruct (j - length (threads w)) as [|[|?]].
  - left. destruct (store w !! taskID) as [l|] eqn:E.
    + by rewrite (GetTask_found _ l) in Hj by done.
    + by rewrite GetTask_missing in Hj by done.
  - left. by rewrite ListTasks_spec in Hj
      by (intros id l E; by destruct (inv_store _ Hinv _ _ E)).
  - left. unfold cancel_unfinished in Hj. by destruct (negb _).
  - simpl in Hj. apply lookup_app_Some in Hj as [E|[_ E]]; [by left|].
    by destruct (j - length (threads w)) as [|[|?]].
  - destruct th as [e|task|taskID pc|]; simpl in Hstep; [| | |done].
    + destruct (executeTask_step_frame ev e w w1 th') as [Hth _]; [|done|].
      { by destruct (inv_exec _ Hinv _ _ Hi). }
      simpl in Hj. rewrite Hth in Hj.
      apply list_lookup_insert_Some in Hj as [(<- & -> & _)|[Hne E]]; [|by left].
      right. left. by exists e, ev, w1.
    + injection Hstep as <- <-. simpl in Hj.
      assert (i < length (threads w)) as Hilt by by eapply lookup_lt_Some.
      rewrite insert_app_l in Hj by done.
      apply lookup_app_Some in Hj as [E|[Hge E]].
      * apply list_lookup_insert_Some in E as [(_ & [=] & _)|[Hne E]]. by left.
      * rewrite length_insert in Hge, E.
        destruct (j - length (threads w)) as [|[|?]]; [|done..].
        injection E as <-. right. right. exists i, task. split; [done|].
        split; [|done]. unfold exec_id, heap. simpl.
        by rewrite snoc_lookup_total_last.
    + destruct (DeleteTask_step_frame _ _ _ _ _ Hstep) as [Hth [pc' ->]].
      simpl in Hj. rewrite Hth in Hj.
      apply list_lookup_insert_Some in Hj as [(<- & [=] & _)|[Hne E]]. by left.
Qed.

(** A [CreateTask] call past [s.repo.Create] found after a step was
    there before the step, or has just been given a new identifier. *)
Lemma step_track_create w w' j task :
  inv w → step w w' → threads w' !! j = Some (TCreate task) →
  threads w !! j = Some (TCreate task) ∨
  taskmodel.ID (heap w' !!! task) ∉ issued w.
Proof.
  intros Hinv Hstep Hj.
  destruct Hstep
    as [t Ht|id name Hfresh|taskID| |id c Hc|taskID|i th ev w1 th' Hi Hstep].
  - by left.
  - assert (store w !! id = None) as Hnone.
    { destruct (store w !! id) as [l|] eqn:E; [|done].
      by destruct (inv_store _ Hinv _ _ E) as (_ & ? & _). }
    rewrite CreateTask_call_fresh in Hj |- * by done. simpl in Hj.
    apply lookup_app_Some in Hj as [E|[Hge E]]; [by left|].
    destruct (j - length (threads w)) as [|[|?]]; [|done..].
    injection E as <-. right. unfold heap. simpl.
    rewrite lookup_total_app_r by done. by rewrite Nat.sub_diag.
  - left. destruct (store w !! taskID) as [l|] eqn:E.
    + by rewrite (GetTask_found _ l) in Hj by done.
    + by rewrite GetTask_missing in Hj by done.
  - left. by rewrite ListTasks_spec in Hj
      by (intros id l E; by destruct (inv_store _ Hinv _ _ E)).
  - left. unfold cancel_unfinished in Hj. by destruct (negb _).
  - simpl in Hj. apply lookup_app_Some in Hj as [E|[_ E]]; [by left|].
    by destruct (j - length (threads w)) as [|[|?]].
  - left. destruct th as [e|task0|taskID pc|]; simpl in Hstep; [| | |done].
    + destruct (executeTask_step_frame ev e w w1 th') as [Hth Hth']; [|done|].
      { by destruct (inv_exec _ Hinv _ _ Hi). }
      simpl in Hj. rewrite Hth in Hj.
      apply list_lookup_insert_Some in Hj as [(<- & -> & _)|[Hne E]]; done.
    + injection Hstep as <- <-. simpl in Hj.
      assert (i < length (threads w)) as Hilt by by eapply lookup_lt_Some.
      rewrite insert_app_l in Hj by done.
      apply lookup_app_Some in Hj as [E|[Hge E]].
      * by apply list_lookup_insert_Some in E as [(_ & [=] & _)|[Hne E]].
      * rewrite length_insert in Hge, E.
        by destruct (j - length (threads w)) as [|[|?]].
    + destruct (DeleteTask_step_frame _ _ _ _ _ Hstep) as [Hth [pc' ->]].
      simpl in Hj. rewrite Hth in Hj.
      by apply list_lookup_insert_Some in Hj as [(<- & [=] & _)|[Hne E]].
Qed.

Lemma step_exec_id w w' e :
  inv w → step w w' → e_task e < length (heap w) → exec_id w' e = exec_id w e.
Proof. intros. by apply step_heap_ID. Qed.

Lemma step_settled w w' id : inv w → step w w' → settled w id → settled w' id.
Proof.
  intros Hinv Hstep (Hin & Hrec & Hth & Hcr). split_and!.
  - by eapply step_issued.
  - intros t Ht.
    apply (step_rec w) in Ht
      as [(t0 & Ht0 & [-> |[Hp _]])|[[Hbad _]|(_ & i & e & Hi & Hid & Hpc)]];
      try done.
    + by apply Hrec.
    + apply Hrec in Ht0. by apply terminal_not_processing in Ht0.
    + pose proof (Hth _ _ Hi Hid) as Hlast.
      by destruct Hpc as [Epc|[st Epc]]; rewrite Epc in Hlast.
  - intros j e' Hj Hid.
    destruct (step_track _ _ _ _ Hinv Hstep Hj)
      as [Hold|[(e & ev & w1 & Hold & Hs)|(i & task & Hi & Hnew & _)]].
    + apply (Hth _ _ Hold). rewrite <- Hid. symmetry.
      apply step_exec_id; [done..|]. by destruct (inv_exec _ Hinv _ _ Hold).
    + destruct (inv_exec _ Hinv _ _ Hold) as (Hv & _).
      destruct (executeTask_step_frame _ _ _ _ _ Hv Hs) as (_ & Ht & _ & Hl & _).
      apply Hl, (Hth _ _ Hold). rewrite <- Hid. unfold exec_id. rewrite Ht.
      symmetry. by apply step_heap_ID.
    + destruct (Hcr _ _ Hi). congruence.
  - intros j task Hj Hid.
    destruct (step_track_create _ _ _ _ Hinv Hstep Hj) as [Hold|Hnew].
    + apply (Hcr _ _ Hold). rewrite <- Hid. symmetry.
      apply step_heap_ID; [done..|]. by destruct (inv_create _ Hinv _ _ Hold).
    + by rewrite Hid in Hnew.
Qed.

Lemma steps_settled w w' id : inv w → steps w w' → settled w id → settled w' id.
Proof.
  intros Hinv Hsteps Hs. induction Hsteps as [|w1 w2 Hsteps IH Hstep]; [done|].
  eapply step_settled; [by eapply steps_inv|done..].
Qed.

Lemma step_gone w w' id : inv w → step w w' → gone w id → gone w' id.
Proof.
  intros Hinv Hstep (Hin & Hrec & Hth). split_and!.
  - by eapply step_issued.
  - destruct (rec w' id) as [t|] eqn:Ht; [|done].
    apply (step_rec w) in Ht
      as [(t0 & Ht0 & _)|[[Hbad _]|(_ & i & e & Hi & Hid & Hpc)]]; try done.
    + congruence.
    + by destruct (Hth _ _ Hi Hid).
  - intros j e' Hj Hid.
    destruct (step_track _ _ _ _ Hinv Hstep Hj)
      as [Hold|[(e & ev & w1 & Hold & Hs)|(i & task & _ & _ & Epc)]].
    + apply (Hth _ _ Hold). rewrite <- Hid. symmetry.
      apply step_exec_id; [done..|]. by destruct (inv_exec _ Hinv _ _ Hold).
    + destruct (inv_exec _ Hinv _ _ Hold) as (Hv & _).
      destruct (executeTask_step_frame _ _ _ _ _ Hv Hs) as (_ & Ht & _ & _ & Hu).
      intros [l E]%Hu.
      assert (exec_id w e = id) as Heq.
      { rewrite <- Hid. unfold exec_id. rewrite Ht. symmetry.
        by apply step_heap_ID. }
      rewrite Heq in E. apply rec_None in Hrec. congruence.
    + rewrite Epc. by intros [?|[? ?]].
Qed.

Lemma steps_gone w w' id : inv w → steps w w' → gone w id → gone w' id.
Proof.
  intros Hinv Hsteps Hs. induction Hsteps as [|w1 w2 Hsteps IH Hstep]; [done|].
  eapply step_gone; [by eapply steps_inv|done..].
Qed.

(** A task whose stored record is DONE or FAILED is settled, and so is a
    task whose registered context is finished. *)
Lemma settled_rec w id t :
  inv w → rec w id = Some t → terminal (taskmodel.Status t) → settled w id.
Proof.
  intros Hinv Hrec Hterm. split_and!.
  - apply rec_Some in Hrec as (l & E & _).
    by destruct (inv_store _ Hinv _ _ E) as (_ & ? & _).
  - intros t' Ht'. congruence.
  - intros i e Hi <-. destruct (inv_exec _ Hinv _ _ Hi) as (_ & _ & _ & _ & Hph).
    apply terminal_not_processing in Hterm.
    destruct (e_pc e); simpl in *; try done.
    + destruct Hph as (_ & _ & Hp). by apply Hp in Hrec.
    + destruct Hph as (_ & _ & Hp). by apply Hp in Hrec.
    + destruct Hph as (_ & _ & Hp). by apply Hp in Hrec.
    + destruct Hph as (_ & _ & Hp). by apply Hp in Hrec.
    + destruct Hph as (_ & _ & _ & Hp). by apply Hp in Hrec.
  - intros i task Hi <-. destruct (inv_create _ Hinv _ _ Hi) as (_ & _ & _ & _ & Hp).
    apply terminal_not_processing in Hterm. by apply Hp in Hrec.
Qed.

Lemma settled_ctx w id c :
  inv w → c < length (ctxs w) → ID (ctxs w !!! c) = id →
  Done (ctxs w !!! c) = true → settled w id.
Proof.
  intros Hinv Hl Hk Hdone.
  destruct (inv_ctx _ Hinv _ Hl) as (Hin & _ & Hfin).
  rewrite Hk in Hin, Hfin. destruct (Hfin Hdone) as [_ Hrt]. split_and!; [done..| |].
  - intros i e Hi Hid.
    destruct (inv_exec _ Hinv _ _ Hi) as (_ & Hvc & Hcid & _ & Hph).
    assert (e_tc e = c) as Heq.
    { apply (inv_ctx_unique _ Hinv); [done..|]. by rewrite Hcid, Hk. }
    rewrite Heq, Hdone in Hph.
    destruct (e_pc e); simpl in *; try done; by destruct_and!.
  - intros i task Hi Hid.
    destruct (inv_create _ Hinv _ _ Hi) as (_ & _ & _ & Hno & _).
    apply (Hno c Hl). by rewrite Hk.
Qed.

(** *** The runs *)

Lemma step_run_thread i ev w :
  match threads w !! i with
  | Some th => if thread_step ev th w then True else False
  | None => False
  end →
  step w (run_thread i ev w).
Proof.
  unfold run_thread.
  destruct (threads w !! i) as [th|] eqn:Ei; [|done].
  destruct (thread_step ev th w) as [[w' th']|] eqn:Es; [|done].
  intros _. by eapply step_thread.
Qed.

Local Ltac run_step := apply step_run_thread; by vm_compute.

Lemma world_created_reachable : reachable world_created.
Proof.
  eapply reachable_step; [|run_step].
  eapply reachable_step; [apply reachable_init|].
  apply (step_CreateTask NewService 5 "Beta"). apply not_elem_of_empty.
Qed.

Lemma world_started_reachable : reachable world_started.
Proof.
  eapply reachable_step; [apply world_created_reachable|].
  apply step_run_thread. by vm_compute.
Qed.

Lemma world_finalized_reachable : reachable world_finalized.
Proof.
  eapply reachable_step; [|apply step_run_thread; by vm_compute].
  eapply reachable_step; [|apply step_run_thread; by vm_compute].
  eapply reachable_step; [apply world_started_reachable|].
  apply (step_clock world_started (3 * time.Minute)). by vm_compute.
Qed.

(** *** The terminal-state invariant *)

Lemma not_processing_terminal (o : option Task) :
  (∀ t, o = Some t → terminal (taskmodel.Status t)) →
  taskmodel.Status <$> o ≠ Some StatusProcessing.
Proof.
  intros H. destruct o as [t|]; [|done]. simpl. intros [= Heq].
  by apply (terminal_not_processing _ (H t eq_refl)).
Qed.

Lemma reads_rec_terminal w taskID :
  inv w →
  (∀ t, rec w taskID = Some t → terminal (taskmodel.Status t)) →
  GetTask_status taskID w ≠ Some StatusProcessing ∧
  StatusProcessing ∉ ListTasks_statuses taskID w.
Proof.
  intros Hinv Hterm. split.
  - rewrite GetTask_status_rec. by apply not_processing_terminal.
  - rewrite ListTasks_statuses_rec
      by (intros id l E; by destruct (inv_store _ Hinv _ _ E) as (? & _ & ?)).
    by apply not_processing_terminal.
Qed.

(** C3, as the code has it.  In every reachable state: once [GetTask] or
    [ListTasks] has shown a task as DONE or FAILED, neither of them shows
    it as PROCESSING in any later state; once [GetTaskStatus] has shown
    it as DONE or FAILED, none of the three reads shows it as PROCESSING
    in any later state; and in one step the status a read shows changes
    only from PROCESSING to DONE or to FAILED. *)
Theorem terminal_status_is_final w taskID :
  reachable w →
  (∀ st, terminal st →
     GetTask_status taskID w = Some st ∨ st ∈ ListTasks_statuses taskID w →
     ∀ w', steps w w' →
       GetTask_status taskID w' ≠ Some StatusProcessing ∧
       StatusProcessing ∉ ListTasks_statuses taskID w') ∧
  (∀ st, terminal st → GetTaskStatus_status taskID w = Some st →
     ∀ w', steps w w' →
       GetTaskStatus_status taskID w' ≠ Some StatusProcessing ∧
       GetTask_status taskID w' ≠ Some StatusProcessing ∧
       StatusProcessing ∉ ListTasks_statuses taskID w') ∧
  (∀ w' st st', step w w' →
     (GetTask_status taskID w = Some st → GetTask_status taskID w' = Some st' →
        st' = st ∨ (st = StatusProcessing ∧ terminal st')) ∧
     (GetTaskStatus_status taskID w = Some st →
      GetTaskStatus_status taskID w' = Some st' →
        st' = st ∨ (st = StatusProcessing ∧ terminal st'))).
Proof.
  intros Hinv%reachable_inv.
  assert (∀ id l, store w !! id = Some l →
            l < length (heap w) ∧ taskmodel.ID (heap w !!! l) = id) as Hsv.
  { intros id l E. by destruct (inv_store _ Hinv _ _ E) as (? & _ & ?). }
  split; [|split].
  - intros st Hterm Hread w' Hsteps.
    assert (taskmodel.Status <$> rec w taskID = Some st) as Hrec.
    { destruct Hread as [Hread|Hread].
      - by rewrite <- GetTask_status_rec.
      - by apply ListTasks_statuses_rec. }
    destruct (rec w taskID) as [t|] eqn:E; [|done].
    simpl in Hrec. injection Hrec as <-.
    apply reads_rec_terminal; [by eapply steps_inv|].
    by apply (steps_settled w w' taskID Hinv Hsteps (settled_rec _ _ _ Hinv E Hterm)).
  - intros st Hterm Hread w' Hsteps.
    rewrite GetTaskStatus_status_spec in Hread.
    destruct (contexts w !! taskID) as [c|] eqn:Ec; [|done].
    simpl in Hread. injection Hread as Hst.
    destruct (inv_registry _ Hinv _ _ Ec) as [Hl Hk].
    destruct (inv_ctx _ Hinv _ Hl) as (Hin & Hopen & Hfin).
    assert (Done (ctxs w !!! c) = true) as Hdone.
    { destruct (Done (ctxs w !!! c)); [done|].
      rewrite Hopen in Hst by done. subst st.
      by apply terminal_not_processing in Hterm. }
    destruct (steps_ctx_finished w w' c Hinv Hsteps Hl Hdone)
      as [Hl' (F1 & F2 & F3)].
    assert (inv w') as Hinv' by by eapply steps_inv.
    split.
    + rewrite GetTaskStatus_status_spec.
      destruct (contexts w' !! taskID) as [c'|] eqn:Ec'; [|done]. simpl.
      intros [= Hbad].
      destruct (inv_registry _ Hinv' _ _ Ec') as [Hlc' Hk'].
      assert (c' = c) as Heq.
      { apply (inv_ctx_unique _ Hinv'); [done..|]. by rewrite Hk', F1. }
      rewrite Heq, F3, Hst in Hbad. subst st.
      by apply terminal_not_processing in Hterm.
    + apply reads_rec_terminal; [done|].
      by apply (steps_settled w w' taskID Hinv Hsteps
                  (settled_ctx _ _ _ Hinv Hl Hk Hdone)).
  - intros w' st st' Hstep. split.
    + rewrite !GetTask_status_rec. intros Hr Hr'.
      destruct (rec w' taskID) as [t'|] eqn:E'; [|done].
      simpl in Hr'. injection Hr' as <-.
      apply (step_rec w) in E' as [(t0 & Ht0 & Hcase)|[[Hbad _]|[Hnone _]]];
        [| | |done..].
      * rewrite Ht0 in Hr. simpl in Hr. injection Hr as <-.
        destruct Hcase as [->|[-> ?]]; auto.
      * destruct (rec w taskID) as [t0|] eqn:E0; [|done].
        apply rec_Some in E0 as (l & E0 & _).
        by destruct (inv_store _ Hinv _ _ E0) as (_ & ? & _).
      * by rewrite Hnone in Hr.
    + rewrite !GetTaskStatus_status_spec. intros Hr Hr'.
      destruct (contexts w' !! taskID) as [c'|] eqn:E'; [|done].
      simpl in Hr'. injection Hr' as <-.
      apply (step_ctx w) in E' as [(Hold & Hcase)|[Hnone _]]; [| |done..].
      * rewrite Hold in Hr. simpl in Hr. injection Hr as <-.
        destruct Hcase as [->|[-> ?]]; auto.
      * by rewrite Hnone in Hr.
Qed.

Lemma terminal_status_is_final_witness :
  reachable world_finalized ∧
  GetTask_status 5 world_finalized = Some StatusDone ∧
  ∀ w', steps world_finalized w' →
    GetTask_status 5 w' ≠ Some StatusProcessing ∧
    StatusProcessing ∉ ListTasks_statuses 5 w'.
Proof.
  split; [exact world_finalized_reachable|]. split; [reflexivity|].
  destruct (terminal_status_is_final world_finalized 5 world_finalized_reachable)
    as (Hread & _).
  apply (Hread StatusDone); [by left|]. left. reflexivity.
Defined.

(** C3, as the claim states it, fails for [GetTaskStatus]: after the
    goroutine's [finalizeTask] has stored DONE and before its
    [markFinished] has run, [GetTask] and [ListTasks] show DONE while
    [GetTaskStatus] still shows PROCESSING. *)
Lemma status_DONE_then_GetTaskStatus_PROCESSING :
  reachable world_finalized ∧
  GetTask_status 5 world_finalized = Some StatusDone ∧
  ListTasks_statuses 5 world_finalized = [StatusDone] ∧
  steps world_finalized world_finalized ∧
  GetTaskStatus_status 5 world_finalized = Some StatusProcessing.
Proof.
  split; [exact world_finalized_reachable|]. split; [reflexivity|].
  split; [reflexivity|]. split; [apply steps_refl|reflexivity].
Qed.

(** *** [DeleteTask] *)

Lemma step_cancelled w w' c :
  inv w → step w w' → c < length (ctxs w) →
  c < length (ctxs w') ∧
  (ctxCancelled (ctxs w !!! c) = true → ctxCancelled (ctxs w' !!! c) = true).
Proof.
  intros Hinv Hstep Hl.
  destruct (step_classify _ _ Hinv Hstep)
    as [(_ & _ & _ & _ & Hlen & Hcell)|i e t' _ _ _ Hctxs _ _
        |i e _ _ _ Hctxs _ _|i e st Hi Hpc Hctxs _ _ _|id' name Hfresh ->
        |i task Hi ->].
  - split; [lia|]. by destruct (Hcell c) as [-> | ->].
  - by rewrite Hctxs.
  - by rewrite Hctxs.
  - rewrite Hctxs, length_insert. split; [done|].
    destruct (decide (c = e_tc e)) as [->|Hne].
    + rewrite list_lookup_total_insert_eq by done.
      by destruct (markFinished_frame st (ctxs w !!! e_tc e)) as (_ & _ & _ & ->).
    + by rewrite list_lookup_total_insert_ne.
  - assert (store w !! id' = None) as Hnone.
    { destruct (store w !! id') as [l|] eqn:E; [|done].
      by destruct (inv_store _ Hinv _ _ E) as (_ & ? & _). }
    by rewrite CreateTask_call_fresh by done.
  - simpl. rewrite length_app. split; [lia|]. by rewrite lookup_total_app_l.
Qed.

Lemma steps_cancelled w w' c :
  inv w → steps w w' → c < length (ctxs w) →
  ctxCancelled (ctxs w !!! c) = true →
  c < length (ctxs w') ∧ ctxCancelled (ctxs w' !!! c) = true.
Proof.
  intros Hinv Hsteps Hl Hc.
  induction Hsteps as [|w1 w2 Hsteps [IHl IHc] Hstep]; [done|].
  destruct (step_cancelled w1 w2 c) as [? Hk]; [by eapply steps_inv|done..|].
  auto.
Qed.

Lemma GetTask_absent w taskID :
  rec w taskID = None →
  GetTask taskID w =
    (w, (None, Some (ErrWrap "task not found" (ErrNotFound taskID)))).
Proof. intros E%rec_None. by apply GetTask_missing. Qed.

Lemma DeleteTask_delete_absent w taskID :
  rec w taskID = None →
  DeleteTask_delete taskID w =
    (w, Some (ErrWrap "failed to delete task" (ErrNotFound taskID))).
Proof.
  intros E%rec_None. unfold DeleteTask_delete, store in *.
  rewrite Delete_missing by done. by rewrite set_repo_id.
Qed.

Lemma DeleteTask_delete_present w taskID :
  is_Some (rec w taskID) →
  DeleteTask_delete taskID w =
    (set_repo (taskrepository.mkState (heap w) (delete taskID (store w))) w, None).
Proof.
  intros E%stored_is_Some. unfold DeleteTask_delete.
  by rewrite Delete_found.
Qed.

Lemma DeleteTask_absent w taskID :
  rec w taskID = None →
  DeleteTask taskID w =
    (w, Some (ErrWrap "task not found" (ErrNotFound taskID))).
Proof.
  intros E%rec_None. unfold DeleteTask, DeleteTask_check, store in *.
  rewrite GetByID_missing by done. by rewrite set_repo_id.
Qed.

Lemma DeleteTask_present w taskID l :
  store w !! taskID = Some l →
  DeleteTask taskID w =
    DeleteTask_delete taskID
      (DeleteTask_cancel taskID
         (set_repo (taskrepository.mkState (heap w ++ [heap w !!! l]) (store w)) w)).
Proof.
  intros E. unfold DeleteTask, DeleteTask_check, store in *.
  by rewrite (GetByID_found _ l).
Qed.

(** [DeleteTask] run with no other goroutine in between.  On an absent
    identifier it fails with the not-found error of the existence check
    and changes nothing; on a present identifier it returns nil, the
    context registered for it (if any) has been cancelled and is no longer
    registered, the record is gone and [GetTask] fails with not-found;
    its last part, [repo.Delete], fails with a (wrapped not-found) error
    when the record is gone by the time of its [Load]. *)
Lemma DeleteTask_alone w taskID :
  inv w →
  (rec w taskID = None →
     DeleteTask taskID w =
       (w, Some (ErrWrap "task not found" (ErrNotFound taskID)))) ∧
  (is_Some (rec w taskID) →
     (DeleteTask taskID w).2 = None ∧
     rec (DeleteTask taskID w).1 taskID = None ∧
     contexts (DeleteTask taskID w).1 !! taskID = None ∧
     (∀ c, contexts w !! taskID = Some c →
        ctxCancelled (ctxs (DeleteTask taskID w).1 !!! c) = true) ∧
     (∀ c, contexts w !! taskID = None →
        ctxs (DeleteTask taskID w).1 !!! c = ctxs w !!! c) ∧
     is_NotFound <$> (GetTask taskID (DeleteTask taskID w).1).2.2 = Some true) ∧
  (rec w taskID = None →
     DeleteTask_delete taskID w =
       (w, Some (ErrWrap "failed to delete task" (ErrNotFound taskID)))).
Proof.
  intros Hinv. split; [apply DeleteTask_absent|].
  split; [|apply DeleteTask_delete_absent].
  intros (l & E)%stored_is_Some. fold (store w) in E.
  rewrite (DeleteTask_present _ _ l) by done.
  set (w1 := set_repo _ w).
  assert (is_Some (rec (DeleteTask_cancel taskID w1) taskID)) as Hsome.
  { apply stored_is_Some. unfold DeleteTask_cancel, loadTaskContext.
    destruct (contexts w1 !! taskID); simpl; by exists l. }
  rewrite DeleteTask_delete_present by done. simpl.
  split; [done|]. split.
  { apply rec_None. unfold store. simpl. apply lookup_delete_eq. }
  change (contexts w1) with (contexts w).
  unfold DeleteTask_cancel, loadTaskContext.
  change (contexts w1) with (contexts w).
  destruct (contexts w !! taskID) as [c|] eqn:Ec.
  + split; [simpl; apply lookup_delete_eq|]. split.
    { intros c' [= <-]. simpl.
      destruct (inv_registry _ Hinv _ _ Ec) as [Hl _].
      by rewrite list_lookup_total_insert_eq. }
    split; [done|].
    rewrite GetTask_absent; [done|].
    apply rec_None. unfold store. simpl. apply lookup_delete_eq.
  + split; [done|]. split; [done|]. split; [done|].
    rewrite GetTask_absent; [done|].
    apply rec_None. unfold store. simpl. apply lookup_delete_eq.
Qed.

(** Once a task is gone (no record, no goroutine of [executeTask] for it
    inside an [Update]), [GetTask] fails with not-found in every later
    state. *)
Lemma GetTask_not_found_once_gone w w' taskID :
  inv w → gone w taskID → steps w w' →
  GetTask taskID w' =
    (w', (None, Some (ErrWrap "task not found" (ErrNotFound taskID)))).
Proof.
  intros Hinv Hgone Hsteps. apply GetTask_absent.
  by destruct (steps_gone _ _ _ Hinv Hsteps Hgone) as (_ & ? & _).
Qed.

Lemma world_updating_reachable : reachable world_updating.
Proof.
  eapply reachable_step; [|run_step].
  eapply reachable_step; [apply world_started_reachable|].
  apply (step_clock world_started (1 * time.Second)). by vm_compute.
Qed.

Lemma world_deleted_steps : steps world_updating world_deleted.
Proof.
  unfold world_deleted. cbv zeta.
  do 4 (eapply steps_step; [|run_step]).
  eapply steps_step; [apply steps_refl|apply step_DeleteTask_call].
Qed.

Lemma world_two_deletes_reachable : reachable world_two_deletes.
Proof.
  unfold world_two_deletes. cbv zeta.
  do 2 (eapply reachable_step; [|run_step]).
  do 2 (eapply reachable_step; [|apply step_DeleteTask_call]).
  apply world_created_reachable.
Qed.

Lemma world_both_loaded_reachable : reachable world_both_loaded.
Proof.
  do 4 (eapply reachable_step; [|run_step]).
  apply world_two_deletes_reachable.
Qed.

(** C5, where the code departs from it.  [repo.Update] and [repo.Delete]
    each run a [Load] and then a [Store] or [Delete] on the [sync.Map]
    with nothing tying the two together.

    First run: the goroutine of [executeTask] for task 5 is, on a tick,
    inside [repo.Update] past the [Load]; a [DeleteTask] call for the task
    then runs from beginning to end and returns nil: the context is
    cancelled and no longer registered, the record is gone and [GetTask]
    fails with not-found.  The goroutine then performs its [Store]: the
    record is back, and [GetTask] returns it, as PROCESSING; the goroutine
    observes the cancellation, stores the record as FAILED and exits, and
    [GetTask] returns the FAILED record of the deleted task.

    Second run: two [DeleteTask] calls for the same task have both run
    the [Load] of [repo.Delete]; one deletes the record and returns nil;
    the other then, with the record gone since its existence check,
    returns nil as well. *)
Theorem DeleteTask_returns_nil_and_record_is_restored :
  (reachable world_updating ∧
   (∃ e, threads world_updating !! 1 = Some (TExec e) ∧ e_pc e = PUpdating ∧
         exec_id world_updating e = 5%N) ∧
   steps world_updating world_deleted ∧
   threads world_deleted !! 2 = Some (TDelete 5 (DReturned None)) ∧
   ctxCancelled (ctxs world_deleted !!! 0) = true ∧
   contexts world_deleted !! 5%N = None ∧
   GetTask 5 world_deleted =
     (world_deleted, (None, Some (ErrWrap "task not found" (ErrNotFound 5)))) ∧
   step world_deleted world_restored ∧
   (GetTask 5 world_restored).2.2 = None ∧
   GetTask_status 5 world_restored = Some StatusProcessing ∧
   steps world_restored world_restored_exited ∧
   threads world_restored_exited =
     [TExited; TExited; TDelete 5 (DReturned None)] ∧
   (GetTask 5 world_restored_exited).2.2 = None ∧
   GetTask_status 5 world_restored_exited = Some StatusFailed) ∧
  (reachable world_both_loaded ∧
   threads world_both_loaded !! 2 = Some (TDelete 5 DDeleting) ∧
   threads world_both_loaded !! 3 = Some (TDelete 5 DDeleting) ∧
   step world_both_loaded world_one_returned ∧
   threads world_one_returned !! 3 = Some (TDelete 5 (DReturned None)) ∧
   rec world_one_returned 5 = None ∧
   step world_one_returned world_both_returned ∧
   threads world_both_returned !! 2 = Some (TDelete 5 (DReturned None))).
Proof.
  split.
  - split; [apply world_updating_reachable|].
    split; [eexists; by vm_compute|].
    split; [apply world_deleted_steps|].
    split; [by vm_compute|]. split; [by vm_compute|]. split; [by vm_compute|].
    split; [by vm_compute|]. split; [run_step|].
    split; [by vm_compute|]. split; [by vm_compute|].
    split.
    { unfold world_restored_exited, world_restored_failed.
      do 6 (eapply steps_step; [|run_step]). apply steps_refl. }
    split; [by vm_compute|]. split; by vm_compute.
  - split; [apply world_both_loaded_reachable|].
    split; [by vm_compute|]. split; [by vm_compute|]. split; [run_step|].
    split; [by vm_compute|]. split; [by vm_compute|]. split; [run_step|].
    by vm_compute.
Qed.

(** C10. A [DeleteTask] call that has passed its existence check cancels
    the registered context and removes it from the registry in one step;
    if the record is gone when the call, after any steps of other
    goroutines, reaches [repo.Delete], the call returns a (wrapped
    not-found) error, and yet the context it found is cancelled, its
    [Done] channel of the derived context is ready, so a goroutine of
    [executeTask] on that context blocked in its [select] can take the
    cancellation branch, and the registry has no context for the task. *)
Theorem DeleteTask_fails_late_after_cancelling w i taskID :
  reachable w → threads w !! i = Some (TDelete taskID DCancel) →
  let wc := DeleteTask_cancel taskID w in
  let w1 := set_threads (<[i := TDelete taskID DDelete]> (threads wc)) wc in
  step w w1 ∧ contexts w1 !! taskID = None ∧
  ∀ w2, steps w1 w2 → threads w2 !! i = Some (TDelete taskID DDelete) →
    rec w2 taskID = None →
    DeleteTask_step taskID DDelete w2 =
      Some (w2, TDelete taskID
                  (DReturned (Some (ErrWrap "failed to delete task"
                                            (ErrNotFound taskID))))) ∧
    ∀ c, contexts w !! taskID = Some c →
      ctxCancelled (ctxs w2 !!! c) = true ∧
      ctx_done (now w2) (ctxs w2 !!! c) = true ∧
      (∀ e, e_tc e = c → e_pc e = PLoop →
         executeTask_step EvCtxDone e w2 = Some (exec_cancelled e w2)) ∧
      contexts w2 !! taskID = None ∧
      GetTaskStatus taskID w2 = ("", false).
Proof.
  intros Hreach Hi wc w1. pose proof (reachable_inv _ Hreach) as Hinv.
  assert (step w w1) as Hstep.
  { by apply (step_thread w i (TDelete taskID DCancel) EvRun wc). }
  split; [done|].
  assert (contexts w1 !! taskID = None) as Hreg1.
  { subst w1 wc. unfold DeleteTask_cancel, loadTaskContext.
    destruct (contexts w !! taskID) eqn:E; [|done]. simpl. apply lookup_delete_eq. }
  split; [done|]. intros w2 Hsteps Hi2 Hnone.
  assert (inv w1) as Hinv1 by by eapply inv_step.
  split.
  { unfold DeleteTask_step, taskrepository.Delete_Load.
    apply rec_None in Hnone. unfold store in Hnone. by rewrite Hnone. }
  intros c Ec. destruct (inv_registry _ Hinv _ _ Ec) as [Hl Hk].
  assert (c < length (ctxs w1) ∧ ctxCancelled (ctxs w1 !!! c) = true ∧
          ID (ctxs w1 !!! c) = taskID) as (Hl1 & Hc1 & Hk1).
  { subst w1 wc. unfold DeleteTask_cancel, loadTaskContext. rewrite Ec. simpl.
    rewrite length_insert. split; [done|].
    by rewrite list_lookup_total_insert_eq. }
  destruct (steps_cancelled w1 w2 c Hinv1 Hsteps Hl1 Hc1) as [_ Hc2].
  split; [done|].
  assert (ctx_done (now w2) (ctxs w2 !!! c) = true) as Hdone.
  { unfold ctx_done. by rewrite Hc2. }
  split; [done|]. split.
  { intros e <- Hpc. unfold executeTask_step. by rewrite Hpc, Hdone. }
  destruct (steps_unregistered w1 w2 taskID c Hinv1 Hsteps Hl1 Hk1 Hreg1)
    as (_ & _ & Hreg2).
  split; [done|]. unfold GetTaskStatus, loadTaskContext. by rewrite Hreg2.
Qed.

Lemma DeleteTask_fails_late_after_cancelling_witness :
  reachable world_two_deletes ∧
  threads world_two_deletes !! 2 = Some (TDelete 5 DCancel) ∧
  steps world_first_cancelled world_second_deleted ∧
  DeleteTask_step 5 DDelete world_second_deleted =
    Some (world_second_deleted,
          TDelete 5 (DReturned (Some (ErrWrap "failed to delete task"
                                              (ErrNotFound 5))))) ∧
  contexts world_second_deleted !! 5%N = None ∧
  ctxCancelled (ctxs world_second_deleted !!! 0) = true.
Proof.
  split; [exact world_two_deletes_reachable|]. split; [reflexivity|].
  assert (steps world_first_cancelled world_second_deleted) as Hsteps.
  { unfold world_second_deleted.
    do 3 (eapply steps_step; [|apply step_run_thread; by vm_compute]).
    apply steps_refl. }
  split; [exact Hsteps|].
  destruct (DeleteTask_fails_late_after_cancelling world_two_deletes 2 5
              world_two_deletes_reachable eq_refl) as (_ & _ & Hlate).
  destruct (Hlate world_second_deleted Hsteps eq_refl eq_refl) as (Herr & Hctx).
  split; [exact Herr|].
  destruct (Hctx 0 eq_refl) as (Hc & _ & _ & Hreg & _).
  split; [exact Hreg|exact Hc].
Defined.

(** *** One tick of [executeTask] *)

Lemma rec_after_Store l w :
  rec (set_repo (taskrepository.Update_Store l (repo w)) w)
      (taskmodel.ID (heap w !!! l)) = Some (heap w !!! l).
Proof.
  unfold rec, taskrepository.stored. rewrite Update_Store_spec. simpl.
  fold (heap w). rewrite lookup_insert_eq. simpl.
  by rewrite snoc_lookup_total_last.
Qed.

(** C4. A goroutine of [executeTask] blocked in its [select] receives a
    tick exactly when the ticker, of period 1 second, is due.  On the tick
    it computes [elapsed = now - start] and assigns it to its task.  If
    [elapsed >= workDuration] it sets the task to DONE with that elapsed
    time and enters the [Update] of [finalizeTask]; otherwise it enters
    [repo.Update] with the new elapsed time, which fails when its [Load]
    does not find the record.  The steps that follow, in whatever state
    the goroutine takes them: the [Store] of a successful [repo.Update]
    leaves the task as the stored record and the goroutine back in its
    [select]; after a failed [repo.Update] the goroutine sets the task to
    FAILED with that elapsed time and enters the [Update] of
    [finalizeTask]; the [Store] of [finalizeTask] leaves the task as the
    stored record; then [markFinished] records the status and closes the
    channel, and the goroutine has returned. *)
Theorem executeTask_tick_algorithm e w :
  e_pc e = PLoop → e_task e < length (heap w) →
  let elapsed := time.Since (now w) (e_start e) in
  let t := heap w !!! e_task e in
  (tickerPeriod = time.Second ∧ time.Second = 1000000000%Z ∧
   (is_Some (executeTask_step EvTick e w) ↔ (e_tick e ≤ now w)%Z)) ∧
  ((e_tick e ≤ now w)%Z →
   ∃ w1 e1, executeTask_step EvTick e w = Some (w1, TExec e1) ∧
     e_tick e1 = (e_tick e + tickerPeriod)%Z ∧
     e_task e1 = e_task e ∧ e_tc e1 = e_tc e ∧
     ctxs w1 = ctxs w ∧ store w1 = store w ∧
     ((e_work e ≤ elapsed)%Z →
        heap w1 !!! e_task e =
          set_ProcessingTime elapsed (taskmodel.set_Status StatusDone t) ∧
        e_pc e1 = after_finalize_Load w (taskmodel.ID t) StatusDone) ∧
     ((elapsed < e_work e)%Z →
        heap w1 !!! e_task e = set_ProcessingTime elapsed t ∧
        e_pc e1 = after_update_Load w (taskmodel.ID t) elapsed)) ∧
  (∀ w' e', e_task e' < length (heap w') → e_tc e' < length (ctxs w') →
     let t' := heap w' !!! e_task e' in
     (e_pc e' = PUpdating →
        ∃ w2, executeTask_step EvRun e' w' = Some (w2, TExec (set_pc PLoop e')) ∧
              rec w2 (taskmodel.ID t') = Some t') ∧
     (∀ elapsed', e_pc e' = PUpdateFailed elapsed' →
        ∃ w2 e2, executeTask_step EvRun e' w' = Some (w2, TExec e2) ∧
          heap w2 !!! e_task e' =
            set_ProcessingTime elapsed' (taskmodel.set_Status StatusFailed t') ∧
          e_pc e2 = after_finalize_Load w' (taskmodel.ID t') StatusFailed) ∧
     (∀ st, e_pc e' = PFinalizing st →
        ∃ w2, executeTask_step EvRun e' w' =
                Some (w2, TExec (set_pc (PMark st) e')) ∧
              rec w2 (taskmodel.ID t') = Some t') ∧
     (∀ st, e_pc e' = PMark st →
        ∃ w2, executeTask_step EvRun e' w' =
                Some (w2, TExec (set_pc PDeferWg e')) ∧
              Status (ctxs w2 !!! e_tc e') = st ∧
              Done (ctxs w2 !!! e_tc e') = true ∧
              repo w2 = repo w')).
Proof.
  intros Hpc Hl elapsed t. split; [|split].
  - split; [done|]. split; [done|].
    unfold executeTask_step. rewrite Hpc. case_bool_decide as Hb; split.
    + by intros _.
    + intros _. by eexists.
    + by intros [? ?].
    + intros ?. by destruct Hb.
  - intros Htick. unfold executeTask_step at 1. rewrite Hpc.
    rewrite bool_decide_eq_true_2 by done. rewrite exec_tick_spec by done.
    cbn zeta. fold elapsed t.
    assert (elapsed = (now w - e_start e)%Z) as Hel by done.
    assert (∀ t', heap (write_task (e_task e) t' w) !!! e_task e = t') as Hcell.
    { intros t'. unfold heap. simpl. by rewrite list_lookup_total_insert_eq. }
    case_bool_decide as Hdone.
    + eexists _, _. split_and!; [done..| |intros; lia].
      intros _. by rewrite Hcell.
    + eexists _, _. split_and!; [done..|intros; lia|].
      intros _. by rewrite Hcell.
  - intros w' e' Hl' Hlc' t'. split_and!.
    + intros Hpc'. unfold executeTask_step. rewrite Hpc'.
      eexists. split; [done|]. apply rec_after_Store.
    + intros elapsed' Hpc'. unfold executeTask_step. rewrite Hpc'.
      unfold exec_update_failed. rewrite exec_finalize_spec by done.
      eexists _, _. split; [done|]. split; [|done].
      unfold heap. simpl. by rewrite list_lookup_total_insert_eq.
    + intros st Hpc'. unfold executeTask_step. rewrite Hpc'.
      eexists. split; [done|]. apply rec_after_Store.
    + intros st Hpc'. unfold executeTask_step. rewrite Hpc'.
      eexists. split; [done|]. simpl.
      rewrite list_lookup_total_insert_eq by done.
      by rewrite markFinished_Status, markFinished_Done.
Qed.

Lemma executeTask_tick_algorithm_witness :
  let e := mkExec 2 0 PLoop (workDuration 0) 0 tickerPeriod in
  let w := world_three_minutes in
  e_pc e = PLoop ∧ e_task e < length (heap w) ∧ (e_tick e ≤ now w)%Z ∧
  ∃ w1 e1, executeTask_step EvTick e w = Some (w1, TExec e1) ∧
           e_pc e1 = PFinalizing StatusDone ∧
           taskmodel.Status (heap w1 !!! 2) = StatusDone.
Proof.
  intros e w.
  assert (e_task e < length (heap w)) as Hl by (vm_compute; lia).
  assert (e_tick e ≤ now w)%Z as Htick by by vm_compute.
  split; [reflexivity|]. split; [exact Hl|]. split; [exact Htick|].
  destruct (executeTask_tick_algorithm e w eq_refl Hl) as (_ & Hrun & _).
  destruct (Hrun Htick) as (w1 & e1 & Hs & _ & _ & _ & _ & _ & Hdone & _).
  exists w1, e1. split; [exact Hs|].
  destruct Hdone as (Hcell & Hpc); [by vm_compute|].
  split; [by rewrite Hpc|]. simpl in Hcell. by rewrite Hcell.
Defined.

(** *** [Shutdown] and [markFinished] in the running service *)

Lemma foldl_cancel_unfinished_steps (kvs : list (UUID * loc)) w :
  (∀ kv, kv ∈ kvs → contexts w !! kv.1 = Some kv.2) →
  steps w (foldl cancel_unfinished w kvs).
Proof.
  revert w. induction kvs as [|[k c] kvs IH]; intros w Hreg; [apply steps_refl|].
  simpl. apply (steps_trans _ (cancel_unfinished w (k, c))).
  - eapply steps_step; [apply steps_refl|]. apply step_Shutdown_visit.
    apply (Hreg (k, c)). by left.
  - apply IH. intros kv Hin.
    assert (contexts (cancel_unfinished w (k, c)) = contexts w) as ->.
    { unfold cancel_unfinished. by destruct (negb _). }
    apply Hreg. by right.
Qed.

(** The [Range] of [Shutdown] is a run of the process. *)
Lemma Shutdown_cancel_steps w : steps w (Shutdown_cancel w).
Proof.
  apply foldl_cancel_unfinished_steps.
  intros [k c] Hin. by apply elem_of_map_to_list.
Qed.

(** In the running service [markFinished] is called on a context at most
    once: where [executeTask] calls it the context is not finished, and the
    deferred function finds the context finished and skips its call. *)
Lemma markFinished_called_once w i e :
  reachable w → threads w !! i = Some (TExec e) →
  (∀ st, e_pc e = PMark st → IsFinished (ctxs w !!! e_tc e) = false) ∧
  (e_pc e = PDeferMark →
     IsFinished (ctxs w !!! e_tc e) = true ∧ (exec_defer_mark e w).1 = w).
Proof.
  intros Hinv%reachable_inv Hi.
  destruct (inv_exec _ Hinv _ _ Hi) as (_ & _ & _ & _ & Hphase). split.
  - intros st Epc. rewrite Epc in Hphase. destruct Hphase as (_ & Hopen & _).
    unfold IsFinished. by rewrite Hopen.
  - intros Epc. rewrite Epc in Hphase. simpl in Hphase.
    unfold exec_defer_mark, IsFinished. by rewrite Hphase.
Qed.

(** *** Stored records are never written to *)

(** The cell a stored pointer leads to is left as it is by every step of
    the process: the repository only ever stores and returns copies, and
    no goroutine holds a pointer into the store. *)
Lemma step_stored_cell w w' id l :
  inv w → step w w' → store w !! id = Some l →
  heap w' !!! l = heap w !!! l.
Proof.
  intros Hinv Hstep E. destruct (inv_store _ Hinv _ _ E) as (Hl & _).
  destruct (step_classify _ _ Hinv Hstep)
    as [(Hheap & _)|i e t' Hi Hid Hrepo _ _ _|i e Hi Hpc Hrepo _ _ _
        |i e st _ _ _ Hrepo _ _|id' name Hfresh ->|i task Hi ->].
  - by destruct (Hheap l Hl) as [_ ->].
  - unfold heap at 1. rewrite Hrepo. simpl. fold (heap w).
    destruct (inv_exec _ Hinv _ _ Hi) as (_ & _ & _ & Hsep & _).
    rewrite list_lookup_total_insert_ne; [done|]. intros Heq.
    by apply (Hsep _ _ E).
  - unfold heap at 1. rewrite Hrepo, Update_Store_spec. simpl.
    by rewrite lookup_total_app_l.
  - unfold heap at 1. by rewrite Hrepo.
  - assert (store w !! id' = None) as Hnone.
    { destruct (store w !! id') as [l'|] eqn:E'; [|done].
      by destruct (inv_store _ Hinv _ _ E') as (_ & ? & _). }
    rewrite CreateTask_call_fresh by done. unfold heap at 1. simpl.
    by rewrite lookup_total_app_l.
  - unfold heap at 1. simpl. by rewrite lookup_total_app_l.
Qed.

End Lifecycle.

(** ** The repository's queries and [Clear] *)
Section RepositoryQueries.
Import taskmodel taskrepository.

Lemma foldl_count {A} (xs : list A) n :
  foldl (λ count (_ : A), S count) n xs = n + length xs.
Proof.
  revert n. induction xs as [|x xs IH]; intros n; simpl; [lia|].
  rewrite IH. lia.
Qed.

Lemma GetTaskCount_size s : GetTaskCount s = size (store s).
Proof. unfold GetTaskCount. by rewrite foldl_count, length_map_to_list. Qed.

Lemma copy_each_store entries s : store (copy_each entries s).1 = store s.
Proof.
  revert s. induction entries as [|[k l] rest IH]; intros s; [done|].
  cbn [copy_each]. rewrite copyTask_at_spec.
  specialize (IH (mkState (heap s ++ [heap s !!! l]) (store s))).
  by destruct (copy_each rest _).
Qed.

Lemma copy_matching_spec status (entries : list (UUID * loc)) s :
  (∀ kv, kv ∈ entries → kv.2 < length (heap s)) →
  copy_matching status entries s =
    (let found := filter (λ t, Status t = status)
                         ((λ kv : UUID * loc, heap s !!! kv.2) <$> entries) in
     (mkState (heap s ++ found) (store s),
      seq (length (heap s)) (length found))).
Proof.
  revert s. induction entries as [|[k l] rest IH]; intros s Hv.
  - simpl. rewrite app_nil_r. by destruct s.
  - cbn [copy_matching fmap list_fmap]. cbn zeta. rewrite filter_cons.
    cbn [snd]. case_bool_decide as Hst.
    + rewrite decide_True by done. rewrite copyTask_at_spec.
      rewrite IH; simpl.
      * rewrite length_app. simpl. rewrite Nat.add_1_r.
        assert ((λ kv : UUID * loc, (heap s ++ [heap s !!! l]) !!! kv.2) <$> rest
                = (λ kv : UUID * loc, heap s !!! kv.2) <$> rest) as ->.
        { apply list_fmap_ext. intros i kv Hkv.
          apply lookup_total_app_l. apply Hv. right.
          by eapply list_elem_of_lookup_2. }
        by rewrite <- app_assoc.
      * intros kv Hkv. rewrite length_app. simpl.
        assert (kv.2 < length (heap s)) by (apply Hv; by right). lia.
    + rewrite decide_False by done. apply IH.
      intros kv Hkv. apply Hv. by right.
Qed.

Lemma copy_matching_store status entries s :
  store (copy_matching status entries s).1 = store s.
Proof.
  revert s. induction entries as [|[k l] rest IH]; intros s; [done|].
  cbn [copy_matching]. case_bool_decide; [|apply IH].
  rewrite copyTask_at_spec.
  specialize (IH (mkState (heap s ++ [heap s !!! l]) (store s))).
  by destruct (copy_matching status rest _).
Qed.

Lemma foldl_delete_spec (kvs : list (UUID * loc)) s :
  heap (foldl (λ s (kv : UUID * loc), set_store (delete kv.1 (store s)) s) s kvs)
    = heap s ∧
  ∀ k, (k ∈ kvs.*1 →
          store (foldl (λ s (kv : UUID * loc), set_store (delete kv.1 (store s)) s)
                   s kvs) !! k = None) ∧
       (k ∉ kvs.*1 →
          store (foldl (λ s (kv : UUID * loc), set_store (delete kv.1 (store s)) s)
                   s kvs) !! k = store s !! k).
Proof.
  revert s. induction kvs as [|[k0 l0] kvs IH]; intros s.
  - split; [done|]. intros k. split; [by intros ?%elem_of_nil|done].
  - simpl. destruct (IH (set_store (delete k0 (store s)) s)) as [Hh Hs].
    split; [by rewrite Hh|]. intros k. destruct (Hs k) as [Hin Hnin]. simpl in *.
    split.
    + intros [->|Hk]%elem_of_cons.
      * destruct (decide (k0 ∈ kvs.*1)) as [Hk|Hk]; [by apply Hin|].
        rewrite Hnin by done. apply lookup_delete_eq.
      * by apply Hin.
    + intros Hk. rewrite Hnin by (intros ?; apply Hk; by right).
      apply lookup_delete_ne. intros ->. apply Hk. by left.
Qed.

Lemma Clear_spec s : Clear s = mkState (heap s) ∅.
Proof.
  unfold Clear. destruct (foldl_delete_spec (map_to_list (store s)) s) as [Hh Hs].
  destruct (foldl _ s _) as [h m]. simpl in *. f_equal; [done|].
  apply map_eq. intros k. rewrite lookup_empty. destruct (Hs k) as [Hin Hnin].
  destruct (decide (k ∈ (map_to_list (store s)).*1)) as [Hk|Hk]; [by apply Hin|].
  rewrite Hnin by done.
  destruct (store s !! k) as [l|] eqn:E; [|done]. destruct Hk.
  apply list_elem_of_fmap. exists (k, l). split; [done|].
  by apply elem_of_map_to_list.
Qed.

(** X1. [GetTaskCount] returns the number of identifiers that have a
    stored record; it is 0 exactly when nothing is stored.  [Create] of a
    task with a new identifier raises it by one, a successful [Delete]
    lowers it by one, and a failing [Create] or [Delete], every [Update]
    and every read leave it as it was; after [Clear] it is 0. *)
Theorem GetTaskCount_counts_stored_records s now l id status :
  GetTaskCount s = size (store s) ∧
  (GetTaskCount s = 0 ↔ ∀ id', stored s id' = None) ∧
  (stored s (ID (heap s !!! l)) = None →
     GetTaskCount (Create now (Some l) s).1 = S (GetTaskCount s)) ∧
  (is_Some (stored s (ID (heap s !!! l))) →
     GetTaskCount (Create now (Some l) s).1 = GetTaskCount s) ∧
  GetTaskCount (Update (Some l) s).1 = GetTaskCount s ∧
  (is_Some (stored s id) →
     S (GetTaskCount (Delete id s).1) = GetTaskCount s) ∧
  (stored s id = None → GetTaskCount (Delete id s).1 = GetTaskCount s) ∧
  GetTaskCount (GetByID id s).1 = GetTaskCount s ∧
  GetTaskCount (GetAll s).1 = GetTaskCount s ∧
  GetTaskCount (GetTasksByStatus status s).1 = GetTaskCount s ∧
  GetTaskCount (Clear s) = 0.
Proof.
  rewrite !GetTaskCount_size. split_and!.
  - done.
  - rewrite map_size_empty_iff. split.
    + intros E id'. apply stored_None. by rewrite E, lookup_empty.
    + intros H. apply map_eq. intros k. rewrite lookup_empty.
      by apply stored_None.
  - intros E%stored_None. rewrite Create_fresh by done. simpl.
    by rewrite map_size_insert_None.
  - intros E%stored_is_Some. by rewrite Create_exists.
  - destruct (store s !! ID (heap s !!! l)) as [l'|] eqn:E.
    + rewrite Update_found by by eexists. simpl.
      by rewrite map_size_insert_Some.
    + by rewrite Update_missing.
  - intros E%stored_is_Some. rewrite Delete_found by done. simpl.
    destruct E as [l' E].
    rewrite map_size_delete_Some by by eexists.
    assert (size (store s) ≠ 0); [|lia].
    intros Hz%map_size_empty_iff. by rewrite Hz, lookup_empty in E.
  - intros E%stored_None. by rewrite Delete_missing.
  - destruct (store s !! id) as [l'|] eqn:E.
    + by rewrite (GetByID_found _ l').
    + by rewrite GetByID_missing.
  - unfold GetAll. pose proof (copy_each_store (map_to_list (store s)) s) as E.
    destruct (copy_each _ s). simpl in *. by rewrite E.
  - unfold GetTasksByStatus.
    pose proof (copy_matching_store status (map_to_list (store s)) s) as E.
    destruct (copy_matching _ _ s). simpl in *. by rewrite E.
  - rewrite Clear_spec. simpl. apply map_size_empty.
Qed.

(** X2. [GetTasksByStatus], on a store whose pointers are allocated, never
    fails and leaves the store and every existing cell as they were.  It
    returns new pointers, all different, none of them a pointer of the
    store; read in the order returned they hold exactly the stored records
    whose status is the one asked for, in the order [Range] visits them:
    the records [GetAll] returns, with the others left out.  So every
    record returned has the status, and every stored record that has it is
    returned. *)
Theorem GetTasksByStatus_returns_copies_of_matching status s :
  store_valid s →
  let s' := (GetTasksByStatus status s).1 in
  let tasks := (GetTasksByStatus status s).2.1 in
  (GetTasksByStatus status s).2.2 = None ∧
  store s' = store s ∧
  (∀ l, l < length (heap s) → heap s' !!! l = heap s !!! l) ∧
  (λ c, heap s' !!! c) <$> tasks =
    filter (λ t, Status t = status)
           ((λ kv : UUID * loc, heap s !!! kv.2) <$> map_to_list (store s)) ∧
  (λ c, heap s' !!! c) <$> tasks =
    filter (λ t, Status t = status)
           ((λ c, heap (GetAll s).1 !!! c) <$> (GetAll s).2.1) ∧
  NoDup tasks ∧
  (∀ c, c ∈ tasks →
     length (heap s) ≤ c < length (heap s') ∧
     Status (heap s' !!! c) = status ∧
     ∀ id l, store s' !! id = Some l → l ≠ c) ∧
  (∀ id t, stored s id = Some t → Status t = status →
     ∃ c, c ∈ tasks ∧ heap s' !!! c = t) ∧
  length tasks ≤ GetTaskCount s.
Proof.
  intros Hv. unfold GetTasksByStatus.
  rewrite copy_matching_spec
    by (intros [k l] Hkl%elem_of_map_to_list; simpl; by eapply Hv).
  cbn zeta. cbn [fst snd heap store].
  set (recs := (λ kv : UUID * loc, heap s !!! kv.2) <$> map_to_list (store s)).
  set (found := filter (λ t, Status t = status) recs).
  assert ((λ c, (heap s ++ found) !!! c) <$> seq (length (heap s)) (length found)
          = found) as Hread.
  { apply list_eq. intros i. rewrite list_lookup_fmap.
    destruct (decide (i < length found)) as [Hi|Hi].
    - rewrite lookup_seq_lt by done. simpl.
      rewrite lookup_total_app_r by lia.
      replace (length (heap s) + i - length (heap s)) with i by lia.
      symmetry. by apply list_lookup_lookup_total_lt.
    - rewrite lookup_seq_ge by lia. simpl. symmetry.
      apply lookup_ge_None. lia. }
  split_and!.
  - done.
  - done.
  - intros l Hl. by apply lookup_total_app_l.
  - exact Hread.
  - rewrite Hread, GetAll_spec by done. cbn [fst snd heap]. fold recs.
    f_equal. apply list_eq. intros i. rewrite list_lookup_fmap.
    rewrite length_map_to_list.
    assert (length recs = size (store s)) as Hlen.
    { unfold recs. by rewrite length_fmap, length_map_to_list. }
    destruct (decide (i < size (store s))) as [Hi|Hi].
    + rewrite lookup_seq_lt by done. simpl.
      rewrite lookup_total_app_r by lia.
      replace (length (heap s) + i - length (heap s)) with i by lia.
      apply list_lookup_lookup_total_lt. lia.
    + rewrite lookup_seq_ge by lia. simpl. apply lookup_ge_None. lia.
  - apply NoDup_seq.
  - intros c [Hge Hlt]%elem_of_seq. rewrite length_app. split; [lia|]. split.
    + assert (found !! (c - length (heap s)) = Some ((heap s ++ found) !!! c))
        as Hc.
      { rewrite lookup_total_app_r by lia.
        apply list_lookup_lookup_total_lt. lia. }
      apply list_elem_of_lookup_2 in Hc.
      by apply list_elem_of_filter in Hc as [? _].
    + intros id l E. apply Hv in E. lia.
  - intros id t (l & E & <-)%stored_Some Hst.
    assert (heap s !!! l ∈ found) as Hin.
    { apply list_elem_of_filter. split; [done|].
      apply list_elem_of_fmap. exists (id, l). split; [done|].
      by apply elem_of_map_to_list. }
    apply list_elem_of_lookup_1 in Hin as [i Hi].
    exists (length (heap s) + i). split.
    + apply elem_of_seq. apply lookup_lt_Some in Hi. lia.
    + rewrite lookup_total_app_r by lia.
      replace (length (heap s) + i - length (heap s)) with i by lia.
      by apply list_lookup_total_correct.
  - rewrite length_seq, GetTaskCount_size.
    etrans; [apply length_filter|].
    unfold recs. by rewrite length_fmap, length_map_to_list.
Qed.

Lemma GetTasksByStatus_returns_copies_witness :
  let s := mkState [mkTask 7 "a" StatusDone 0 5; mkTask 9 "b" StatusFailed 0 3]
                   (<[7%N := 0]> (<[9%N := 1]> ∅)) in
  store_valid s ∧
  (GetTasksByStatus StatusDone s).2.2 = None ∧
  (λ c, heap (GetTasksByStatus StatusDone s).1 !!! c)
    <$> (GetTasksByStatus StatusDone s).2.1 = [mkTask 7 "a" StatusDone 0 5].
Proof.
  intros s.
  assert (store_valid s) as Hv.
  { intros id l. unfold s. simpl.
    intros [[_ <-]|[_ [[_ <-]|[_ E]]%lookup_insert_Some]]%lookup_insert_Some;
      [simpl; lia..|]. by rewrite lookup_empty in E. }
  split; [exact Hv|].
  pose proof (GetTasksByStatus_returns_copies_of_matching StatusDone s Hv) as H.
  cbv zeta in H. destruct H as (Herr & _ & _ & Hrecs & _).
  split; [exact Herr|]. rewrite Hrecs. by vm_compute.
Defined.

(** X3. [Clear] removes every record and touches no cell: afterwards the
    store is empty, [GetTaskCount] is 0, [GetAll] and [GetTasksByStatus]
    return no task, [GetByID], [Update] and [Delete] fail with not-found
    for every identifier, and [Create] of any task succeeds. *)
Theorem Clear_empties_the_store s :
  store (Clear s) = ∅ ∧ heap (Clear s) = heap s ∧
  GetTaskCount (Clear s) = 0 ∧
  (GetAll (Clear s)).2 = ([], None) ∧
  (∀ status, (GetTasksByStatus status (Clear s)).2 = ([], None)) ∧
  (∀ id, GetByID id (Clear s) = (Clear s, (None, Some (ErrNotFound id)))) ∧
  (∀ id, Delete id (Clear s) = (Clear s, Some (ErrNotFound id))) ∧
  (∀ l, Update (Some l) (Clear s) =
          (Clear s, Some (ErrNotFound (ID (heap s !!! l))))) ∧
  (∀ now l, (Create now (Some l) (Clear s)).2 = None ∧
            is_Some (stored (Create now (Some l) (Clear s)).1
                            (ID (heap s !!! l)))).
Proof.
  rewrite Clear_spec. split_and!; try done.
  intros now l. rewrite Create_fresh by apply lookup_empty. simpl.
  split; [done|]. apply stored_is_Some. simpl. by rewrite lookup_insert_eq.
Qed.

End RepositoryQueries.

(** ** The service, one call at a time *)
Section ServiceCalls.
Import taskmodel taskservice.
Implicit Types (w : World) (id taskID : UUID) (t : Task).

Local Arguments taskrepository.Create : simpl never.
Local Arguments taskrepository.Update : simpl never.
Local Arguments taskrepository.GetByID : simpl never.
Local Arguments taskrepository.Delete : simpl never.
Local Arguments taskrepository.GetAll : simpl never.

Lemma CreateTask_create_exists id name w :
  is_Some (store w !! id) →
  CreateTask_create id name w =
    (set_repo (taskrepository.mkState
                 (heap w ++ [new_task id name (now w)]) (store w)) w,
     (None, Some (ErrWrap "failed to create task" (ErrAlreadyExists id)))).
Proof.
  intros E. destruct w as [[h m] cs cx n ths t0 iss].
  unfold heap, store in *. simpl in E.
  unfold CreateTask_create, NewTask, write_task, taskrepository.write, heap, store.
  simpl.
  rewrite !lookup_total_snoc_last, !insert_snoc_last. simpl.
  rewrite Create_exists by (simpl; by rewrite !lookup_total_snoc_last).
  simpl. by rewrite !lookup_total_snoc_last.
Qed.

(** X4. [CreateTask], when the identifier drawn has no record, returns a
    pointer to a PROCESSING task with the name given, created now, with
    no processing time.  The repository holds a copy of it under another
    pointer, the goroutine started (at its first instruction) a third
    copy; an open context started now, with a deadline 6 minutes away,
    is registered for the identifier, and the wait group is one higher.
    Records, cells and contexts of other tasks are as before.  When the
    identifier has a record, the call fails with the wrapped
    already-exists error of the repository and registers and starts
    nothing. *)
Theorem CreateTask_stores_registers_and_starts id name w :
  (store w !! id = None →
     let w' := (CreateTask id name w).1 in
     let t := mkTask id name StatusProcessing (now w) 0 in
     ∃ p l e c,
       (CreateTask id name w).2 = (Some p, None) ∧
       heap w' !!! p = t ∧
       store w' !! id = Some l ∧ heap w' !!! l = t ∧
       threads w' = threads w ++ [TExec e] ∧ e_pc e = PStart ∧ e_tc e = c ∧
       heap w' !!! e_task e = t ∧
       p ≠ l ∧ p ≠ e_task e ∧ l ≠ e_task e ∧
       length (heap w) ≤ p ∧ length (heap w) ≤ l ∧ length (heap w) ≤ e_task e ∧
       contexts w' !! id = Some c ∧ c = length (ctxs w) ∧
       ctxs w' =
         ctxs w ++ [mkTaskContext id (now w) false StatusProcessing
                      (now w + 6 * time.Minute) false] ∧
       wg w' = (wg w + 1)%Z ∧
       GetTaskStatus id w' = (StatusProcessing, true) ∧
       (∀ id', id' ≠ id → store w' !! id' = store w !! id' ∧
                          contexts w' !! id' = contexts w !! id') ∧
       (∀ l', l' < length (heap w) → heap w' !!! l' = heap w !!! l')) ∧
  (is_Some (store w !! id) →
     let w' := (CreateTask id name w).1 in
     (CreateTask id name w).2 =
       (None, Some (ErrWrap "failed to create task" (ErrAlreadyExists id))) ∧
     store w' = store w ∧ contexts w' = contexts w ∧ ctxs w' = ctxs w ∧
     wg w' = wg w ∧ threads w' = threads w ∧
     (∀ l', l' < length (heap w) → heap w' !!! l' = heap w !!! l')).
Proof.
  split.
  - intros E. rewrite CreateTask_fresh by done. cbn zeta.
    unfold new_task, heap, store. simpl. fold (heap w) (store w).
    exists (length (heap w)), (S (length (heap w))),
      (mkExec (S (S (length (heap w)))) (length (ctxs w)) PStart 0 0 0),
      (length (ctxs w)).
    assert (∀ t : Task, (heap w ++ [t; t; t]) !!! length (heap w) = t) as H0.
    { intros t. rewrite lookup_total_app_r by done. by rewrite Nat.sub_diag. }
    assert (∀ t : Task, (heap w ++ [t; t; t]) !!! S (length (heap w)) = t) as H1.
    { intros t. rewrite lookup_total_app_r by lia.
      by replace (S (length (heap w)) - length (heap w)) with 1 by lia. }
    assert (∀ t : Task, (heap w ++ [t; t; t]) !!! S (S (length (heap w))) = t)
      as H2.
    { intros t. rewrite lookup_total_app_r by lia.
      by replace (S (S (length (heap w))) - length (heap w)) with 2 by lia. }
    rewrite H0, H1, H2, !lookup_insert_eq.
    split_and!; try done; try (simpl; lia).
    + unfold GetTaskStatus, loadTaskContext. simpl.
      by rewrite lookup_insert_eq, lookup_total_snoc_last.
    + intros id' Hne. by rewrite !lookup_insert_ne.
    + intros l' Hl'. by rewrite lookup_total_app_l.
  - intros E. unfold CreateTask. rewrite CreateTask_create_exists by done.
    cbn zeta. unfold heap, store. simpl. split_and!; try done.
    intros l' Hl'. by rewrite lookup_total_app_l.
Qed.

(** The records [ListTasks] returns, read through the pointers returned. *)
Lemma ListTasks_records w :
  (∀ id l, store w !! id = Some l → l < length (heap w)) →
  (λ p, heap (ListTasks w).1 !!! p) <$> (ListTasks w).2.1 =
    (λ kv : UUID * loc, overlay w (heap w !!! kv.2)) <$> map_to_list (store w).
Proof.
  intros Hv. rewrite ListTasks_spec by done. unfold heap at 1. simpl.
  replace (length (map_to_list (store w))) with
    (length (overlay w <$>
       ((λ kv : UUID * loc, heap w !!! kv.2) <$> map_to_list (store w))))
    by (by rewrite !length_fmap).
  rewrite fmap_lookup_total_seq_app. by rewrite <- list_fmap_compose.
Qed.

(** X5. In every state the process can be in, [ListTasks] does not fail
    and returns one new pointer per stored record: as many as
    [GetTaskCount] counts, all different, none of them stored, carrying
    each stored identifier exactly once.  The record behind each pointer
    is the one [GetTask] returns for its identifier in the same state.
    The store, the registry, the contexts and all earlier cells are left
    as they were. *)
Theorem ListTasks_lists_every_record_once w :
  reachable w →
  let w' := (ListTasks w).1 in
  let tasks := (ListTasks w).2.1 in
  (ListTasks w).2.2 = None ∧
  length tasks = taskrepository.GetTaskCount (repo w) ∧
  NoDup tasks ∧
  (∀ p, p ∈ tasks → length (heap w) ≤ p < length (heap w') ∧
                    ∀ id l, store w' !! id = Some l → l ≠ p) ∧
  NoDup ((λ p, taskmodel.ID (heap w' !!! p)) <$> tasks) ∧
  (∀ id, is_Some (rec w id) ↔
         ∃ p, p ∈ tasks ∧ taskmodel.ID (heap w' !!! p) = id) ∧
  (∀ p, p ∈ tasks →
     ∃ q, (GetTask (taskmodel.ID (heap w' !!! p)) w).2 = (Some q, None) ∧
          heap (GetTask (taskmodel.ID (heap w' !!! p)) w).1 !!! q =
            heap w' !!! p) ∧
  store w' = store w ∧ contexts w' = contexts w ∧ ctxs w' = ctxs w ∧
  (∀ l, l < length (heap w) → heap w' !!! l = heap w !!! l).
Proof.
  intros Hinv%reachable_inv. cbn zeta.
  assert (∀ id l, store w !! id = Some l → l < length (heap w)) as Hv.
  { intros id l E. by destruct (inv_store _ Hinv _ _ E). }
  pose proof (ListTasks_records w Hv) as Hrecs.
  assert (∀ p, p ∈ (ListTasks w).2.1 →
            ∃ k l, store w !! k = Some l ∧
                   heap (ListTasks w).1 !!! p = overlay w (heap w !!! l) ∧
                   taskmodel.ID (heap (ListTasks w).1 !!! p) = k) as Hcell.
  { intros p Hp.
    assert (heap (ListTasks w).1 !!! p ∈
              (λ p, heap (ListTasks w).1 !!! p) <$> (ListTasks w).2.1) as Hin
      by (apply list_elem_of_fmap; by exists p).
    rewrite Hrecs in Hin.
    apply list_elem_of_fmap in Hin as ([k l] & Heq & Hin%elem_of_map_to_list).
    exists k, l. split; [done|]. split; [done|].
    rewrite Heq, overlay_ID. simpl. by destruct (inv_store _ Hinv _ _ Hin) as (_ & _ & ?). }
  revert Hrecs Hcell. rewrite ListTasks_spec by done. cbn [fst snd].
  set (recs := overlay w <$> _). set (w' := set_repo _ w).
  assert (heap w' = heap w ++ recs) as Hh by done.
  assert (store w' = store w) as Hs by done.
  rewrite Hh, Hs. intros Hrecs Hcell.
  split_and!; try done.
  - by rewrite length_seq, length_map_to_list, GetTaskCount_size.
  - apply NoDup_seq.
  - intros p [Hge Hlt]%elem_of_seq. unfold recs.
    rewrite length_app, !length_fmap.
    split; [lia|]. intros id l E%Hv. lia.
  - match goal with |- NoDup ?L =>
      assert (L = (map_to_list (store w)).*1) as Heq
    end; [|rewrite Heq; apply NoDup_fst_map_to_list].
    etrans; [apply (list_fmap_compose (λ p, (heap w ++ recs) !!! p)
                                      taskmodel.ID)|].
    rewrite Hrecs, <- list_fmap_compose. apply list_fmap_ext.
    intros i [k l] Hi%list_elem_of_lookup_2%elem_of_map_to_list. simpl.
    rewrite overlay_ID. by destruct (inv_store _ Hinv _ _ Hi) as (_ & _ & ?).
  - intros id. unfold rec. rewrite stored_is_Some. fold (store w). split.
    + intros [l E].
      assert (overlay w (heap w !!! l) ∈
                (λ kv : UUID * loc, overlay w (heap w !!! kv.2))
                  <$> map_to_list (store w)) as Hin.
      { apply list_elem_of_fmap. exists (id, l). split; [done|].
        by apply elem_of_map_to_list. }
      rewrite <- Hrecs in Hin.
      apply list_elem_of_fmap in Hin as (p & Heq & Hp).
      exists p. split; [done|]. rewrite <- Heq, overlay_ID.
      by destruct (inv_store _ Hinv _ _ E) as (_ & _ & ?).
    + intros (p & Hp & <-). destruct (Hcell p Hp) as (k & l & E & _ & <-).
      by eexists.
  - intros p Hp. destruct (Hcell p Hp) as (k & l & E & Heq & Hk).
    rewrite Hk, (GetTask_found _ l) by done.
    eexists. split; [done|]. rewrite Heq.
    exact (lookup_total_snoc_last (heap w) _).
  - intros l Hl. by rewrite lookup_total_app_l.
Qed.

Lemma ListTasks_lists_every_record_once_witness :
  (ListTasks world_created).2.2 = None ∧
  length (ListTasks world_created).2.1 =
    taskrepository.GetTaskCount (repo world_created) ∧
  (ListTasks world_created).2.1 = [3].
Proof.
  pose proof (ListTasks_lists_every_record_once world_created
                world_created_reachable) as H.
  cbv zeta in H. destruct H as (Herr & Hlen & _).
  split; [exact Herr|]. split; [exact Hlen|]. by vm_compute.
Defined.

End ServiceCalls.

(** ** The wait group *)
Section WaitGroup.
Import taskmodel taskservice.
Implicit Types (w : World) (th : Thread) (e : Exec).

Local Arguments taskrepository.Create : simpl never.
Local Arguments taskrepository.Update : simpl never.
Local Arguments taskrepository.GetByID : simpl never.
Local Arguments taskrepository.Delete : simpl never.
Local Arguments taskrepository.GetAll : simpl never.

Lemma count_before_wg_Done_app (l l' : list Thread) :
  length (filter (λ th, before_wg_Done th = true) (l ++ l')) =
    length (filter (λ th, before_wg_Done th = true) l) +
    length (filter (λ th, before_wg_Done th = true) l').
Proof. by rewrite filter_app, length_app. Qed.

Lemma count_before_wg_Done_insert (l : list Thread) i th th' :
  l !! i = Some th →
  length (filter (λ th, before_wg_Done th = true) (<[i := th']> l)) +
      (if before_wg_Done th then 1 else 0) =
    length (filter (λ th, before_wg_Done th = true) l) +
      (if before_wg_Done th' then 1 else 0).
Proof.
  revert i. induction l as [|x l IH]; intros [|i] E; try done.
  - injection E as ->. simpl. rewrite !filter_cons.
    destruct (before_wg_Done th) eqn:E1, (before_wg_Done th') eqn:E2;
      repeat case_decide; try done; simpl; lia.
  - simpl in *. rewrite !filter_cons. specialize (IH i E).
    case_decide; simpl; lia.
Qed.

(** What a step of [executeTask] does to the wait group. *)
Lemma executeTask_step_wg ev e w w1 th' :
  executeTask_step ev e w = Some (w1, th') →
  threads w1 = threads w ∧
  (wg w1 + (if before_wg_Done (TExec e) then 1 else 0) =
   wg w + (if before_wg_Done th' then 1 else 0))%Z.
Proof.
  intros Hstep. unfold executeTask_step in Hstep. simpl.
  destruct (e_pc e) eqn:Epc, ev; try done;
    repeat (case_bool_decide || case_match); try done;
    unfold exec_start, exec_cancelled, exec_tick, exec_updating,
      exec_update_failed, exec_finalizing, exec_mark, exec_defer_wg,
      exec_defer_mark, exec_defer_delete, exec_finalize in Hstep;
    repeat (case_bool_decide || case_match); try done;
    injection Hstep as <- <-; simpl; rewrite ?Epc;
    repeat case_match; try done; split; try done; simpl; lia.
Qed.

Lemma thread_step_wg ev th w w1 th' i :
  threads w !! i = Some th →
  thread_step ev th w = Some (w1, th') →
  (wg w1 - Z.of_nat (outstanding (set_threads (<[i := th']> (threads w1)) w1)) =
   wg w - Z.of_nat (outstanding w))%Z.
Proof.
  intros Hi Hstep. unfold outstanding. simpl.
  destruct th as [e|task|taskID pc|]; simpl in Hstep.
  - destruct (executeTask_step_wg _ _ _ _ _ Hstep) as [Hth Hwg].
    rewrite Hth. pose proof (count_before_wg_Done_insert _ _ _ th' Hi) as Hc.
    destruct (before_wg_Done (TExec e)), (before_wg_Done th'); lia.
  - injection Hstep as <- <-. rewrite CreateTask_start_spec. simpl.
    rewrite insert_app_l by (by eapply lookup_lt_Some).
    rewrite count_before_wg_Done_app.
    pose proof (count_before_wg_Done_insert _ _ _ TExited Hi) as Hc.
    match goal with |- context [length (filter ?P [?x])] =>
      replace (length (filter P [x])) with 1 by done
    end.
    simpl in Hc. lia.
  - destruct (DeleteTask_step_frame _ _ _ _ _ Hstep) as [Hth [pc' ->]].
    rewrite Hth.
    pose proof (count_before_wg_Done_insert _ _ _ (TDelete taskID pc') Hi) as Hc.
    simpl in Hc.
    assert (wg w1 = wg w); [|lia].
    destruct pc; simpl in Hstep.
    + unfold DeleteTask_check in Hstep. repeat case_match; simplify_eq; done.
    + injection Hstep as <- _. unfold DeleteTask_cancel.
      by destruct (loadTaskContext taskID w).
    + repeat case_match; by simplify_eq.
    + by injection Hstep as <- _.
    + done.
  - done.
Qed.

Lemma count_before_wg_Done_zero (l : list Thread) :
  length (filter (λ th, before_wg_Done th = true) l) = 0 ↔
  ∀ i th, l !! i = Some th → before_wg_Done th = false.
Proof.
  induction l as [|x l IH].
  - split; [by intros _ i th|done].
  - rewrite filter_cons. case_decide as Hx; simpl.
    + split; [done|]. intros H. specialize (H 0 x eq_refl). congruence.
    + rewrite IH. split.
      * intros H [|i] th E; [|by apply (H i)]. injection E as <-.
        by destruct (before_wg_Done x).
      * intros H i th E. by apply (H (S i)).
Qed.

Lemma step_wg w w' :
  inv w → step w w' →
  (wg w' - Z.of_nat (outstanding w') = wg w - Z.of_nat (outstanding w))%Z.
Proof.
  intros Hinv Hstep.
  destruct Hstep as [t Ht|id name Hfresh|taskID| |id c Hc|taskID|i th ev w1 th' Hi Hth].
  - done.
  - assert (store w !! id = None) as Hnone.
    { destruct (store w !! id) as [l|] eqn:E; [|done].
      by destruct (inv_store _ Hinv _ _ E) as (_ & ? & _). }
    rewrite CreateTask_call_fresh by done. unfold outstanding. simpl.
    rewrite count_before_wg_Done_app. simpl. lia.
  - destruct (store w !! taskID) as [l|] eqn:E.
    + by rewrite (GetTask_found _ l).
    + by rewrite GetTask_missing.
  - rewrite ListTasks_spec; [done|].
    intros id l E. by destruct (inv_store _ Hinv _ _ E).
  - unfold cancel_unfinished. by destruct (negb _).
  - unfold outstanding. simpl. rewrite count_before_wg_Done_app. simpl. lia.
  - exact (thread_step_wg ev th w w1 th' i Hi Hth).
Qed.

(** X6. In every state the process can be in, the counter of the wait
    group equals the number of [executeTask] goroutines that have not yet
    run [s.wg.Done()].  So the counter is never negative ([Done] does not
    panic), and it is zero, which is when the [s.wg.Wait()] of [Shutdown]
    returns, exactly when every [executeTask] goroutine started so far
    has run [s.wg.Done()]. *)
Theorem wg_counts_goroutines_before_Done w :
  reachable w →
  wg w = Z.of_nat (outstanding w) ∧
  (0 ≤ wg w)%Z ∧
  (wg w = 0%Z ↔
     ∀ i e, threads w !! i = Some (TExec e) →
            e_pc e = PDeferMark ∨ e_pc e = PDeferDelete).
Proof.
  intros Hr.
  assert (wg w = Z.of_nat (outstanding w)) as Hwg.
  { induction Hr as [|w w' Hr IH Hstep]; [done|].
    pose proof (step_wg w w' (reachable_inv _ Hr) Hstep). lia. }
  split; [done|]. split; [lia|].
  rewrite Hwg. unfold outstanding.
  rewrite <- Nat2Z.inj_0, Nat2Z.inj_iff, count_before_wg_Done_zero.
  split.
  - intros H i e E. specialize (H i _ E). simpl in H.
    destruct (e_pc e); try done; [by left|by right].
  - intros H i th E. destruct th as [e| | |]; try done.
    simpl. by destruct (H i e E) as [-> | ->].
Qed.

Lemma wg_counts_goroutines_before_Done_witness :
  wg world_started = Z.of_nat (outstanding world_started) ∧
  wg world_started = 1%Z.
Proof.
  destruct (wg_counts_goroutines_before_Done world_started
              world_started_reachable) as (Hwg & _).
  split; [exact Hwg|]. by vm_compute.
Defined.

End WaitGroup.

(** ** The registry of contexts *)
Section Registry.
Import taskmodel taskservice.
Implicit Types (w : World) (id taskID : UUID) (e : Exec) (th : Thread).

Local Arguments taskrepository.Create : simpl never.
Local Arguments taskrepository.Update : simpl never.
Local Arguments taskrepository.GetByID : simpl never.
Local Arguments taskrepository.Delete : simpl never.
Local Arguments taskrepository.GetAll : simpl never.

(** What a step of [executeTask] does to the registry: nothing, except
    for the last step, which removes the entry of the task. *)
Lemma executeTask_step_contexts ev e w w1 th' :
  executeTask_step ev e w = Some (w1, th') →
  (contexts w1 = contexts w ∧ th' ≠ TExited) ∨
  (th' = TExited ∧ contexts w1 = delete (exec_id w e) (contexts w)).
Proof.
  intros Hstep. unfold executeTask_step in Hstep.
  destruct (e_pc e) eqn:Epc, ev; try done;
    repeat (case_bool_decide || case_match); try done;
    unfold exec_start, exec_cancelled, exec_tick, exec_updating,
      exec_update_failed, exec_finalizing, exec_mark, exec_defer_wg,
      exec_defer_mark, exec_defer_delete, exec_finalize in Hstep;
    repeat (case_bool_decide || case_match); try done;
    injection Hstep as <- <-; try (by left); by right.
Qed.

Lemma DeleteTask_step_contexts taskID pc w w1 th' id c :
  DeleteTask_step taskID pc w = Some (w1, th') →
  contexts w1 !! id = Some c → contexts w !! id = Some c.
Proof.
  intros Hstep. destruct pc; simpl in Hstep.
  - unfold DeleteTask_check in Hstep. repeat case_match; by simplify_eq.
  - injection Hstep as <- _. unfold DeleteTask_cancel.
    destruct (loadTaskContext taskID w); [|done]. simpl.
    by intros [_ ?]%lookup_delete_Some.
  - repeat case_match; by simplify_eq.
  - by injection Hstep as <- _.
  - done.
Qed.

(** A registered context is the context of a goroutine of [executeTask]
    that has not returned, and this is kept by every step. *)
Lemma step_registry_owner w w' :
  inv w → step w w' →
  (∀ id c, contexts w !! id = Some c →
     ∃ i e, threads w !! i = Some (TExec e) ∧ e_tc e = c ∧ exec_id w e = id) →
  ∀ id c, contexts w' !! id = Some c →
    ∃ i e, threads w' !! i = Some (TExec e) ∧ e_tc e = c ∧ exec_id w' e = id.
Proof.
  intros Hinv Hstep IH id c Hc.
  assert (contexts w !! id = Some c →
          (∀ j e, threads w !! j = Some (TExec e) → exec_id w e = id →
             ∃ e', threads w' !! j = Some (TExec e') ∧
                   e_task e' = e_task e ∧ e_tc e' = e_tc e) →
          ∃ i e, threads w' !! i = Some (TExec e) ∧ e_tc e = c ∧
                 exec_id w' e = id) as Hkeep.
  { intros Hc0 Hfw. destruct (IH _ _ Hc0) as (j & e & Hj & Htc & Hid).
    destruct (Hfw _ _ Hj Hid) as (e' & Hj' & Ht & Htc').
    exists j, e'. split; [done|]. split; [congruence|].
    rewrite <- Hid. unfold exec_id. rewrite Ht.
    apply step_heap_ID; [done..|]. by destruct (inv_exec _ Hinv _ _ Hj). }
  destruct Hstep
    as [t Ht|id0 name Hfresh|taskID| |id0 c0 Hc0|taskID|i th ev w1 th' Hi Hstep].
  - apply Hkeep; [exact Hc|]. intros j e Hj _. by exists e.
  - assert (store w !! id0 = None) as Hnone.
    { destruct (store w !! id0) as [l|] eqn:E; [|done].
      by destruct (inv_store _ Hinv _ _ E) as (_ & ? & _). }
    apply Hkeep; [by rewrite CreateTask_call_fresh in Hc|].
    intros j e Hj _. exists e. split; [|done].
    rewrite CreateTask_call_fresh by done. simpl. by apply lookup_app_l_Some.
  - destruct (store w !! taskID) as [l|] eqn:E.
    + apply Hkeep; [by rewrite (GetTask_found _ l) in Hc|].
      intros j e Hj _. exists e. by rewrite (GetTask_found _ l).
    + apply Hkeep; [by rewrite GetTask_missing in Hc|].
      intros j e Hj _. exists e. by rewrite GetTask_missing.
  - assert (∀ id l, store w !! id = Some l → l < length (heap w)) as Hv
      by (intros ? l E; by destruct (inv_store _ Hinv _ _ E)).
    apply Hkeep; [by rewrite ListTasks_spec in Hc|].
    intros j e Hj _. exists e. by rewrite ListTasks_spec.
  - apply Hkeep.
    + unfold cancel_unfinished in Hc. by destruct (negb _).
    + intros j e Hj _. exists e. split; [|done].
      unfold cancel_unfinished. by destruct (negb _).
  - apply Hkeep; [exact Hc|]. intros j e Hj _. exists e. split; [|done].
    simpl. by apply lookup_app_l_Some.
  - destruct th as [e0|task|taskID pc|]; simpl in Hstep; [| | |done].
    + destruct (executeTask_step_frame ev e0 w w1 th') as [Hth Hth']; [|done|].
      { by destruct (inv_exec _ Hinv _ _ Hi). }
      simpl in Hc.
      destruct (executeTask_step_contexts _ _ _ _ _ Hstep)
        as [[Hcx Hne]|[-> Hcx]]; rewrite Hcx in Hc.
      * apply Hkeep; [exact Hc|]. intros j e Hj _. simpl. rewrite Hth.
        destruct (decide (j = i)) as [->|Hji].
        -- rewrite Hi in Hj. injection Hj as ->.
           destruct th' as [e'| | |]; try done.
           exists e'. split; [|by destruct Hth' as (? & ? & _)].
           apply list_lookup_insert_eq. by eapply lookup_lt_Some.
        -- exists e. split; [|done]. by rewrite list_lookup_insert_ne.
      * apply lookup_delete_Some in Hc as [Hne Hc].
        apply Hkeep; [exact Hc|]. intros j e Hj Hid. simpl. rewrite Hth.
        destruct (decide (j = i)) as [->|Hji].
        -- rewrite Hi in Hj. injection Hj as ->. done.
        -- exists e. split; [|done]. by rewrite list_lookup_insert_ne.
    + injection Hstep as <- <-.
      assert (i < length (threads w)) as Hilt by by eapply lookup_lt_Some.
      rewrite CreateTask_start_spec in Hc |- *. simpl in Hc |- *.
      rewrite insert_app_l by done.
      apply lookup_insert_Some in Hc as [[<- <-]|[Hne Hc]].
      * exists (length (threads w)),
          (mkExec (length (heap w)) (length (ctxs w)) PStart 0 0 0).
        split; [|split; [done|]].
        -- rewrite lookup_app_r by (by rewrite length_insert).
           by rewrite length_insert, Nat.sub_diag.
        -- unfold exec_id, heap. simpl. by rewrite lookup_total_snoc_last.
      * destruct (IH _ _ Hc) as (j & e & Hj & Htc & Hid).
        exists j, e. split; [|split; [done|]].
        -- apply lookup_app_l_Some. rewrite list_lookup_insert_ne; [done|].
           intros ->. by rewrite Hi in Hj.
        -- rewrite <- Hid. unfold exec_id, heap. simpl.
           rewrite lookup_total_app_l; [done|].
           by destruct (inv_exec _ Hinv _ _ Hj).
    + destruct (DeleteTask_step_frame _ _ _ _ _ Hstep) as [Hth [pc' ->]].
      simpl in Hc. apply (DeleteTask_step_contexts _ _ _ _ _ _ _ Hstep) in Hc.
      apply Hkeep; [exact Hc|]. intros j e Hj _. simpl. rewrite Hth.
      exists e. split; [|done]. rewrite list_lookup_insert_ne; [done|].
      intros ->. by rewrite Hi in Hj.
Qed.

(** X7. In every state the process can be in, a context registered under
    an identifier belongs to a goroutine of [executeTask] for that task
    which has not returned yet (the one whose deferred function removes
    the entry); it is the only context ever made for the identifier, and
    the only goroutine for it.  So [GetTaskStatus] reports a status, and
    a task is seen as live by [GetTask], only while that goroutine is
    there. *)
Theorem registered_context_has_running_goroutine w id c :
  reachable w → contexts w !! id = Some c →
  (∃ i e, threads w !! i = Some (TExec e) ∧ e_tc e = c ∧ exec_id w e = id ∧
     ∀ j e', threads w !! j = Some (TExec e') → exec_id w e' = id → j = i) ∧
  c < length (ctxs w) ∧ ID (ctxs w !!! c) = id ∧
  (∀ c', c' < length (ctxs w) → ID (ctxs w !!! c') = id → c' = c) ∧
  GetTaskStatus id w = (Status (ctxs w !!! c), true).
Proof.
  intros Hr Hc. pose proof (reachable_inv _ Hr) as Hinv.
  assert (∃ i e, threads w !! i = Some (TExec e) ∧ e_tc e = c ∧
                 exec_id w e = id) as (i & e & Hi & Htc & Hid).
  { revert id c Hc. induction Hr as [|w w' Hr IH Hstep]; [done|].
    apply (step_registry_owner w w'); [by apply reachable_inv|done|].
    apply IH. by apply reachable_inv. }
  destruct (inv_registry _ Hinv _ _ Hc) as [Hlt Hcid].
  split_and!; try done.
  - exists i, e. split_and!; try done. intros j e' Hj Hid'.
    apply (inv_unique _ Hinv j i e' e); congruence.
  - intros c' Hc' Hid'. apply (inv_ctx_unique _ Hinv); congruence.
  - unfold GetTaskStatus, loadTaskContext. by rewrite Hc.
Qed.

Lemma registered_context_has_running_goroutine_witness :
  ∃ i e, threads world_started !! i = Some (TExec e) ∧ e_tc e = 0 ∧
         exec_id world_started e = 5%N.
Proof.
  assert (contexts world_started !! 5%N = Some 0) as Hc by by vm_compute.
  destruct (registered_context_has_running_goroutine world_started 5 0
              world_started_reachable Hc) as ((i & e & Hi & Htc & Hid & _) & _).
  by exists i, e.
Defined.

End Registry.

(** ** Statuses and processing times *)
Section Timing.
Import taskmodel taskservice.
Implicit Types (w : World) (id taskID : UUID) (e : Exec) (th : Thread) (t : Task).

Local Arguments taskrepository.Create : simpl never.
Local Arguments taskrepository.Update : simpl never.
Local Arguments taskrepository.GetByID : simpl never.
Local Arguments taskrepository.Delete : simpl never.
Local Arguments taskrepository.GetAll : simpl never.

Lemma Forall_insert_total `{!Inhabited A} (P : A → Prop) (l : list A) i
    (f : A → A) :
  (∀ x, P x → P (f x)) → Forall P l → Forall P (<[i := f (l !!! i)]> l).
Proof.
  intros Hf Hl. destruct (decide (i < length l)) as [Hi|Hi].
  - apply Forall_insert; [done|]. apply Hf.
    eapply Forall_lookup_1; [done|]. by apply list_lookup_lookup_total_lt.
  - rewrite list_insert_ge by lia. done.
Qed.

Lemma Forall_lookup_total_lt `{!Inhabited A} (P : A → Prop) (l : list A) i :
  Forall P l → i < length l → P (l !!! i).
Proof.
  intros Hl Hi. eapply Forall_lookup_1; [done|].
  by apply list_lookup_lookup_total_lt.
Qed.

Lemma well_formed_new_task id name now : well_formed (new_task id name now).
Proof. split; [by left|]. split; [done|]. by intros [=]. Qed.

Lemma well_formed_failed t pt :
  (0 ≤ pt)%Z →
  well_formed (set_ProcessingTime pt (taskmodel.set_Status StatusFailed t)).
Proof. intros Hpt. split; [by right; right|]. split; [done|]. by intros [=]. Qed.

Lemma well_formed_done t pt :
  (3 * time.Minute ≤ pt)%Z →
  well_formed (set_ProcessingTime pt (taskmodel.set_Status StatusDone t)).
Proof.
  intros Hpt. split; [by right; left|]. split; [|done]. simpl.
  unfold time.Minute, time.Second, time.Nanosecond in *. lia.
Qed.

Lemma well_formed_processing t pt :
  taskmodel.Status t = StatusProcessing → (0 ≤ pt)%Z →
  well_formed (set_ProcessingTime pt t).
Proof.
  intros Hst Hpt. split; [by left|]. split; [done|]. simpl.
  rewrite Hst. by intros [=].
Qed.

Lemma well_formed_overlay w t :
  inv w → Forall (λ tc, (Started tc ≤ now w)%Z) (ctxs w) →
  well_formed t → well_formed (overlay w t).
Proof.
  intros Hinv Hc Ht. unfold overlay, IsProcessing.
  case_bool_decide as Hst; [|done].
  destruct (contexts w !! taskmodel.ID t) as [c|] eqn:E; [|done].
  destruct (IsFinished _); [done|].
  apply well_formed_processing; [done|].
  destruct (inv_registry _ Hinv _ _ E) as [Hlt _].
  pose proof (Forall_lookup_total_lt _ _ _ Hc Hlt) as H. simpl in H. lia.
Qed.

(** What a step of [executeTask] does to the records and the clocks. *)
Lemma executeTask_step_timing ev e w w1 th' :
  e_task e < length (heap w) →
  (e_pc e = PLoop → taskmodel.Status (heap w !!! e_task e) = StatusProcessing) →
  exec_clock (now w) e →
  Forall well_formed (heap w) →
  Forall (λ tc, (Started tc ≤ now w)%Z) (ctxs w) →
  executeTask_step ev e w = Some (w1, th') →
  Forall well_formed (heap w1) ∧ now w1 = now w ∧
  Forall (λ tc, (Started tc ≤ now w)%Z) (ctxs w1) ∧
  match th' with TExec e' => exec_clock (now w) e' | _ => True end.
Proof.
  intros Hlt Hloop [Hclock Hel] Hh Hc Hstep. unfold executeTask_step in Hstep.
  assert (∀ st, after_finalize_Load w (exec_id w e) st ≠ PStart ∧
            ∀ el, after_finalize_Load w (exec_id w e) st ≠ PUpdateFailed el)
    as Hfin.
  { intros st. unfold after_finalize_Load. by destruct (store w !! _). }
  assert (well_formed (heap w !!! e_task e)) as Hcell
    by by apply Forall_lookup_total_lt.
  destruct (e_pc e) eqn:Epc, ev; try done.
  - case_bool_decide as Hr; [|done]. injection Hstep as <- <-.
    split_and!; try done. split; simpl; [|done]. intros _.
    split; [lia|]. by destruct (workDuration_bounds r Hr) as [[? _] _].
  - destruct (ctx_done _ _); [|done]. unfold exec_cancelled in Hstep.
    rewrite exec_finalize_spec in Hstep by done. injection Hstep as <- <-.
    destruct Hclock as [Hs Hw]; [done|].
    split_and!; try done.
    + apply Forall_insert; [done|]. apply well_formed_failed.
      unfold time.Since. lia.
    + split; simpl; [done|]. intros el Hx.
      by destruct (Hfin StatusFailed) as [_ Hne]; destruct (Hne el).
  - case_bool_decide; [|done]. rewrite exec_tick_spec in Hstep by done.
    cbn zeta in Hstep. destruct Hclock as [Hs Hw]; [done|].
    case_bool_decide as Hwork; injection Hstep as <- <-.
    + split_and!; try done.
      * apply Forall_insert; [done|]. apply well_formed_done. lia.
      * split; simpl; [done|]. intros el Hx.
        by destruct (Hfin StatusDone) as [_ Hne]; destruct (Hne el).
    + split_and!; try done.
      * apply Forall_insert; [done|]. apply well_formed_processing; [|lia].
        by apply Hloop.
      * split; simpl; [done|]. unfold after_update_Load.
        destruct (store w !! _); [done|]. intros el [= <-]. lia.
  - injection Hstep as <- <-. split_and!; try done.
    + change (Forall well_formed (taskrepository.heap
                (taskrepository.Update_Store (e_task e) (repo w)))).
      rewrite Update_Store_spec. simpl.
      apply Forall_app. split; [done|]. by apply Forall_singleton.
    + split; simpl; [|done]. intros _. by apply Hclock.
  - unfold exec_update_failed in Hstep.
    rewrite exec_finalize_spec in Hstep by done. injection Hstep as <- <-.
    destruct Hclock as [Hs Hw]; [done|].
    split_and!; try done.
    + apply Forall_insert; [done|]. apply well_formed_failed. by apply Hel.
    + split; simpl; [done|]. intros el Hx.
      by destruct (Hfin StatusFailed) as [_ Hne]; destruct (Hne el).
  - injection Hstep as <- <-. split_and!; try done.
    + change (Forall well_formed (taskrepository.heap
                (taskrepository.Update_Store (e_task e) (repo w)))).
      rewrite Update_Store_spec. simpl.
      apply Forall_app. split; [done|]. by apply Forall_singleton.
    + split; simpl; [|done]. intros _. by apply Hclock.
  - injection Hstep as <- <-. split_and!; try done.
    + apply (Forall_insert_total _ _ _ (markFinished status)); [|done].
      intros tc. unfold markFinished. simpl. by destruct (Done tc).
    + split; simpl; [|done]. intros _. by apply Hclock.
  - injection Hstep as <- <-. split_and!; try done.
    split; simpl; [|done]. intros _. by apply Hclock.
  - injection Hstep as <- <-. split_and!; try done.
    + by destruct (negb _).
    + by destruct (negb _).
    + destruct (negb _); [|done].
      apply (Forall_insert_total _ _ _ (markFinished StatusFailed)); [|done].
      intros tc. unfold markFinished. simpl. by destruct (Done tc).
    + split; simpl; [|done]. intros _. by apply Hclock.
  - by injection Hstep as <- <-.
Qed.

Lemma exec_clock_mono now now' e :
  (now ≤ now')%Z → exec_clock now e → exec_clock now' e.
Proof.
  intros Hle [H1 H2]. split; [|done]. intros Hpc.
  destruct (H1 Hpc). split; [lia|done].
Qed.

Lemma step_timing_inv w w' : inv w → timing_inv w → step w w' → timing_inv w'.
Proof.
  intros Hinv (Hh & Hc & He) Hstep.
  assert (∀ id l, store w !! id = Some l → l < length (heap w)) as Hv
    by (intros ? l E; by destruct (inv_store _ Hinv _ _ E)).
  destruct Hstep
    as [t Ht|id name Hfresh|taskID| |id c Hcx|taskID|i th ev w1 th' Hi Hstep].
  - split_and!; [done| |].
    + eapply Forall_impl; [done|]. simpl. intros; lia.
    + intros i e Hi. eapply exec_clock_mono; [done|]. by eapply He.
  - assert (store w !! id = None) as Hnone.
    { destruct (store w !! id) as [l|] eqn:E; [|done].
      by destruct (inv_store _ Hinv _ _ E) as (_ & ? & _). }
    rewrite CreateTask_call_fresh by done. split_and!; [|done|].
    + unfold heap. simpl. apply Forall_app. split; [done|].
      repeat constructor; apply well_formed_new_task.
    + simpl. intros i e [E|[_ E]]%lookup_app_Some; [by eapply He|].
      by destruct (i - length (threads w)) as [|[|?]].
  - destruct (store w !! taskID) as [l|] eqn:E.
    + rewrite (GetTask_found _ l) by done. split_and!; [|done..].
      unfold heap. simpl. apply Forall_app. split; [done|].
      apply Forall_singleton. apply well_formed_overlay; [done..|].
      apply Forall_lookup_total_lt; [done|]. by eapply Hv.
    + by rewrite GetTask_missing.
  - rewrite ListTasks_spec by done. split_and!; [|done..].
    unfold heap. simpl. apply Forall_app. split; [done|].
    apply Forall_fmap, Forall_fmap, Forall_forall.
    intros [k l] Hkl%elem_of_map_to_list. simpl.
    apply well_formed_overlay; [done..|].
    apply Forall_lookup_total_lt; [done|]. by eapply Hv.
  - unfold cancel_unfinished. destruct (negb _); [|done].
    split_and!; [done| |done].
    by apply (Forall_insert_total _ _ _ Cancel).
  - split_and!; [done..|]. simpl.
    intros i e [E|[_ E]]%lookup_app_Some; [by eapply He|].
    by destruct (i - length (threads w)) as [|[|?]].
  - destruct th as [e0|task|taskID pc|]; simpl in Hstep; [| | |done].
    + destruct (inv_exec _ Hinv _ _ Hi) as (Hlt & _ & _ & _ & Hphase).
      destruct (executeTask_step_frame ev e0 w w1 th') as [Hth _]; [done..|].
      destruct (executeTask_step_timing ev e0 w w1 th')
        as (Hh1 & Hnow & Hc1 & He1); try done.
      { intros Hpc. rewrite Hpc in Hphase. by destruct Hphase. }
      { by eapply He. }
      split_and!; [done|simpl; by rewrite Hnow|]. simpl. rewrite Hth, Hnow.
      intros j e [(<- & -> & _)|[Hne E]]%list_lookup_insert_Some; [done|].
      by eapply He.
    + injection Hstep as <- <-.
      assert (i < length (threads w)) as Hilt by by eapply lookup_lt_Some.
      destruct (inv_create _ Hinv _ _ Hi) as (Hlt & _).
      rewrite CreateTask_start_spec. split_and!.
      * unfold heap. simpl. apply Forall_app. split; [done|].
        apply Forall_singleton. by apply Forall_lookup_total_lt.
      * simpl. apply Forall_app. split; [done|]. by apply Forall_singleton.
      * simpl. rewrite insert_app_l by done.
        intros j e [E|[_ E]]%lookup_app_Some.
        -- apply list_lookup_insert_Some in E as [(_ & [=] & _)|[_ E]].
           by eapply He.
        -- rewrite length_insert in E.
           destruct (j - length (threads w)) as [|[|?]]; [|done..].
           injection E as <-. by split.
    + destruct (DeleteTask_step_frame _ _ _ _ _ Hstep) as [Hth [pc' ->]].
      assert (Forall well_formed (heap w1) ∧ now w1 = now w ∧
              Forall (λ tc, (Started tc ≤ now w)%Z) (ctxs w1))
        as (Hh1 & Hnow & Hc1).
      { destruct pc; simpl in Hstep.
        - unfold DeleteTask_check in Hstep.
          destruct (store w !! taskID) as [l|] eqn:E.
          + unfold store in E. rewrite (GetByID_found _ l) in Hstep by done.
            injection Hstep as <- _. split_and!; [|done..].
            unfold heap. simpl. apply Forall_app. split; [done|].
            apply Forall_singleton. apply Forall_lookup_total_lt; [done|].
            by eapply Hv.
          + unfold store in E. rewrite GetByID_missing in Hstep by done.
            injection Hstep as <- _. by rewrite set_repo_id.
        - injection Hstep as <- _. unfold DeleteTask_cancel.
          destruct (loadTaskContext taskID w); [|done].
          split_and!; [done..|]. simpl.
          by apply (Forall_insert_total _ _ _ Cancel).
        - repeat case_match; by simplify_eq.
        - by injection Hstep as <- _.
        - done. }
      split_and!; [done|simpl; by rewrite Hnow|]. simpl. rewrite Hth, Hnow.
      intros j e [(_ & [=] & _)|[Hne E]]%list_lookup_insert_Some.
      by eapply He.
Qed.

Lemma reachable_timing_inv w : reachable w → timing_inv w.
Proof.
  induction 1 as [|w w' Hr IH Hstep].
  - split_and!; [by constructor..|done].
  - eapply step_timing_inv; [|done..]. by apply reachable_inv.
Qed.

(** X8. In every state the process can be in, every stored record, and
    every record [GetTask] or [ListTasks] returns, has the status
    PROCESSING, DONE or FAILED (so exactly one of [IsProcessing], [IsDone]
    and [IsFailed] holds of it) and a processing time that is not
    negative; a record that is DONE has a processing time of 3 minutes
    at least. *)
Theorem records_have_a_status_and_a_sound_processing_time w :
  reachable w →
  let sound t :=
    (IsProcessing t = true ∧ IsDone t = false ∧ IsFailed t = false ∨
     IsProcessing t = false ∧ IsDone t = true ∧ IsFailed t = false ∨
     IsProcessing t = false ∧ IsDone t = false ∧ IsFailed t = true) ∧
    (0 ≤ ProcessingTime t)%Z ∧
    (IsDone t = true → (3 * time.Minute ≤ ProcessingTime t)%Z) in
  (∀ id t, rec w id = Some t → sound t) ∧
  (∀ id p, (GetTask id w).2.1 = Some p → sound (heap (GetTask id w).1 !!! p)) ∧
  (∀ p, p ∈ (ListTasks w).2.1 → sound (heap (ListTasks w).1 !!! p)).
Proof.
  intros Hr sound.
  assert (∀ t, well_formed t → sound t) as Hsound.
  { intros t (Hst & Hpt & Hdone). unfold sound, IsProcessing, IsDone, IsFailed.
    split; [|split; [done|]].
    - destruct Hst as [-> | [-> | ->]]; [left|right; left|right; right]; done.
    - intros ?%bool_decide_eq_true. by apply Hdone. }
  assert (∀ w0 l, reachable w0 → l < length (heap w0) → sound (heap w0 !!! l))
    as Hall.
  { intros w0 l Hr0 Hl. apply Hsound.
    destruct (reachable_timing_inv w0 Hr0) as (Hh & _).
    by apply Forall_lookup_total_lt. }
  pose proof (reachable_inv _ Hr) as Hinv.
  assert (∀ id l, store w !! id = Some l → l < length (heap w)) as Hv
    by (intros ? l E; by destruct (inv_store _ Hinv _ _ E)).
  split_and!.
  - intros id t (l & E & <-)%rec_Some. apply Hall; [done|]. by eapply Hv.
  - intros id p Hp. apply Hall.
    + eapply reachable_step; [done|]. apply step_GetTask.
    + destruct (store w !! id) as [l|] eqn:E.
      * rewrite (GetTask_found _ l) in Hp |- * by done.
        injection Hp as <-. unfold heap. simpl. rewrite length_app. simpl. lia.
      * by rewrite GetTask_missing in Hp.
  - intros p Hp. apply Hall.
    + eapply reachable_step; [done|]. apply step_ListTasks.
    + rewrite ListTasks_spec in Hp |- * by done. simpl in Hp.
      apply elem_of_seq in Hp. unfold heap at 1. simpl.
      rewrite length_app, !length_fmap. lia.
Qed.

Lemma records_have_a_status_witness :
  IsDone (mkTask 5 "Beta" StatusDone 0 (3 * time.Minute)) = true ∧
  rec world_finalized 5 = Some (mkTask 5 "Beta" StatusDone 0 (3 * time.Minute)) ∧
  (3 * time.Minute ≤
     ProcessingTime (mkTask 5 "Beta" StatusDone 0 (3 * time.Minute)))%Z.
Proof.
  assert (rec world_finalized 5 =
            Some (mkTask 5 "Beta" StatusDone 0 (3 * time.Minute))) as Hrec
    by by vm_compute.
  pose proof (records_have_a_status_and_a_sound_processing_time
                world_finalized world_finalized_reachable) as H.
  cbv zeta in H. destruct H as (H & _).
  destruct (H _ _ Hrec) as (_ & _ & Hdone).
  split; [done|]. split; [exact Hrec|]. by apply Hdone.
Defined.

End Timing.

(** ** The task model *)
Section TaskModel.
Import taskmodel.
Implicit Types (t : Task) (heap : list Task).

Lemma foldl_WithName (names : list string) t :
  foldl (λ t (opt : Option), opt t) t (WithName <$> names) =
    set_Name (default (Name t) (last names)) t.
Proof.
  revert t. induction names as [|n names IH]; intros t.
  - by destruct t.
  - simpl. rewrite IH. unfold WithName. simpl.
    destruct names as [|n' names]; [done|]. simpl.
    destruct (last (n' :: names)) eqn:E; [done|]. by apply last_None in E.
Qed.

(** X9. [NewTask] allocates a new cell and touches no other.  The task
    has the identifier drawn; with [WithName] options its name is the one
    of the last option (the empty string when there is none); its status
    is the empty string, so none of [IsProcessing], [IsDone], [IsFailed]
    holds of it until [SetStatus] is called; afterwards each of the three
    holds exactly when the status set is its constant, the other fields
    and cells being kept. *)
Theorem NewTask_applies_options_and_has_no_status id names heap status :
  let h := (NewTask id (WithName <$> names) heap).1 in
  let l := (NewTask id (WithName <$> names) heap).2 in
  let t := mkTask id (default "" (last names)) "" 0 0 in
  l = length heap ∧ length h = S (length heap) ∧
  (∀ l', l' < length heap → h !!! l' = heap !!! l') ∧
  h !!! l = t ∧
  IsProcessing t = false ∧ IsDone t = false ∧ IsFailed t = false ∧
  SetStatus status l h !!! l = set_Status status t ∧
  (∀ l', l' < length heap → SetStatus status l h !!! l' = heap !!! l') ∧
  IsProcessing (SetStatus status l h !!! l) =
    bool_decide (status = StatusProcessing) ∧
  IsDone (SetStatus status l h !!! l) = bool_decide (status = StatusDone) ∧
  IsFailed (SetStatus status l h !!! l) = bool_decide (status = StatusFailed).
Proof.
  cbn zeta. unfold NewTask. cbn [fst snd]. rewrite foldl_WithName.
  change (set_Name (default (Name (set_ID id zero)) (last names))
                   (set_ID id zero))
    with (mkTask id (default "" (last names)) "" 0 0).
  set (t := mkTask id (default "" (last names)) "" 0 0).
  assert ((heap ++ [t]) !!! length heap = t) as Ht.
  { rewrite lookup_total_app_r by done. by rewrite Nat.sub_diag. }
  assert (SetStatus status (length heap) (heap ++ [t]) =
            heap ++ [set_Status status t]) as HS.
  { unfold SetStatus. rewrite Ht, insert_app_r_alt by done.
    by rewrite Nat.sub_diag. }
  assert ((heap ++ [set_Status status t]) !!! length heap = set_Status status t)
    as Ht'.
  { rewrite lookup_total_app_r by done. by rewrite Nat.sub_diag. }
  rewrite HS, Ht, Ht'.
  split_and!; try done.
  - rewrite length_app. simpl. lia.
  - intros l' Hl'. by rewrite lookup_total_app_l.
  - intros l' Hl'. by rewrite lookup_total_app_l.
Qed.

End TaskModel.

(** ** Waiting for a task *)
Section Waiting.
Import taskmodel taskservice.
Implicit Types (w : World) (id taskID : UUID) (e : Exec) (tc : TaskContext).

Lemma steps_ctx_ID w w' c :
  inv w → steps w w' → c < length (ctxs w) →
  c < length (ctxs w') ∧ ID (ctxs w' !!! c) = ID (ctxs w !!! c).
Proof.
  intros Hinv Hsteps Hc. induction Hsteps as [|w1 w2 Hsteps IH Hstep]; [done|].
  destruct IH as [Hc1 Hid1].
  destruct (step_ctx_ID w1 w2 c) as [Hc2 Hid2]; [by eapply steps_inv|done..|].
  split; [done|]. by rewrite Hid2.
Qed.

(** X10. A [WaitForTask] call fails at once when no context is
    registered for the identifier, which is the case once the goroutine of
    the task has returned.  When it has loaded the context [c] in a
    reachable state and, any number of steps later, returns nil, the
    context carries the status DONE or FAILED, and from then on no read
    shows the task as PROCESSING: [GetTask] and [ListTasks] show it as
    DONE or FAILED or not at all, and so does [GetTaskStatus].  It
    returns nil only when the channel [Done] of the context is closed. *)
Theorem WaitForTask_nil_means_final w w' taskID c ctxDone pick :
  reachable w →
  (contexts w !! taskID = None →
     WaitForTask ctxDone pick taskID w =
       Some (Some (ErrNotFoundOrFinished taskID))) ∧
  (loadTaskContext taskID w = Some c → steps w w' →
   WaitForTask_select ctxDone pick c w' = Some None →
     IsFinished (ctxs w' !!! c) = true ∧
     terminal (Status (ctxs w' !!! c)) ∧
     ∀ w'', steps w' w'' →
       GetTask_status taskID w'' ≠ Some StatusProcessing ∧
       StatusProcessing ∉ ListTasks_statuses taskID w'' ∧
       GetTaskStatus_status taskID w'' ≠ Some StatusProcessing).
Proof.
  intros Hinv%reachable_inv. split.
  - intros E. unfold WaitForTask, loadTaskContext. by rewrite E.
  - unfold loadTaskContext. intros Ec Hsteps Hnil.
    destruct (inv_registry _ Hinv _ _ Ec) as [Hl Hk].
    assert (inv w') as Hinv' by by eapply steps_inv.
    destruct (steps_ctx_ID w w' c Hinv Hsteps Hl) as [Hl' Hk'].
    rewrite Hk in Hk'.
    assert (Done (ctxs w' !!! c) = true) as Hdone.
    { unfold WaitForTask_select in Hnil.
      by destruct ctxDone, (Done (ctxs w' !!! c)). }
    destruct (inv_ctx _ Hinv' _ Hl') as (_ & _ & Hfin).
    destruct (Hfin Hdone) as [Hterm _].
    split; [unfold IsFinished; by rewrite Hdone|]. split; [done|].
    intros w'' Hsteps'.
    assert (inv w'') as Hinv'' by by eapply steps_inv.
    destruct (steps_ctx_finished w' w'' c Hinv' Hsteps' Hl' Hdone)
      as [Hl'' (F1 & F2 & F3)].
    destruct (reads_rec_terminal w'' taskID Hinv'') as [R1 R2].
    { by apply (steps_settled w' w'' taskID Hinv' Hsteps'
                  (settled_ctx _ _ _ Hinv' Hl' Hk' Hdone)). }
    split; [done|]. split; [done|].
    rewrite GetTaskStatus_status_spec.
    destruct (contexts w'' !! taskID) as [c'|] eqn:Ec'; [|done]. simpl.
    intros [= Hbad].
    destruct (inv_registry _ Hinv'' _ _ Ec') as [Hlc' Hkc'].
    assert (c' = c) as Heq.
    { apply (inv_ctx_unique _ Hinv''); [done..|]. by rewrite Hkc', F1. }
    rewrite Heq, F3 in Hbad. rewrite Hbad in Hterm.
    by apply terminal_not_processing in Hterm.
Qed.

Lemma world_marked_steps : steps world_started world_marked.
Proof.
  eapply steps_step; [|apply step_run_thread; by vm_compute].
  eapply steps_step; [|apply step_run_thread; by vm_compute].
  eapply steps_step; [|apply step_run_thread; by vm_compute].
  eapply steps_step; [apply steps_refl|].
  apply (step_clock world_started (3 * time.Minute)). by vm_compute.
Qed.

Lemma WaitForTask_nil_means_final_witness :
  loadTaskContext 5 world_started = Some 0 ∧
  WaitForTask_select false false 0 world_marked = Some None ∧
  terminal (Status (ctxs world_marked !!! 0)).
Proof.
  assert (loadTaskContext 5 world_started = Some 0) as Hload by by vm_compute.
  assert (WaitForTask_select false false 0 world_marked = Some None) as Hnil
    by by vm_compute.
  split; [exact Hload|]. split; [exact Hnil|].
  destruct (WaitForTask_nil_means_final world_started world_marked 5 0
              false false world_started_reachable) as [_ H].
  by destruct (H Hload world_marked_steps Hnil) as (_ & Hterm & _).
Defined.

End Waiting.

(** ** Deleting a task *)
Section Deleting.
Import taskmodel taskservice.
Implicit Types (w : World) (id taskID : UUID) (e : Exec) (th : Thread).

Local Arguments taskrepository.Create : simpl never.
Local Arguments taskrepository.Update : simpl never.
Local Arguments taskrepository.GetByID : simpl never.
Local Arguments taskrepository.Delete : simpl never.
Local Arguments taskrepository.GetAll : simpl never.

Lemma DeleteTask_step_set_threads taskID pc ts w :
  DeleteTask_step taskID pc (set_threads ts w) =
    (λ p : World * Thread, (set_threads ts p.1, p.2))
      <$> DeleteTask_step taskID pc w.
Proof.
  destruct pc; simpl; try done.
  - unfold DeleteTask_check. simpl.
    by destruct (taskrepository.GetByID taskID (repo w)) as [r [p [err|]]].
  - unfold DeleteTask_cancel, loadTaskContext. simpl.
    by destruct (contexts w !! taskID).
  - by destruct (taskrepository.Delete_Load taskID (repo w)).
Qed.

(** A step of a [DeleteTask] call that is the last goroutine. *)
Lemma step_TDelete_last (T : list Thread) taskID pc pc' w w1 :
  DeleteTask_step taskID pc w = Some (w1, TDelete taskID pc') →
  step (set_threads (T ++ [TDelete taskID pc]) w)
       (set_threads (T ++ [TDelete taskID pc']) w1) ∧
  run_thread (length T) EvRun (set_threads (T ++ [TDelete taskID pc]) w) =
    set_threads (T ++ [TDelete taskID pc']) w1.
Proof.
  intros Hstep.
  assert (threads (set_threads (T ++ [TDelete taskID pc]) w) !! length T =
            Some (TDelete taskID pc)) as Hi.
  { simpl. rewrite lookup_app_r by done. by rewrite Nat.sub_diag. }
  assert (thread_step EvRun (TDelete taskID pc)
            (set_threads (T ++ [TDelete taskID pc]) w) =
          Some (set_threads (T ++ [TDelete taskID pc]) w1, TDelete taskID pc'))
    as Hth.
  { simpl. by rewrite DeleteTask_step_set_threads, Hstep. }
  assert (set_threads
            (<[length T := TDelete taskID pc']>
               (threads (set_threads (T ++ [TDelete taskID pc]) w1)))
            (set_threads (T ++ [TDelete taskID pc]) w1) =
          set_threads (T ++ [TDelete taskID pc']) w1) as Heq.
  { unfold set_threads. simpl. f_equal.
    rewrite insert_app_r_alt by done. by rewrite Nat.sub_diag. }
  split.
  - rewrite <- Heq. by eapply step_thread.
  - unfold run_thread. by rewrite Hi, Hth.
Qed.

Lemma DeleteTask_run_spec w taskID :
  is_Some (store w !! taskID) →
  steps w (DeleteTask_run taskID w) ∧
  DeleteTask_run taskID w =
    set_threads (threads w ++ [TDelete taskID (DReturned None)])
                (DeleteTask taskID w).1 ∧
  (DeleteTask taskID w).2 = None ∧
  (∀ l, l < length (heap w) →
        heap (DeleteTask taskID w).1 !!! l = heap w !!! l).
Proof.
  intros [l E]. unfold DeleteTask_run. cbn zeta.
  set (T := threads w).
  set (w1 := set_repo (taskrepository.mkState (heap w ++ [heap w !!! l])
                                              (store w)) w).
  set (w2 := DeleteTask_cancel taskID w1).
  set (w4 := set_repo (taskrepository.Delete_Delete taskID (repo w2)) w2).
  assert (store w2 !! taskID = Some l) as E2.
  { unfold w2, DeleteTask_cancel, loadTaskContext.
    by destruct (contexts w1 !! taskID). }
  assert (DeleteTask_step taskID DCheck w = Some (w1, TDelete taskID DCancel))
    as S1.
  { simpl. unfold DeleteTask_check. unfold store in E.
    by rewrite (GetByID_found _ l). }
  assert (DeleteTask_step taskID DCancel w1 = Some (w2, TDelete taskID DDelete))
    as S2 by done.
  assert (DeleteTask_step taskID DDelete w2 = Some (w2, TDelete taskID DDeleting))
    as S3.
  { simpl. unfold taskrepository.Delete_Load. unfold store in E2.
    by rewrite E2. }
  assert (DeleteTask_step taskID DDeleting w2 =
            Some (w4, TDelete taskID (DReturned None))) as S4 by done.
  destruct (step_TDelete_last T _ _ _ _ _ S1) as [St1 R1].
  destruct (step_TDelete_last T _ _ _ _ _ S2) as [St2 R2].
  destruct (step_TDelete_last T _ _ _ _ _ S3) as [St3 R3].
  destruct (step_TDelete_last T _ _ _ _ _ S4) as [St4 R4].
  rewrite R1, R2, R3, R4.
  assert (DeleteTask taskID w = (w4, None)) as HD.
  { rewrite (DeleteTask_present _ _ l) by done. fold w1 w2.
    unfold DeleteTask_delete. unfold store in E2.
    rewrite Delete_found by by eexists. done. }
  rewrite HD. split_and!; try done.
  - eapply steps_step; [|exact St4]. eapply steps_step; [|exact St3].
    eapply steps_step; [|exact St2]. eapply steps_step; [|exact St1].
    eapply steps_step; [apply steps_refl|]. apply step_DeleteTask_call.
  - intros l' Hl'. cbn [fst].
    assert (heap w4 = heap w ++ [heap w !!! l]) as ->.
    { unfold w4, w2, DeleteTask_cancel, loadTaskContext.
      by destruct (contexts w1 !! taskID). }
    by apply lookup_total_app_l.
Qed.

(** X11. A [DeleteTask] call for a stored task that runs from beginning
    to end with no other goroutine in between, in a reachable state in
    which the goroutine of the task is not inside a [repo.Update] (between
    its [Load] and its [Store]), returns nil and removes the task for
    good: the context of the task is cancelled and unregistered, and in
    every later state the task has no record, [GetTask] and [DeleteTask]
    fail with not-found for it, and [ListTasks] does not list it. *)
Theorem DeleteTask_uninterrupted_removes_for_good w taskID :
  reachable w → is_Some (rec w taskID) →
  (∀ i e, threads w !! i = Some (TExec e) → exec_id w e = taskID →
          ¬ in_Update (e_pc e)) →
  let w' := DeleteTask_run taskID w in
  steps w w' ∧
  threads w' = threads w ++ [TDelete taskID (DReturned None)] ∧
  (DeleteTask taskID w).2 = None ∧
  repo w' = repo (DeleteTask taskID w).1 ∧
  contexts w' !! taskID = None ∧
  (∀ c, contexts w !! taskID = Some c → ctxCancelled (ctxs w' !!! c) = true) ∧
  ∀ w'', steps w' w'' →
    rec w'' taskID = None ∧
    GetTask taskID w'' =
      (w'', (None, Some (ErrWrap "task not found" (ErrNotFound taskID)))) ∧
    DeleteTask taskID w'' =
      (w'', Some (ErrWrap "task not found" (ErrNotFound taskID))) ∧
    ListTasks_statuses taskID w'' = [].
Proof.
  intros Hr Hrec Hout. cbn zeta.
  pose proof (reachable_inv _ Hr) as Hinv.
  pose proof Hrec as Hst. apply stored_is_Some in Hst. fold (store w) in Hst.
  destruct (DeleteTask_run_spec w taskID Hst) as (Hsteps & Hrun & Hnil & Hheap).
  destruct (DeleteTask_alone w taskID Hinv) as (_ & Halone & _).
  destruct (Halone Hrec) as (_ & Hnone & Hunreg & Hcancel & _).
  assert (inv (DeleteTask_run taskID w)) as Hinv' by by eapply steps_inv.
  rewrite Hrun in Hinv' |- *. rewrite Hrun in Hsteps.
  set (w' := set_threads _ (DeleteTask taskID w).1) in *.
  assert (gone w' taskID) as Hgone.
  { split_and!.
    - eapply steps_issued; [exact Hinv|exact Hsteps|].
      destruct Hst as [l E]. by destruct (inv_store _ Hinv _ _ E) as (_ & ? & _).
    - exact Hnone.
    - intros i e Hi Hid. simpl in Hi.
      apply lookup_app_Some in Hi as [Hi|[_ Hi]].
      + apply (Hout i e Hi). rewrite <- Hid. unfold exec_id.
        symmetry. f_equal. apply Hheap. by destruct (inv_exec _ Hinv _ _ Hi).
      + by destruct (i - length (threads w)) as [|[|?]]. }
  split_and!; try done.
  intros w'' Hsteps''.
  destruct (steps_gone _ _ _ Hinv' Hsteps'' Hgone) as (_ & Hnone'' & _).
  split; [done|]. split; [by apply GetTask_absent|].
  split; [by apply DeleteTask_absent|].
  apply elem_of_nil_inv. intros st Hin.
  assert (inv w'') as Hinv'' by by eapply steps_inv.
  apply ListTasks_statuses_rec in Hin.
  - by rewrite Hnone'' in Hin.
  - intros id l E. by destruct (inv_store _ Hinv'' _ _ E) as (? & _ & ?).
Qed.

Lemma DeleteTask_uninterrupted_removes_for_good_witness :
  is_Some (rec world_started 5) ∧
  (DeleteTask 5 world_started).2 = None ∧
  rec (DeleteTask_run 5 world_started) 5 = None.
Proof.
  assert (is_Some (rec world_started 5)) as Hrec by (eexists; by vm_compute).
  assert (∀ i e, threads world_started !! i = Some (TExec e) →
            exec_id world_started e = 5%N → ¬ in_Update (e_pc e)) as Hout.
  { intros [|[|i]] e Hi _; vm_compute in Hi; try done.
    injection Hi as <-. by intros [?|[? ?]]. }
  destruct (DeleteTask_uninterrupted_removes_for_good world_started 5
              world_started_reachable Hrec Hout)
    as (_ & _ & Hnil & _ & _ & _ & Hlater).
  split; [exact Hrec|]. split; [exact Hnil|].
  by destruct (Hlater _ (steps_refl _)) as (? & _).
Defined.

End Deleting.

(** ** The context of a task *)
Section ContextLifecycle.
Import taskmodel taskservice.
Implicit Types (w : World) (id taskID : UUID) (e : Exec) (tc : TaskContext).

(** X12. In every state the process can be in, where a goroutine of
    [executeTask] is about to call [markFinished] its context is open
    and PROCESSING and the status passed is DONE or FAILED, so the call
    closes the channel and sets that status; where it is at the check of
    its deferred function the context is finished, so the deferred
    [markFinished(StatusFailed)] is skipped.  Once the context is
    finished it stays finished and keeps its status in every later
    state: the channel of a context is closed once and its final status
    is set once. *)
Theorem context_is_finished_once_and_keeps_its_status w i e :
  reachable w → threads w !! i = Some (TExec e) →
  let tc := ctxs w !!! e_tc e in
  (∀ st, e_pc e = PMark st →
     terminal st ∧ IsFinished tc = false ∧ Status tc = StatusProcessing ∧
     closes tc = 1 ∧
     Status (markFinished st tc) = st ∧
     IsFinished (markFinished st tc) = true) ∧
  (e_pc e = PDeferMark →
     IsFinished tc = true ∧ (exec_defer_mark e w).1 = w) ∧
  (IsFinished tc = true →
     terminal (Status tc) ∧
     ∀ w', steps w w' →
       IsFinished (ctxs w' !!! e_tc e) = true ∧
       Status (ctxs w' !!! e_tc e) = Status tc).
Proof.
  intros Hinv%reachable_inv Hi tc.
  destruct (inv_exec _ Hinv _ _ Hi) as (_ & Hlt & _ & _ & Hphase).
  destruct (inv_ctx _ Hinv _ Hlt) as (_ & Hopen & Hfin). fold tc in Hopen, Hfin.
  split_and!.
  - intros st Epc. rewrite Epc in Hphase. destruct Hphase as (Hterm & Hd & _).
    fold tc in Hd. unfold IsFinished, closes. rewrite Hd.
    rewrite markFinished_Status, markFinished_Done.
    split_and!; try done. by apply Hopen.
  - intros Epc. rewrite Epc in Hphase. simpl in Hphase. fold tc in Hphase.
    unfold exec_defer_mark, IsFinished. fold tc. by rewrite Hphase.
  - unfold IsFinished. destruct (Done tc) eqn:Hd; [|done]. intros _.
    split; [by apply Hfin|]. intros w' Hsteps.
    destruct (steps_ctx_finished w w' _ Hinv Hsteps Hlt Hd)
      as [_ (_ & F2 & F3)].
    fold tc in F2, F3. by rewrite F2, F3, Hd.
Qed.

Lemma context_is_finished_once_witness :
  closes (ctxs world_finalized !!! 0) = 1 ∧
  Status (markFinished StatusDone (ctxs world_finalized !!! 0)) = StatusDone.
Proof.
  assert (threads world_finalized !! 1 =
            Some (TExec (mkExec 2 0 (PMark StatusDone) (3 * time.Minute) 0
                                (1 * time.Second + 1 * time.Second)))) as Hi.
  { by vm_compute. }
  destruct (context_is_finished_once_and_keeps_its_status world_finalized 1 _
              world_finalized_reachable Hi) as (H & _).
  by destruct (H StatusDone eq_refl) as (_ & _ & _ & Hc & Hs & _).
Defined.

End ContextLifecycle.

(** ** The HTTP handlers *)
Section Controller.
Import taskmodel taskservice.
Implicit Types (w : World) (id taskID : UUID) (t : Task).

Variable Parse : string → option UUID.
Variable String : UUID → string.

Local Arguments taskrepository.Create : simpl never.
Local Arguments taskrepository.Update : simpl never.
Local Arguments taskrepository.GetByID : simpl never.
Local Arguments taskrepository.Delete : simpl never.
Local Arguments taskrepository.GetAll : simpl never.

Lemma GetTask_handler_found taskIDStr taskID l w :
  taskIDStr ≠ EmptyString → Parse taskIDStr = Some taskID →
  store w !! taskID = Some l →
  taskcontroller.GetTask Parse taskIDStr w =
    (set_repo (taskrepository.mkState (heap w ++ [overlay w (heap w !!! l)])
                                      (store w)) w,
     taskcontroller.JSON http.StatusOK
       (taskcontroller.TaskBody
          (taskcontroller.mapTaskToResponse (overlay w (heap w !!! l))))).
Proof.
  intros Hne HP E. unfold taskcontroller.GetTask.
  rewrite bool_decide_eq_false_2 by done. rewrite HP.
  rewrite (GetTask_found _ l) by done. cbn zeta. do 4 f_equal.
  exact (lookup_total_snoc_last (heap w) _).
Qed.

Lemma GetTask_handler_missing taskIDStr taskID w :
  taskIDStr ≠ EmptyString → Parse taskIDStr = Some taskID →
  store w !! taskID = None →
  taskcontroller.GetTask Parse taskIDStr w = (w, not_found).
Proof.
  intros Hne HP E. unfold taskcontroller.GetTask.
  rewrite bool_decide_eq_false_2 by done. rewrite HP.
  by rewrite GetTask_missing.
Qed.

(** X13. The handler of [GET /task/:id] answers 200, 400 or 404, never
    500: 400 exactly when the parameter is empty or does not parse as an
    identifier, 404 exactly when it parses and the task has no record,
    200 exactly when it parses and the task has a record; the body is
    then the record with the elapsed time [GetTask] overlays.  The
    handler leaves the store, the registry and the contexts as they
    were. *)
Theorem GetTask_handler_status_codes taskIDStr w :
  let w' := (taskcontroller.GetTask Parse taskIDStr w).1 in
  let r := (taskcontroller.GetTask Parse taskIDStr w).2 in
  (taskcontroller.code r = http.StatusOK ∨
   taskcontroller.code r = http.StatusBadRequest ∨
   taskcontroller.code r = http.StatusNotFound) ∧
  (taskcontroller.code r = http.StatusBadRequest ↔
     taskIDStr = EmptyString ∨ Parse taskIDStr = None) ∧
  (taskcontroller.code r = http.StatusNotFound ↔
     taskIDStr ≠ EmptyString ∧
     ∃ taskID, Parse taskIDStr = Some taskID ∧ rec w taskID = None) ∧
  (taskcontroller.code r = http.StatusOK ↔
     taskIDStr ≠ EmptyString ∧
     ∃ taskID t, Parse taskIDStr = Some taskID ∧ rec w taskID = Some t) ∧
  (∀ taskID t, taskIDStr ≠ EmptyString → Parse taskIDStr = Some taskID →
     rec w taskID = Some t →
     r = taskcontroller.JSON http.StatusOK
           (taskcontroller.TaskBody
              (taskcontroller.mapTaskToResponse (overlay w t)))) ∧
  store w' = store w ∧ contexts w' = contexts w ∧ ctxs w' = ctxs w.
Proof.
  cbn zeta. destruct (decide (taskIDStr = EmptyString)) as [->|Hne].
  { unfold taskcontroller.GetTask. simpl.
    split_and!; try done; try (by right; left);
      try (split; [done|by intros [? _]]).
    split; [by left|done]. }
  destruct (Parse taskIDStr) as [taskID|] eqn:HP.
  - destruct (store w !! taskID) as [l|] eqn:E.
    + rewrite (GetTask_handler_found _ taskID l) by done. simpl.
      assert (rec w taskID = Some (heap w !!! l)) as Hrec
        by (apply rec_Some; by exists l).
      split_and!; try done.
      * by left.
      * split; [done|]. by intros [?|?].
      * split; [done|]. intros (_ & id & [= <-] & Hn). by rewrite Hrec in Hn.
      * split; [|done]. intros _. split; [done|]. by exists taskID, (heap w !!! l).
      * intros id t _ [= <-] Ht. rewrite Hrec in Ht. by injection Ht as <-.
    + rewrite (GetTask_handler_missing _ taskID) by done. simpl.
      assert (rec w taskID = None) as Hrec by by apply rec_None.
      split_and!; try done.
      * by right; right.
      * split; [done|]. by intros [?|?].
      * split; [|done]. intros _. split; [done|]. by exists taskID.
      * split; [done|]. intros (_ & id & t & [= <-] & Ht). by rewrite Hrec in Ht.
      * intros id t _ [= <-] Ht. by rewrite Hrec in Ht.
  - unfold taskcontroller.GetTask.
    rewrite bool_decide_eq_false_2 by done. rewrite HP. simpl.
    split_and!; try done.
    + by right; left.
    + split; [by right|done].
    + split; [done|]. by intros (_ & id & ? & _).
    + split; [done|]. by intros (_ & id & t & ? & _).
Qed.


(** X15. In every state the process can be in, the handler of
    [DELETE /task/:id] answers 400 when the parameter does not parse, 404
    when it parses and the task has no record, and otherwise 204 with no
    body; it never answers 500.  After a 204 the task has no record and
    no registered context, the context it had is cancelled, and the same
    request served again, or a [GET /task/:id] for it, answers 404. *)
Theorem DeleteTask_handler_status_codes taskIDStr w :
  reachable w →
  let w' := (taskcontroller.DeleteTask Parse taskIDStr w).1 in
  let r := (taskcontroller.DeleteTask Parse taskIDStr w).2 in
  (Parse taskIDStr = None → r = invalid_id ∧ w' = w) ∧
  (∀ taskID, Parse taskIDStr = Some taskID →
     (rec w taskID = None → r = not_found ∧ w' = w) ∧
     (is_Some (rec w taskID) →
        r = taskcontroller.mkResponse http.StatusNoContent []
                                      taskcontroller.NoBody ∧
        rec w' taskID = None ∧ contexts w' !! taskID = None ∧
        (∀ c, contexts w !! taskID = Some c →
              ctxCancelled (ctxs w' !!! c) = true) ∧
        taskcontroller.DeleteTask Parse taskIDStr w' = (w', not_found) ∧
        (taskIDStr ≠ EmptyString →
           taskcontroller.GetTask Parse taskIDStr w' = (w', not_found)))) ∧
  taskcontroller.code r ≠ http.StatusInternalServerError.
Proof.
  intros Hinv%reachable_inv. cbn zeta. unfold taskcontroller.DeleteTask.
  destruct (Parse taskIDStr) as [taskID|] eqn:HP; [|done].
  destruct (DeleteTask_alone w taskID Hinv) as (Habsent & Hpresent & _).
  destruct (rec w taskID) as [t|] eqn:Hrec.
  - destruct Hpresent as (Hnil & Hnone & Hunreg & Hcancel & _); [done|].
    destruct (DeleteTask taskID w) as [w' err]. simpl in *. subst err.
    split; [done|]. split; [|done].
    intros ? [= <-]. split; [by rewrite Hrec|]. intros _. cbn [fst snd].
    split_and!; try done.
    + cbv beta iota. by rewrite DeleteTask_absent.
    + intros Hne. apply (GetTask_handler_missing _ taskID); [done..|].
      by apply rec_None.
  - rewrite Habsent by done. split; [done|]. split; [|done].
    intros ? [= <-]. split; [done|]. intros [? Ht]. by rewrite Hrec in Ht.
Qed.



Lemma ListTasks_handler_spec w :
  (∀ id l, store w !! id = Some l → l < length (heap w)) →
  (taskcontroller.ListTasks w).2 =
    taskcontroller.JSON http.StatusOK
      (taskcontroller.TaskListBody
         ((λ kv : UUID * loc,
             taskcontroller.mapTaskToResponse (overlay w (heap w !!! kv.2)))
            <$> map_to_list (store w))) ∧
  store (taskcontroller.ListTasks w).1 = store w ∧
  contexts (taskcontroller.ListTasks w).1 = contexts w ∧
  ctxs (taskcontroller.ListTasks w).1 = ctxs w.
Proof.
  intros Hv. pose proof (ListTasks_records w Hv) as Hrecs.
  unfold taskcontroller.ListTasks.
  rewrite ListTasks_spec in Hrecs |- * by done. cbn [fst snd] in *.
  split; [|done]. do 2 f_equal.
  etrans; [apply (list_fmap_compose (λ p, heap _ !!! p)
                    taskcontroller.mapTaskToResponse)|].
  rewrite Hrecs. by rewrite <- list_fmap_compose.
Qed.

(** X16. In every state the process can be in, the handler of
    [GET /tasks] answers 200, never 500, with one entry per stored
    record: as many as [GetTaskCount] counts, each stored identifier
    once.  Each entry is the body with which [GET /task/:id] answers 200
    for its identifier in the same state.  The handler leaves the store,
    the registry and the contexts as they were. *)
Theorem ListTasks_handler_lists_what_GetTask_serves w :
  reachable w →
  let w' := (taskcontroller.ListTasks w).1 in
  let r := (taskcontroller.ListTasks w).2 in
  ∃ tasks,
    r = taskcontroller.JSON http.StatusOK (taskcontroller.TaskListBody tasks) ∧
    length tasks = taskrepository.GetTaskCount (repo w) ∧
    NoDup (taskcontroller.r_ID <$> tasks) ∧
    (∀ id, is_Some (rec w id) ↔ id ∈ taskcontroller.r_ID <$> tasks) ∧
    (∀ entry taskIDStr, entry ∈ tasks → taskIDStr ≠ EmptyString →
       Parse taskIDStr = Some (taskcontroller.r_ID entry) →
       (taskcontroller.GetTask Parse taskIDStr w).2 =
         taskcontroller.JSON http.StatusOK (taskcontroller.TaskBody entry)) ∧
    store w' = store w ∧ contexts w' = contexts w ∧ ctxs w' = ctxs w.
Proof.
  intros Hinv%reachable_inv. cbn zeta.
  assert (∀ id l, store w !! id = Some l → l < length (heap w)) as Hv.
  { intros id l E. by destruct (inv_store _ Hinv _ _ E). }
  destruct (ListTasks_handler_spec w Hv) as (-> & Hs & Hc & Hx).
  eexists. split; [done|].
  assert (taskcontroller.r_ID <$>
            ((λ kv : UUID * loc,
                taskcontroller.mapTaskToResponse (overlay w (heap w !!! kv.2)))
               <$> map_to_list (store w)) = (map_to_list (store w)).*1) as Hids.
  { rewrite <- list_fmap_compose. apply list_fmap_ext.
    intros i [k l] Hi%list_elem_of_lookup_2%elem_of_map_to_list. simpl.
    rewrite overlay_ID. by destruct (inv_store _ Hinv _ _ Hi) as (_ & _ & ?). }
  rewrite Hids. split_and!; try done.
  - by rewrite length_fmap, length_map_to_list, GetTaskCount_size.
  - apply NoDup_fst_map_to_list.
  - intros id. unfold rec. rewrite stored_is_Some. fold (store w).
    rewrite list_elem_of_fmap. split.
    + intros [l E]. exists (id, l). split; [done|]. by apply elem_of_map_to_list.
    + intros ([k l] & -> & E%elem_of_map_to_list). by exists l.
  - intros entry taskIDStr Ht Hne HP.
    apply list_elem_of_fmap in Ht as ([k l] & -> & E%elem_of_map_to_list).
    simpl in HP. rewrite overlay_ID in HP.
    destruct (inv_store _ Hinv _ _ E) as (_ & _ & Hk). rewrite Hk in HP.
    by rewrite (GetTask_handler_found _ k l).
Qed.

End Controller.

(** *** The handlers on a run *)
Section ControllerRun.
Import taskmodel taskservice.

Lemma DeleteTask_handler_status_codes_witness :
  (taskcontroller.DeleteTask (λ _, Some 5%N) "5" world_started).2 =
    taskcontroller.mkResponse http.StatusNoContent [] taskcontroller.NoBody.
Proof.
  destruct (DeleteTask_handler_status_codes (λ _, Some 5%N) "5" world_started
              world_started_reachable) as (_ & H & _).
  destruct (H 5%N eq_refl) as [_ Hpresent].
  apply Hpresent. eexists. by vm_compute.
Defined.

Lemma ListTasks_handler_lists_witness :
  ∃ tasks,
    (taskcontroller.ListTasks world_started).2 =
      taskcontroller.JSON http.StatusOK (taskcontroller.TaskListBody tasks) ∧
    length tasks = 1.
Proof.
  destruct (ListTasks_handler_lists_what_GetTask_serves (λ _, Some 5%N)
              world_started world_started_reachable)
    as (tasks & Hr & Hlen & _).
  exists tasks. split; [exact Hr|]. rewrite Hlen. by vm_compute.
Defined.

End ControllerRun.

(** ** The identity of a task *)
Section Identity.
Import taskmodel taskservice.
Implicit Types (w : World) (id taskID : UUID) (e : Exec) (th : Thread) (t : Task).

Local Arguments taskrepository.Create : simpl never.
Local Arguments taskrepository.Update : simpl never.
Local Arguments taskrepository.GetByID : simpl never.
Local Arguments taskrepository.Delete : simpl never.
Local Arguments taskrepository.GetAll : simpl never.

Lemma fmap_insert_same `{!Inhabited A} {B} (f : A → B) (h : list A) l x :
  f x = f (h !!! l) → f <$> <[l := x]> h = f <$> h.
Proof.
  intros Hx. rewrite list_fmap_insert.
  destruct (decide (l < length h)) as [Hl|Hl].
  - apply list_insert_id. rewrite list_lookup_fmap, Hx.
    by rewrite (list_lookup_lookup_total_lt h l).
  - apply list_insert_ge. rewrite length_fmap. lia.
Qed.

Lemma heap_extends_same w w' :
  identity <$> heap w' = identity <$> heap w → heap_extends w w'.
Proof.
  intros E. exists []. rewrite E, app_nil_r. split; [done|].
  left. by intros t ?%elem_of_nil.
Qed.

Lemma heap_extends_copies w w' (new : list Task) :
  heap w' = heap w ++ new →
  (∀ t, t ∈ new → identity t ∈ identity <$> heap w) →
  heap_extends w w'.
Proof. intros E Hnew. exists new. rewrite E, fmap_app. split; [done|by left]. Qed.

Lemma identity_overlay w t : identity (overlay w t) = identity t.
Proof.
  unfold overlay. destruct (IsProcessing t); [|done].
  destruct (contexts w !! _); [|done]. by destruct (IsFinished _).
Qed.

Lemma identity_cell w l :
  l < length (heap w) → identity (heap w !!! l) ∈ identity <$> heap w.
Proof.
  intros Hl. apply list_elem_of_fmap. eexists. split; [done|].
  by apply list_elem_of_lookup_total_2.
Qed.

(** What a step of [executeTask] does to the task objects. *)
Lemma executeTask_step_heap ev e w w1 th' :
  e_task e < length (heap w) →
  executeTask_step ev e w = Some (w1, th') →
  issued w1 = issued w ∧ heap_extends w w1.
Proof.
  intros Hlt Hstep. unfold executeTask_step in Hstep.
  assert (∀ t', identity t' = identity (heap w !!! e_task e) →
            heap_extends w (write_task (e_task e) t' w)) as Hwrite.
  { intros t' Ht'. apply heap_extends_same. unfold heap, write_task. simpl.
    by apply fmap_insert_same. }
  assert (heap_extends w
            (set_repo (taskrepository.Update_Store (e_task e) (repo w)) w))
    as Hstore.
  { apply (heap_extends_copies _ _ [heap w !!! e_task e]).
    - change (taskrepository.heap
                (taskrepository.Update_Store (e_task e) (repo w)) =
              heap w ++ [heap w !!! e_task e]).
      by rewrite Update_Store_spec.
    - intros t ->%list_elem_of_singleton. by apply identity_cell. }
  destruct (e_pc e) eqn:Epc, ev; try done.
  - case_bool_decide; [|done]. injection Hstep as <- <-.
    split; [done|]. by apply heap_extends_same.
  - destruct (ctx_done _ _); [|done]. unfold exec_cancelled in Hstep.
    rewrite exec_finalize_spec in Hstep by done. injection Hstep as <- <-.
    split; [done|]. by apply Hwrite.
  - case_bool_decide; [|done]. rewrite exec_tick_spec in Hstep by done.
    cbn zeta in Hstep.
    case_bool_decide; injection Hstep as <- <-; (split; [done|by apply Hwrite]).
  - injection Hstep as <- <-. by split.
  - unfold exec_update_failed in Hstep.
    rewrite exec_finalize_spec in Hstep by done. injection Hstep as <- <-.
    split; [done|]. by apply Hwrite.
  - injection Hstep as <- <-. by split.
  - injection Hstep as <- <-. split; [done|]. by apply heap_extends_same.
  - injection Hstep as <- <-. split; [done|]. by apply heap_extends_same.
  - injection Hstep as <- <-. split; [by destruct (negb _)|].
    apply heap_extends_same. by destruct (negb _).
  - injection Hstep as <- <-. split; [done|]. by apply heap_extends_same.
Qed.

Lemma step_heap_extends w w' : inv w → step w w' → heap_extends w w'.
Proof.
  intros Hinv Hstep.
  assert (∀ id l, store w !! id = Some l → l < length (heap w)) as Hv
    by (intros ? l E; by destruct (inv_store _ Hinv _ _ E)).
  destruct Hstep
    as [t Ht|id name Hfresh|taskID| |id c Hcx|taskID|i th ev w1 th' Hi Hstep].
  - by apply heap_extends_same.
  - assert (store w !! id = None) as Hnone.
    { destruct (store w !! id) as [l|] eqn:E; [|done].
      by destruct (inv_store _ Hinv _ _ E) as (_ & ? & _). }
    rewrite CreateTask_call_fresh by done. cbn zeta.
    set (t := new_task id name (now w)).
    exists [t; t]. split; [unfold heap; simpl; by rewrite fmap_app|].
    right. intros t' Ht'. simpl.
    assert (∀ t0, t0 ∈ [t; t] → t0 = t) as Hall.
    { intros t0 [->|[->|[]%elem_of_nil]%elem_of_cons]%elem_of_cons; done. }
    rewrite (Hall _ Ht'). split; [done|]. split.
    + apply elem_of_union_l. by apply elem_of_singleton.
    + intros t0 Ht0. by rewrite (Hall _ Ht0).
  - destruct (store w !! taskID) as [l|] eqn:E.
    + rewrite (GetTask_found _ l) by done.
      apply (heap_extends_copies _ _ [overlay w (heap w !!! l)]); [done|].
      intros t ->%list_elem_of_singleton. rewrite identity_overlay.
      apply identity_cell. by eapply Hv.
    + rewrite GetTask_missing by done. by apply heap_extends_same.
  - rewrite ListTasks_spec by done.
    eapply heap_extends_copies; [done|].
    intros t (t0 & -> & Ht0)%list_elem_of_fmap.
    apply list_elem_of_fmap in Ht0 as ([k l] & -> & Hkl%elem_of_map_to_list).
    rewrite identity_overlay. apply identity_cell. by eapply Hv.
  - apply heap_extends_same. unfold cancel_unfinished. by destruct (negb _).
  - by apply heap_extends_same.
  - destruct th as [e0|task|taskID pc|]; simpl in Hstep; [| | |done].
    + destruct (inv_exec _ Hinv _ _ Hi) as (Hlt & _).
      by destruct (executeTask_step_heap ev e0 w w1 th' Hlt Hstep) as [_ ?].
    + injection Hstep as <- <-.
      destruct (inv_create _ Hinv _ _ Hi) as (Hlt & _).
      rewrite CreateTask_start_spec.
      apply (heap_extends_copies _ _ [heap w !!! task]); [done|].
      intros t ->%list_elem_of_singleton. by apply identity_cell.
    + destruct pc; simpl in Hstep.
      * unfold DeleteTask_check in Hstep.
        destruct (store w !! taskID) as [l|] eqn:E.
        -- unfold store in E. rewrite (GetByID_found _ l) in Hstep by done.
           injection Hstep as <- _.
           apply (heap_extends_copies _ _ [heap w !!! l]); [done|].
           intros t ->%list_elem_of_singleton. apply identity_cell.
           by eapply Hv.
        -- unfold store in E. rewrite GetByID_missing in Hstep by done.
           injection Hstep as <- _. by apply heap_extends_same.
      * injection Hstep as <- _. apply heap_extends_same.
        unfold DeleteTask_cancel. by destruct (loadTaskContext taskID w).
      * apply heap_extends_same. repeat case_match; by simplify_eq.
      * injection Hstep as <- _. by apply heap_extends_same.
      * done.
Qed.

Lemma heap_extends_identity_inv w w' :
  issued w ⊆ issued w' → heap_extends w w' → identity_inv w → identity_inv w'.
Proof.
  intros Hiss (new & E & Hnew) [Hagree Hissued]. unfold identity_inv.
  rewrite E. split.
  - intros x y [Hx|Hx]%elem_of_app [Hy|Hy]%elem_of_app Hid.
    + by apply Hagree.
    + apply list_elem_of_fmap in Hy as (t & -> & Ht).
      destruct Hnew as [Hold|Hfresh].
      * apply Hagree; [done| |done]. by apply Hold.
      * destruct (Hfresh t Ht) as (Hni & _). destruct Hni.
        simpl in Hid. rewrite <- Hid. by apply Hissued.
    + apply list_elem_of_fmap in Hx as (t & -> & Ht).
      destruct Hnew as [Hold|Hfresh].
      * apply Hagree; [|done..]. by apply Hold.
      * destruct (Hfresh t Ht) as (Hni & _). destruct Hni.
        simpl in Hid. rewrite Hid. by apply Hissued.
    + apply list_elem_of_fmap in Hx as (t & -> & Ht).
      apply list_elem_of_fmap in Hy as (t' & -> & Ht').
      destruct Hnew as [Hold|Hfresh].
      * apply Hagree; [by apply Hold..|done].
      * destruct (Hfresh t Ht) as (_ & _ & Hsame). symmetry. by apply Hsame.
  - intros x [Hx|Hx]%elem_of_app.
    + apply Hiss. by apply Hissued.
    + apply list_elem_of_fmap in Hx as (t & -> & Ht).
      destruct Hnew as [Hold|Hfresh].
      * apply Hiss. apply Hissued. by apply Hold.
      * by destruct (Hfresh t Ht) as (_ & ? & _).
Qed.

Lemma reachable_identity_inv w : reachable w → identity_inv w.
Proof.
  induction 1 as [|w w' Hr IH Hstep].
  - split; [intros x y Hx|intros x Hx]; simpl in Hx; by apply elem_of_nil in Hx.
  - pose proof (reachable_inv _ Hr) as Hinv.
    eapply heap_extends_identity_inv; [|by apply step_heap_extends|done].
    by apply step_issued.
Qed.

Lemma steps_identity_kept w w' x :
  inv w → steps w w' → x ∈ identity <$> heap w → x ∈ identity <$> heap w'.
Proof.
  intros Hinv Hsteps Hx. induction Hsteps as [|w1 w2 Hsteps IH Hstep]; [done|].
  destruct (step_heap_extends w1 w2) as (new & E & _);
    [by eapply steps_inv|done|].
  rewrite E. apply elem_of_app. by left.
Qed.

(** X17. The identifier, the name and the creation time of a task never
    change.  If a task has the record [t] in a reachable state, then in
    every later state its record, the task [GetTask] returns for it and
    the tasks [ListTasks] returns under its identifier have the
    identifier, the name and the creation time of [t]; only the status
    and the processing time differ.  This holds also when the record was
    deleted and stored again in between. *)
Theorem task_identity_never_changes w w' id t :
  reachable w → steps w w' → rec w id = Some t →
  taskmodel.ID t = id ∧
  (∀ t', rec w' id = Some t' →
     taskmodel.ID t' = id ∧ Name t' = Name t ∧ CreatedAt t' = CreatedAt t) ∧
  (∀ p, (GetTask id w').2.1 = Some p →
     let t' := heap (GetTask id w').1 !!! p in
     taskmodel.ID t' = id ∧ Name t' = Name t ∧ CreatedAt t' = CreatedAt t) ∧
  (∀ p, p ∈ (ListTasks w').2.1 →
     let t' := heap (ListTasks w').1 !!! p in
     taskmodel.ID t' = id → Name t' = Name t ∧ CreatedAt t' = CreatedAt t).
Proof.
  intros Hr Hsteps (l & E & <-)%rec_Some.
  pose proof (reachable_inv _ Hr) as Hinv.
  destruct (inv_store _ Hinv _ _ E) as (Hl & _ & Hid).
  assert (reachable w') as Hr' by by eapply reachable_steps.
  pose proof (reachable_inv _ Hr') as Hinv'.
  assert (∀ id l, store w' !! id = Some l → l < length (heap w')) as Hv'
    by (intros ? l0 E0; by destruct (inv_store _ Hinv' _ _ E0)).
  assert (∀ w0 l0, steps w' w0 → l0 < length (heap w0) →
            taskmodel.ID (heap w0 !!! l0) = id →
            Name (heap w0 !!! l0) = Name (heap w !!! l) ∧
            CreatedAt (heap w0 !!! l0) = CreatedAt (heap w !!! l)) as Hall.
  { intros w0 l0 Hsteps0 Hl0 Hid0.
    assert (steps w w0) as Hs by by eapply steps_trans.
    pose proof (steps_identity_kept w w0 _ Hinv Hs (identity_cell w l Hl)) as Hin.
    destruct (reachable_identity_inv w0) as [Hagree _];
      [by eapply reachable_steps|].
    assert (identity (heap w0 !!! l0) = identity (heap w !!! l)) as Heq.
    { apply Hagree; [by apply identity_cell|done|]. simpl. congruence. }
    unfold identity in Heq. by injection Heq as _ -> ->. }
  split; [done|]. split_and!.
  - intros t' (l' & E' & <-)%rec_Some.
    destruct (inv_store _ Hinv' _ _ E') as (Hl' & _ & Hid').
    split; [done|]. apply (Hall w' l'); [apply steps_refl|done..].
  - intros p Hp. cbn zeta.
    destruct (store w' !! id) as [l'|] eqn:E'.
    + destruct (inv_store _ Hinv' _ _ E') as (Hl' & _ & Hid').
      assert (taskmodel.ID (heap (GetTask id w').1 !!! p) = id) as Hidp.
      { rewrite (GetTask_found _ l') in Hp |- * by done.
        injection Hp as <-. cbn [fst].
        etrans; [exact (f_equal taskmodel.ID
                          (lookup_total_snoc_last (heap w') _))|].
        by rewrite overlay_ID. }
      split; [done|]. apply Hall; [| |done].
      * eapply steps_step; [apply steps_refl|apply step_GetTask].
      * rewrite (GetTask_found _ l') in Hp |- * by done.
        injection Hp as <-. cbn [fst].
        change (length (heap w') < length (heap w' ++ [overlay w' (heap w' !!! l')])).
        rewrite length_app. simpl. lia.
    + by rewrite GetTask_missing in Hp.
  - intros p Hp. cbn zeta. intros Hidp. apply Hall; [| |done].
    + eapply steps_step; [apply steps_refl|apply step_ListTasks].
    + rewrite ListTasks_spec in Hp |- * by done. simpl in Hp.
      apply elem_of_seq in Hp. cbn [fst].
      match goal with |- _ < length (heap (set_repo ?r _)) =>
        change (p < length (taskrepository.heap r)) end.
      simpl. rewrite length_app, !length_fmap. lia.
Qed.

Lemma world_restored_exited_steps : steps world_started world_restored_exited.
Proof.
  unfold world_restored_exited, world_restored_failed, world_restored,
    world_deleted, world_updating. cbv zeta.
  do 11 (eapply steps_step; [|apply step_run_thread; by vm_compute]).
  eapply steps_step; [|apply step_DeleteTask_call].
  eapply steps_step; [|apply step_run_thread; by vm_compute].
  eapply steps_step; [apply steps_refl|].
  apply (step_clock world_started (1 * time.Second)). by vm_compute.
Qed.

Lemma task_identity_never_changes_witness :
  rec world_started 5 = Some (mkTask 5 "Beta" StatusProcessing 0 0) ∧
  ∀ t', rec world_restored_exited 5 = Some t' →
        Name t' = "Beta" ∧ CreatedAt t' = 0%Z.
Proof.
  assert (rec world_started 5 = Some (mkTask 5 "Beta" StatusProcessing 0 0))
    as Hrec by by vm_compute.
  destruct (task_identity_never_changes world_started world_restored_exited 5 _
              world_started_reachable world_restored_exited_steps Hrec)
    as (_ & H & _).
  split; [exact Hrec|]. intros t' Ht'.
  destruct (H t' Ht') as (_ & H1 & H2). split; [exact H1|exact H2].
Defined.

End Identity.

(** ** The container of components *)
Section Container.
Import app.
Implicit Types (s : State) (m : method).

Local Ltac wired_cases s :=
  destruct s as [[[ct|] [sv|] [r|] [sr|] [en|]] [n svs cts ens srs]];
  unfold wired; simpl;
  intros H;
  repeat match goal with
         | H : _ ∧ _ |- _ => destruct H
         | H : ∃ _, _ |- _ => destruct H
         end;
  simplify_eq.

Lemma call_wired m s :
  wired s →
  wired (call m s).1 ∧
  field m (call m s).1.1 = Some (call m s).2 ∧
  (∀ m', is_Some (field m' s.1) → field m' (call m s).1.1 = field m' s.1) ∧
  (is_Some (field m s.1) → (call m s).1 = s).
Proof.
  destruct m; wired_cases s;
    (split; [|split; [done|split]]);
    try (intros [] [? ?]; by simplify_eq); try done;
    try (by intros [? ?]);
    repeat split; eauto.
Qed.

Lemma calls_wired ms s : wired s → wired (calls ms s).
Proof.
  revert s. induction ms as [|m ms IH]; intros s Hs; [done|].
  apply IH. by apply call_wired.
Qed.

Lemma NewDIContainer_wired : wired NewDIContainer.
Proof. by repeat split. Qed.

(** X18. However the methods of the container are called, and in
    whatever order, the container makes at most one component of each
    kind, and the components are made from one another: the service from
    the repository of the container, the controller from its service, the
    engine with the routes of its controller, the server with its engine.
    A method returns the component the container holds from then on; a
    component already held is never replaced, and asking for it again
    returns the same component and changes nothing.  After [Server], the
    one call [Start] makes, all five components are there. *)
Theorem container_makes_each_component_once ms m :
  let s := calls ms NewDIContainer in
  let s1 := (call m s).1 in
  let p := (call m s).2 in
  wired s ∧ wired s1 ∧
  repositories s1.2 ≤ 1 ∧ length (services s1.2) ≤ 1 ∧
  length (controllers s1.2) ≤ 1 ∧ length (engines s1.2) ≤ 1 ∧
  length (servers s1.2) ≤ 1 ∧
  field m s1.1 = Some p ∧
  call m s1 = (s1, p) ∧
  (∀ m', is_Some (field m' s.1) → field m' s1.1 = field m' s.1) ∧
  (∀ m', is_Some (field m' (Server s).1.1)).
Proof.
  cbn zeta. pose proof (calls_wired ms _ NewDIContainer_wired) as Hs.
  destruct (call_wired m _ Hs) as (Hs1 & Hf & Hkeep & _).
  destruct (call_wired m _ Hs1) as (_ & Hf' & _ & Hsame).
  split_and!; try done.
  - revert Hs1. generalize (call m (calls ms NewDIContainer)).1.
    intros s. wired_cases s; simpl; lia.
  - revert Hs1. generalize (call m (calls ms NewDIContainer)).1.
    intros s. wired_cases s; simpl; lia.
  - revert Hs1. generalize (call m (calls ms NewDIContainer)).1.
    intros s. wired_cases s; simpl; lia.
  - revert Hs1. generalize (call m (calls ms NewDIContainer)).1.
    intros s. wired_cases s; simpl; lia.
  - revert Hs1. generalize (call m (calls ms NewDIContainer)).1.
    intros s. wired_cases s; simpl; lia.
  - assert (is_Some (field m (call m (calls ms NewDIContainer)).1.1)) as Hsome
      by (rewrite Hf; by eexists).
    specialize (Hsame Hsome). rewrite Hsame, Hf in Hf'.
    destruct (call m (call m _).1) as [s2 p2]. simpl in *. congruence.
  - revert Hs. generalize (calls ms NewDIContainer).
    intros s Hs m'. revert Hs. destruct m'; wired_cases s; by eexists.
Qed.

End Container.

(** ** [Shutdown]: the drain and its bound *)
Section ShutdownDrain.
Import taskmodel taskservice.
Implicit Types (w : World) (run later : list World) (e : Exec).

Lemma run_schedule_path (schedule : list action) w :
  all_enabled schedule w = true → path w (run_schedule schedule w).
Proof.
  revert w. induction schedule as [|a rest IH]; intros w; [done|].
  simpl. intros [Ha Hrest]%andb_true_iff. split; [|by apply IH].
  destruct a as [t|i ev|id name]; simpl in Ha |- *.
  - apply step_clock. by apply bool_decide_eq_true in Ha.
  - apply step_run_thread. destruct (threads w !! i) as [th|]; [|done].
    by destruct (thread_step ev th w).
  - apply step_CreateTask. by apply bool_decide_eq_true in Ha.
Qed.

Lemma path_steps w run w1 : path w run → w1 ∈ run → steps w w1.
Proof.
  revert w. induction run as [|w2 run IH]; intros w Hp Hin.
  - by apply elem_of_nil in Hin.
  - destruct Hp as [Hstep Hp].
    assert (steps w w2) as Hs
      by (eapply steps_step; [apply steps_refl|done]).
    apply elem_of_cons in Hin as [->|Hin]; [done|].
    eapply steps_trans; [exact Hs|]. by apply IH.
Qed.

(** The [select] of [Shutdown] is decided in the first state of the run
    in which a case is ready. *)
Lemma Shutdown_select_first bound pick run k w1 :
  run !! k = Some w1 →
  (∀ j wj, j < k → run !! j = Some wj → wg wj ≠ 0%Z ∧ (now wj < bound)%Z) →
  (wg w1 = 0%Z ∨ (bound ≤ now w1)%Z) →
  Shutdown_select bound pick run =
    if bool_decide (bound ≤ now w1)%Z then
      if wg_Wait w1 then Some (if pick then Some ErrShutdownTimeout else None)
      else Some (Some ErrShutdownTimeout)
    else Some None.
Proof.
  revert k. induction run as [|w0 run IH]; intros k Hk Hbefore Hready; [done|].
  destruct k as [|k].
  - injection Hk as ->. simpl. unfold wg_Wait.
    repeat case_bool_decide; try done. destruct Hready; [done|lia].
  - simpl. destruct (Hbefore 0 w0) as [Hwg Hnow]; [lia|done|].
    assert (wg_Wait w0 = false) as Hw
      by (unfold wg_Wait; by rewrite bool_decide_eq_false_2).
    rewrite (bool_decide_eq_false_2 (bound ≤ now w0)%Z) by lia.
    rewrite Hw.
    apply (IH k); [done| |done].
    intros j wj Hj E. apply (Hbefore (S j)); [lia|done].
Qed.

Lemma Shutdown_select_blocked bound pick run :
  (∀ w1, w1 ∈ run → wg w1 ≠ 0%Z ∧ (now w1 < bound)%Z) →
  Shutdown_select bound pick run = None.
Proof.
  induction run as [|w0 run IH]; intros Hall; [done|].
  simpl. destruct (Hall w0) as [Hwg Hnow]; [apply elem_of_cons; by left|].
  assert (wg_Wait w0 = false) as Hw
    by (unfold wg_Wait; by rewrite bool_decide_eq_false_2).
  rewrite (bool_decide_eq_false_2 (bound ≤ now w0)%Z) by lia.
  rewrite Hw.
  apply IH. intros w1 Hin. apply Hall. apply elem_of_cons. by right.
Qed.

Lemma Shutdown_select_returned bound pick run r :
  Shutdown_select bound pick run = Some r →
  ∃ w1, w1 ∈ run ∧
    (r = None → wg w1 = 0%Z) ∧
    (∀ err, r = Some err → err = ErrShutdownTimeout ∧ (bound ≤ now w1)%Z).
Proof.
  induction run as [|w0 run IH]; [done|]. simpl. unfold wg_Wait.
  repeat case_bool_decide.
  - intros [= <-]. exists w0. split; [apply elem_of_cons; by left|].
    split; [done|]. destruct pick; [by intros ? [= <-]|done].
  - intros [= <-]. exists w0. split; [apply elem_of_cons; by left|].
    split; [done|]. by intros ? [= <-].
  - intros [= <-]. exists w0. split; [apply elem_of_cons; by left|]. done.
  - intros Hr. destruct (IH Hr) as (w1 & Hin & H1 & H2).
    exists w1. split; [apply elem_of_cons; by right|]. done.
Qed.

Local Arguments Shutdown_select : simpl never.

Lemma reachable_wg_outstanding w : reachable w → wg w = Z.of_nat (outstanding w).
Proof.
  induction 1 as [|w w' Hr IH Hstep]; [done|].
  pose proof (step_wg w w' (reachable_inv _ Hr) Hstep). lia.
Qed.

(** C2, as the code has it.  The [Range] of [Shutdown] cancels every
    registered context that is not finished and leaves everything else
    as it was.  The call then waits for the wait group, no longer than
    until the bound: the earlier of the caller's deadline and 30 seconds
    after the call.  Along any run of the process from there, the call
    returns in the first state in which the counter of the wait group is
    zero or the bound has passed: nil when the counter is zero before the
    bound has passed, the timeout error when the bound has passed and
    the counter is not zero, either of the two when both hold in that
    state; until then it stays blocked.  So it returns nil only in a run
    with a state in which every goroutine of [executeTask] started so
    far has run [s.wg.Done()], and it fails only with the timeout error,
    and only once the bound has passed. *)
Theorem Shutdown_cancels_then_waits_bounded parentDone pick later w :
  reachable w → path (Shutdown_cancel w) later →
  let w' := Shutdown_cancel w in
  let run := w' :: later in
  let res := Shutdown parentDone pick later w in
  let bound := shutdownCtx_done (now w) parentDone in
  (∀ id c, contexts w !! id = Some c → IsFinished (ctxs w !!! c) = false →
           ctxCancelled (ctxs w' !!! c) = true) ∧
  (∀ c, ctxs w' !!! c = ctxs w !!! c ∨ ctxs w' !!! c = Cancel (ctxs w !!! c)) ∧
  (repo w' = repo w ∧ contexts w' = contexts w ∧ threads w' = threads w ∧
   now w' = now w) ∧
  (bound ≤ now w + 30 * time.Second)%Z ∧
  (∀ p : Z, parentDone = Some p → bound = Z.min p (now w + 30 * time.Second)) ∧
  (parentDone = None → bound = (now w + 30 * time.Second)%Z) ∧
  (∀ k w1, run !! k = Some w1 →
     (∀ j wj, j < k → run !! j = Some wj →
              wg wj ≠ 0%Z ∧ (now wj < bound)%Z) →
     (wg w1 = 0%Z → (now w1 < bound)%Z → res = Some None) ∧
     (wg w1 ≠ 0%Z → (bound ≤ now w1)%Z →
        res = Some (Some ErrShutdownTimeout)) ∧
     (wg w1 = 0%Z → (bound ≤ now w1)%Z →
        res = Some (if pick then Some ErrShutdownTimeout else None))) ∧
  ((∀ w1, w1 ∈ run → wg w1 ≠ 0%Z ∧ (now w1 < bound)%Z) → res = None) ∧
  (res = Some None →
     ∃ w1, w1 ∈ run ∧ reachable w1 ∧ wg w1 = 0%Z ∧
       ∀ i e, threads w1 !! i = Some (TExec e) →
              e_pc e = PDeferMark ∨ e_pc e = PDeferDelete) ∧
  (∀ err, res = Some (Some err) →
     err = ErrShutdownTimeout ∧ is_Timeout err = true ∧
     ∃ w1, w1 ∈ run ∧ (bound ≤ now w1)%Z).
Proof.
  intros Hr Hpath w' run res bound.
  pose proof (reachable_inv _ Hr) as Hinv.
  assert (steps w w') as Hsteps by apply Shutdown_cancel_steps.
  assert (∀ w1, w1 ∈ run → reachable w1) as Hreach.
  { intros w1 [->|Hin]%elem_of_cons; [by eapply reachable_steps|].
    eapply reachable_steps; [done|].
    eapply steps_trans; [exact Hsteps|]. by eapply path_steps. }
  subst w'. unfold res, run, Shutdown in *. clear res run.
  unfold Shutdown_cancel in *.
  destruct (foldl_cancel_unfinished (map_to_list (contexts w)) w)
    as (cs' & Heq & Hlen & Hcell & Hc).
  rewrite Heq in *. simpl. fold bound.
  split.
  { intros id c E Hf. apply (Hc (id, c)); [by apply elem_of_map_to_list| |done].
    simpl. by destruct (inv_registry _ Hinv _ _ E). }
  split; [done|]. split; [done|].
  assert (bound ≤ now w + 30 * time.Second)%Z as Hb.
  { subst bound. unfold shutdownCtx_done, shutdownTimeout.
    destruct parentDone; lia. }
  split; [done|]. split; [by intros p ->|]. split; [by intros ->|].
  split.
  { intros k w1 Hk Hbefore.
    split_and!; intros Hwg Hnow.
    - rewrite (Shutdown_select_first bound pick _ k w1 Hk Hbefore
                 (or_introl Hwg)).
      by rewrite bool_decide_eq_false_2 by lia.
    - rewrite (Shutdown_select_first bound pick _ k w1 Hk Hbefore
                 (or_intror Hnow)).
      rewrite bool_decide_eq_true_2 by done. unfold wg_Wait.
      by rewrite bool_decide_eq_false_2.
    - rewrite (Shutdown_select_first bound pick _ k w1 Hk Hbefore
                 (or_introl Hwg)).
      rewrite bool_decide_eq_true_2 by done. unfold wg_Wait.
      by rewrite bool_decide_eq_true_2. }
  split; [apply Shutdown_select_blocked|].
  split.
  - intros Hres.
    destruct (Shutdown_select_returned _ _ _ _ Hres) as (w1 & Hin & Hzero & _).
    specialize (Hzero eq_refl). exists w1. split; [done|].
    pose proof (Hreach w1 Hin) as Hr1. split; [done|]. split; [done|].
    pose proof (reachable_wg_outstanding w1 Hr1) as Hwg.
    rewrite Hzero in Hwg. unfold outstanding in Hwg.
    assert (length (filter (λ th, before_wg_Done th = true) (threads w1)) = 0)
      as Hnone by lia.
    intros i e E.
    pose proof (proj1 (count_before_wg_Done_zero _) Hnone i _ E) as Hb1.
    simpl in Hb1. destruct (e_pc e); try done; [by left|by right].
  - intros err Hres.
    destruct (Shutdown_select_returned _ _ _ _ Hres) as (w1 & Hin & _ & Herr).
    destruct (Herr err eq_refl) as [-> Hnow].
    split; [done|]. split; [done|]. by exists w1.
Qed.

Lemma schedule_drain_path :
  path (Shutdown_cancel world_started)
       (run_schedule schedule_drain (Shutdown_cancel world_started)).
Proof. apply run_schedule_path. by vm_compute. Qed.

Lemma schedule_busy_path :
  path (Shutdown_cancel world_started)
       (run_schedule schedule_busy (Shutdown_cancel world_started)).
Proof. apply run_schedule_path. by vm_compute. Qed.

Lemma Shutdown_cancels_then_waits_bounded_witness :
  let later := run_schedule schedule_drain (Shutdown_cancel world_started) in
  Shutdown None true later world_started = Some None ∧
  ctxCancelled (ctxs (Shutdown_cancel world_started) !!! 0) = true ∧
  ∃ w1, w1 ∈ Shutdown_cancel world_started :: later ∧ wg w1 = 0%Z.
Proof.
  intros later.
  assert (Shutdown None true later world_started = Some None) as Hres
    by by vm_compute.
  pose proof (Shutdown_cancels_then_waits_bounded None true later world_started
                world_started_reachable schedule_drain_path) as H.
  cbv zeta in H.
  destruct H as (Hcancel & _ & _ & _ & _ & _ & _ & _ & Hnil & _).
  split; [exact Hres|]. split.
  - apply (Hcancel 5%N 0); by vm_compute.
  - destruct (Hnil Hres) as (w1 & Hin & _ & Hwg & _). by exists w1.
Defined.

(** C2, as the claim states it, fails.  [Shutdown] is called with a
    caller deadline 60 seconds away while task 5 is in progress; right
    after its [Range] a [CreateTask] request starts task 6, whose context
    no one cancels.  The goroutine of task 5 observes the cancellation
    and returns; the goroutine of task 6 works on.  30 seconds after the
    call the wait group has not drained, the deadline of the caller has
    not passed, and [Shutdown] returns the timeout error, because of its
    own 30 seconds. *)
Lemma Shutdown_times_out_before_caller_deadline :
  let callerDeadline := (60 * time.Second)%Z in
  let w' := Shutdown_cancel world_started in
  let later := run_schedule schedule_busy w' in
  reachable world_started ∧ path w' later ∧
  Shutdown (Some callerDeadline) true later world_started
    = Some (Some ErrShutdownTimeout) ∧
  Shutdown (Some callerDeadline) false later world_started
    = Some (Some ErrShutdownTimeout) ∧
  Forall (λ w1, wg w1 ≠ 0%Z ∧ (now w1 < callerDeadline)%Z) (w' :: later) ∧
  (now <$> last later) = Some (30 * time.Second)%Z.
Proof.
  cbv zeta.
  split; [apply world_started_reachable|].
  split; [apply schedule_busy_path|].
  split; [by vm_compute|]. split; [by vm_compute|].
  split; [|by vm_compute].
  refine (bool_decide_unpack _ _). by vm_compute.
Qed.

End ShutdownDrain.
